(** * Runtime-checked ownership and borrowing: [Lifetime<T>] of lifetime.hpp

    A shallow embedding of the class template [Lifetime<T>] and of its nested
    class [LifetimeMutator].  Every object the header allocates (the value
    behind [m_T], the owner cell behind [m_owner], the mutator cell behind
    [m_mutator], the mutex, the [std::set] behind [m_refs], the
    [LifetimeMutator] records and the [Lifetime] objects themselves) lives in
    one store indexed by addresses; member functions are state transformers
    over that store that may return, throw a [std::runtime_error], or have no
    defined behaviour (failed [assert], null or dangling dereference). *)

From stdpp Require Import base decidable option numbers gmap sets.

Open Scope N_scope.

(** ** Addresses *)

(** A pointer is an address; [nullptr] is address 0. *)
Abbreviation ptr := N.
Definition nullptr : ptr := 0.

(** ** Objects *)

(** Data members of [Lifetime<T>] (lines 241-245). *)
Record Lifetime := mkLifetime {
  m_T : ptr;         (* T* *)
  m_owner : ptr;     (* Lifetime** *)
  m_mutex : ptr;     (* std::mutex* *)
  m_mutator : ptr;   (* LifetimeMutator** *)
  m_refs : ptr       (* std::set<Lifetime*>* *)
}.

#[global] Instance Lifetime_eq_dec : EqDecision Lifetime.
Proof. solve_decision. Defined.

(** Data members of [Lifetime<T>::LifetimeMutator] (lines 236-237). *)
Module LifetimeMutator.
Record t := mk {
  m_mutator : ptr;         (* Lifetime* *)
  m_mutatorAccess : ptr    (* LifetimeMutator** *)
}.
End LifetimeMutator.

(** The [std::runtime_error]s of the header, by the message they carry. *)
Inductive error :=
| NotWritable             (* lines 119 and 135: "... without maintaining
                             object ownership or mutability." *)
| AlreadyMutableBorrowed  (* line 159: "Tried to borrow mutable access from a
                             Lifetime for which mutable access already
                             exists." *)
| NotOwner                (* lines 190 and 214: "Lifetime tried to transfer
                             ownership without maintaining object
                             ownership." *)
| SameHandle              (* line 192: "... to the same instance." *)
| ForeignGroup            (* line 203: "... to a different Lifetime." *)
| OwnerDropped.           (* line 81: "Owner freed but references still
                             exist." *)

Section WithT.
Context {T : Type}.

Inductive obj :=
| OVal (v : T)                       (* a [T] *)
| OOwner (p : ptr)                   (* a [Lifetime*] *)
| OSlot (p : ptr)                    (* a [LifetimeMutator*] *)
| OMutex                             (* a [std::mutex] *)
| OSet (s : gset N)                  (* a [std::set<Lifetime*>] *)
| OMutator (lm : LifetimeMutator.t)  (* a [LifetimeMutator] *)
| OLifetime (h : Lifetime).          (* a [Lifetime<T>] *)

(** ** The store *)

(** [brk] is the last address handed out; addresses are never reused, so a
    deleted object's address stays dangling. *)
Record store := mkStore { heap : gmap N obj; brk : N }.

Definition empty_store : store := mkStore ∅ 0.

Inductive outcome (A : Type) :=
| Ok (a : A) (σ : store)         (* normal return *)
| Throw (e : error) (σ : store)  (* exception leaves the call in state σ *)
| Undef.                         (* failed assert, null or dangling access *)
Arguments Ok {A} a σ.
Arguments Throw {A} e σ.
Arguments Undef {A}.

Definition M (A : Type) : Type := store → outcome A.

Definition ret {A} (a : A) : M A := λ σ, Ok a σ.
Definition throw {A} (e : error) : M A := λ σ, Throw e σ.
Definition undef {A} : M A := λ _, Undef.
Definition bind {A B} (c : M A) (k : A → M B) : M B := λ σ,
  match c σ with
  | Ok a σ' => k a σ'
  | Throw e σ' => Throw e σ'
  | Undef => Undef
  end.

Notation "'let*' x := c 'in' k" := (bind c (λ x, k))
  (at level 10, x pattern, c at level 100, k at level 200).
Notation "c ;; k" := (bind c (λ _, k))
  (at level 100, k at level 200, right associativity).

(** [when b c]: an [if] without [else]. *)
Definition when (b : bool) (c : M unit) : M unit := if b then c else ret tt.

(** [assert(cond)] *)
Definition assert (b : bool) : M unit := if b then ret tt else undef.

(** *** Reading the store *)

(** The object a pointer refers to: none for [nullptr] and for an address
    that holds no live object. *)
Definition obj_at (σ : store) (p : ptr) : option obj :=
  if decide (p = nullptr) then None else heap σ !! p.

Definition val_at (σ : store) (p : ptr) : option T :=
  match obj_at σ p with Some (OVal v) => Some v | _ => None end.
Definition owner_at (σ : store) (p : ptr) : option ptr :=
  match obj_at σ p with Some (OOwner q) => Some q | _ => None end.
Definition slot_at (σ : store) (p : ptr) : option ptr :=
  match obj_at σ p with Some (OSlot q) => Some q | _ => None end.
Definition mutex_at (σ : store) (p : ptr) : option unit :=
  match obj_at σ p with Some OMutex => Some tt | _ => None end.
Definition set_at (σ : store) (p : ptr) : option (gset N) :=
  match obj_at σ p with Some (OSet s) => Some s | _ => None end.
Definition mutator_at (σ : store) (p : ptr) : option LifetimeMutator.t :=
  match obj_at σ p with Some (OMutator lm) => Some lm | _ => None end.
Definition lifetime_at (σ : store) (p : ptr) : option Lifetime :=
  match obj_at σ p with Some (OLifetime h) => Some h | _ => None end.

(** A read that has no defined behaviour when there is nothing to read. *)
Definition lift {A} (f : store → option A) : M A := λ σ,
  match f σ with Some a => Ok a σ | None => Undef end.

(** [*p] at each type. *)
Definition deref (p : ptr) : M obj := lift (λ σ, obj_at σ p).
Definition load_val (p : ptr) : M T := lift (λ σ, val_at σ p).
Definition load_owner (p : ptr) : M ptr := lift (λ σ, owner_at σ p).
Definition load_slot (p : ptr) : M ptr := lift (λ σ, slot_at σ p).
Definition load_set (p : ptr) : M (gset N) := lift (λ σ, set_at σ p).
Definition load_mutator (p : ptr) : M LifetimeMutator.t := lift (λ σ, mutator_at σ p).
Definition load_this (p : ptr) : M Lifetime := lift (λ σ, lifetime_at σ p).
(** A [std::scoped_lock] on the mutex at [p], held to the end of a
    single-threaded call. *)
Definition scoped_lock (p : ptr) : M unit := lift (λ σ, mutex_at σ p).

(** *** Writing the store *)

Definition upd (p : ptr) (o : obj) (σ : store) : store :=
  mkStore (<[p := o]> (heap σ)) (brk σ).
Definition push (o : obj) (σ : store) : store :=
  mkStore (<[N.succ (brk σ) := o]> (heap σ)) (N.succ (brk σ)).
Definition del (p : ptr) (σ : store) : store :=
  mkStore (delete p (heap σ)) (brk σ).

(** [*p = o]: the object at [p] must be live. *)
Definition assign (p : ptr) (o : obj) : M unit :=
  deref p ;; λ σ, Ok tt (upd p o σ).

(** [new X{o}] *)
Definition new (o : obj) : M ptr := λ σ, Ok (N.succ (brk σ)) (push o σ).

(** Storage of [p] is released; [delete nullptr] does nothing. *)
Definition free (p : ptr) : M unit :=
  if decide (p = nullptr) then ret tt
  else deref p ;; λ σ, Ok tt (del p σ).

Definition ptr_eqb (p q : ptr) : bool := N.eqb p q.

(** ** [LifetimeMutator] *)

(** Constructor, lines 222-227, on storage [this]. *)
Definition LifetimeMutator_ctor (this mutator mutator_access : ptr) : M unit :=
  assign this (OMutator (LifetimeMutator.mk mutator mutator_access)) ;;
  assign mutator_access (OSlot this).

(** [delete p] for a [LifetimeMutator*]: destructor (lines 229-233), then the
    storage is released. *)
Definition delete_LifetimeMutator (p : ptr) : M unit :=
  if decide (p = nullptr) then ret tt else
  let* lm := load_mutator p in
  assign p (OMutator (LifetimeMutator.mk nullptr (LifetimeMutator.m_mutatorAccess lm))) ;;
  assign (LifetimeMutator.m_mutatorAccess lm) (OSlot nullptr) ;;
  free p.

(** ** [Lifetime] *)

(** Constructor, lines 44-55.  The object under construction gets its
    storage first; its data members are written once they are all known. *)
Definition Lifetime_ctor (child ownership mutator mut set : ptr)
    (force_take_ownership force_take_mutability : bool) : M ptr :=
  let* this := new (OLifetime (mkLifetime nullptr nullptr nullptr nullptr nullptr)) in
  let* this_mutator :=
    (if ptr_eqb mutator nullptr then new (OSlot nullptr) else ret mutator) in
  when force_take_mutability (
    let* cur := load_slot this_mutator in
    when (ptr_eqb cur nullptr) (
      let* lm := new (OMutator (LifetimeMutator.mk nullptr nullptr)) in
      let* cur' := load_slot this_mutator in
      let* access := new (OSlot cur') in
      LifetimeMutator_ctor lm this access ;;
      assign this_mutator (OSlot lm))) ;;
  let* this_owner :=
    (if ptr_eqb ownership nullptr then new (OOwner this) else ret ownership) in
  when force_take_ownership (
    let* cur := load_owner this_owner in
    when (negb (ptr_eqb cur this)) (assign this_owner (OOwner this))) ;;
  let* this_mutex := (if ptr_eqb mut nullptr then new OMutex else ret mut) in
  let* this_refs := (if ptr_eqb set nullptr then new (OSet ∅) else ret set) in
  let* s := load_set this_refs in
  assign this_refs (OSet ({[this]} ∪ s)) ;;
  assign this (OLifetime (mkLifetime child this_owner this_mutex this_mutator this_refs)) ;;
  ret this.

(** [Lifetime::from], lines 105-108. *)
Definition from (value : T) : M ptr :=
  let* child := new (OVal value) in
  Lifetime_ctor child nullptr nullptr nullptr nullptr false false.

(** The test of lines 66, 118 and 134: the mutator cell holds a non-null
    [LifetimeMutator*] and the [m_mutator] of that record is [this]; the
    record is read only when the cell is non-null. *)
Definition holds_mutator (this : ptr) (h : Lifetime) : M bool :=
  let* cur := load_slot (m_mutator h) in
  if negb (ptr_eqb cur nullptr)
  then let* lm := load_mutator cur in
       ret (ptr_eqb (LifetimeMutator.m_mutator lm) this)
  else ret false.

(** Destructor body, lines 58-98. *)
Definition Lifetime_dtor (this : ptr) : M unit :=
  let* h := load_this this in
  assert (negb (ptr_eqb (m_T h) nullptr)) ;;
  assert (negb (ptr_eqb (m_owner h) nullptr)) ;;
  assert (negb (ptr_eqb (m_refs h) nullptr)) ;;
  assert (negb (ptr_eqb (m_mutator h) nullptr)) ;;
  (* Remove mutability *)
  let* mine := holds_mutator this h in
  when mine (let* cur := load_slot (m_mutator h) in delete_LifetimeMutator cur) ;;
  (* Remove *)
  let* s := load_set (m_refs h) in
  when (bool_decide (this ∈ s)) (assign (m_refs h) (OSet (s ∖ {[this]}))) ;;
  let* o := load_owner (m_owner h) in
  when (ptr_eqb this o) (
    let* s := load_set (m_refs h) in
    if (0 <? size s)%nat then throw OwnerDropped
    else assign (m_refs h) (OSet ∅)) ;;
  (* Delete *)
  let* s := load_set (m_refs h) in
  when (bool_decide (s = ∅)) (
    free (m_T h) ;; free (m_owner h) ;; free (m_refs h)) ;;
  (* Reset *)
  assign this (OLifetime (mkLifetime nullptr nullptr (m_mutex h) (m_mutator h) nullptr)).

(** End of the lifetime of the [Lifetime] object at [this]: the destructor
    runs and the object is gone, also when the destructor exits by its
    exception. *)
Definition destroy (this : ptr) : M unit := λ σ,
  match Lifetime_dtor this σ with
  | Ok _ σ' => free this σ'
  | Throw e σ' =>
      match free this σ' with
      | Ok _ σ'' => Throw e σ''
      | _ => Undef
      end
  | Undef => Undef
  end.

(** Several handles go out of scope, in the given order. *)
Fixpoint destroy_all (l : list ptr) : M unit :=
  match l with
  | [] => ret tt
  | this :: l' => destroy this ;; destroy_all l'
  end.

(** An object with automatic storage at [this], a local or a parameter
    passed by value, in scope during [body]: its destructor runs when the
    scope is left, by return or by exception.  A destructor that throws
    while an exception is in flight ends the program ([std::terminate]). *)
Definition scoped {A} (this : ptr) (body : M A) : M A := λ σ,
  match body σ with
  | Ok a σ' =>
      match destroy this σ' with
      | Ok _ σ'' => Ok a σ''
      | Throw e σ'' => Throw e σ''
      | Undef => Undef
      end
  | Throw e σ' =>
      match destroy this σ' with
      | Ok _ σ'' => Throw e σ''
      | _ => Undef
      end
  | Undef => Undef
  end.

(** [get_mutable], lines 111-124; the [T&] it returns is the address of the
    value. *)
Definition get_mutable (this : ptr) : M ptr :=
  let* h := load_this this in
  assert (negb (ptr_eqb (m_T h) nullptr)) ;;
  assert (negb (ptr_eqb (m_owner h) nullptr)) ;;
  assert (negb (ptr_eqb (m_mutator h) nullptr)) ;;
  assert (negb (ptr_eqb (m_mutex h) nullptr)) ;;
  let* mine := holds_mutator this h in
  (if mine then ret tt
   else let* o := load_owner (m_owner h) in
        if negb (ptr_eqb this o) then throw NotWritable else ret tt) ;;
  scoped_lock (m_mutex h) ;;
  load_val (m_T h) ;;
  ret (m_T h).

(** [set], lines 127-140. *)
Definition set (this : ptr) (value : T) : M unit :=
  let* h := load_this this in
  assert (negb (ptr_eqb (m_T h) nullptr)) ;;
  assert (negb (ptr_eqb (m_owner h) nullptr)) ;;
  assert (negb (ptr_eqb (m_mutator h) nullptr)) ;;
  assert (negb (ptr_eqb (m_mutex h) nullptr)) ;;
  let* mine := holds_mutator this h in
  (if mine then ret tt
   else let* o := load_owner (m_owner h) in
        if negb (ptr_eqb this o) then throw NotWritable else ret tt) ;;
  scoped_lock (m_mutex h) ;;
  assign (m_T h) (OVal value).

(** [get], lines 143-146. *)
Definition get (this : ptr) : M T :=
  let* h := load_this this in
  load_val (m_T h).

(** [borrow], lines 149-152. *)
Definition borrow (this : ptr) : M ptr :=
  let* h := load_this this in
  Lifetime_ctor (m_T h) (m_owner h) (m_mutator h) (m_mutex h) (m_refs h) false false.

(** [borrow_mutable], lines 155-162. *)
Definition borrow_mutable (this : ptr) : M ptr :=
  let* h := load_this this in
  assert (negb (ptr_eqb (m_mutator h) nullptr)) ;;
  let* cur := load_slot (m_mutator h) in
  if negb (ptr_eqb cur nullptr) then throw AlreadyMutableBorrowed
  else Lifetime_ctor (m_T h) (m_owner h) (m_mutator h) (m_mutex h) (m_refs h) false true.

(** [clone], lines 165-169. *)
Definition clone (this : ptr) : M ptr :=
  let* h := load_this this in
  let* _T := load_val (m_T h) in
  from _T.

(** [is_mutator], lines 172-175: the first conjunct tests the address of the
    mutator cell, [this->m_mutator], not what the cell holds. *)
Definition is_mutator (this : ptr) : M bool :=
  let* h := load_this this in
  if negb (ptr_eqb (m_mutator h) nullptr)
  then let* cur := load_slot (m_mutator h) in
       let* lm := load_mutator cur in
       ret (ptr_eqb (LifetimeMutator.m_mutator lm) this)
  else ret false.

(** [is_owner], lines 178-181. *)
Definition is_owner (this : ptr) : M bool :=
  let* h := load_this this in
  let* o := load_owner (m_owner h) in
  ret (ptr_eqb this o).

(** A [bool] assigned to a pointer member (lines 201-202), as a C cast
    would convert it. *)
Definition ptr_of_bool (b : bool) : ptr := if b then 1 else 0.

(** [move(Lifetime&)], lines 184-204, statement by statement.  The header
    never instantiates this member and a compiler rejects it when it does;
    it is read here with addresses compared as numbers.  Line 190 compares
    [this] with the address of the owner cell ([this->m_owner], without the
    [*] of line 214); line 194 is read with [->] for [.]; the test of line
    198 is read as the one of line 66; lines 201-202 overwrite the data
    member [m_owner] of the two objects. *)
Definition move_to (this lifetime : ptr) : M unit :=
  let* h := load_this this in
  assert (negb (ptr_eqb (m_owner h) nullptr)) ;;
  assert (negb (ptr_eqb (m_refs h) nullptr)) ;;
  assert (negb (ptr_eqb (m_mutator h) nullptr)) ;;
  if negb (ptr_eqb this (m_owner h)) then throw NotOwner else
  if ptr_eqb this lifetime then throw SameHandle else
  let* s := load_set (m_refs h) in
  if bool_decide (lifetime ∈ s) then
    (* Remove mutability *)
    let* mine := holds_mutator this h in
    when mine (let* cur := load_slot (m_mutator h) in delete_LifetimeMutator cur) ;;
    (* Transfer ownership *)
    assign this (OLifetime (mkLifetime (m_T h) (ptr_of_bool false) (m_mutex h)
                                       (m_mutator h) (m_refs h))) ;;
    let* h' := load_this lifetime in
    assign lifetime (OLifetime (mkLifetime (m_T h') (ptr_of_bool true) (m_mutex h')
                                           (m_mutator h') (m_refs h')))
  else throw ForeignGroup.

(** [move()], lines 207-216. *)
Definition move (this : ptr) : M ptr :=
  let* h := load_this this in
  assert (negb (ptr_eqb (m_T h) nullptr)) ;;
  assert (negb (ptr_eqb (m_owner h) nullptr)) ;;
  assert (negb (ptr_eqb (m_refs h) nullptr)) ;;
  assert (negb (ptr_eqb (m_mutator h) nullptr)) ;;
  let* o := load_owner (m_owner h) in
  if negb (ptr_eqb this o) then throw NotOwner
  else Lifetime_ctor (m_T h) (m_owner h) (m_mutator h) (m_mutex h) (m_refs h) true false.

(** ** The share group a handle sees *)

(** The group state of the specification, read off the cells a handle
    points to. *)
Record group := mkGroup {
  value : T;
  owner : ptr;
  mutator : option ptr;   (* [None]: the mutator cell holds [nullptr] *)
  members : gset N
}.

(** The handle recorded in the mutator cell: defined when the cell is null
    or refers to a live [LifetimeMutator] whose access cell is live. *)
Definition mutator_view (σ : store) (cur : ptr) : option (option ptr) :=
  if decide (cur = nullptr) then Some None
  else lm ← mutator_at σ cur;
       _ ← slot_at σ (LifetimeMutator.m_mutatorAccess lm);
       Some (Some (LifetimeMutator.m_mutator lm)).

(** Defined when [this] is a live handle and none of its pointers dangles. *)
Definition view (σ : store) (this : ptr) : option group :=
  h ← lifetime_at σ this;
  v ← val_at σ (m_T h);
  o ← owner_at σ (m_owner h);
  cur ← slot_at σ (m_mutator h);
  _ ← mutex_at σ (m_mutex h);
  s ← set_at σ (m_refs h);
  mu ← mutator_view σ cur;
  Some (mkGroup v o mu s).

(** What the mutator cell of the handle's group holds. *)
Definition slot (σ : store) (this : ptr) : option ptr :=
  h ← lifetime_at σ this; slot_at σ (m_mutator h).

(** Owner or current mutator. *)
Definition writable (g : group) (this : ptr) : Prop :=
  owner g = this ∨ mutator g = Some this.

Definition is_ok {A} (r : outcome A) : Prop :=
  match r with Ok _ _ => True | _ => False end.

(** Every live object was handed out by [new]. *)
Definition wf_store (σ : store) : Prop :=
  map_Forall (λ p _, p ≤ brk σ) (heap σ).

(** ** Stores and predicates the properties are stated with *)

(** [view σ this = Some g], cell by cell: [h] are the data members of the
    handle and [cur] is what its mutator cell holds. *)
Record cells (σ : store) (this : ptr) (h : Lifetime) (cur : ptr) (g : group) :
    Prop := mkCells {
  c_this : obj_at σ this = Some (OLifetime h);
  c_val : obj_at σ (m_T h) = Some (OVal (value g));
  c_owner : obj_at σ (m_owner h) = Some (OOwner (owner g));
  c_cell : obj_at σ (m_mutator h) = Some (OSlot cur);
  c_mutex : obj_at σ (m_mutex h) = Some OMutex;
  c_refs : obj_at σ (m_refs h) = Some (OSet (members g));
  c_mutator : mutator_view σ cur = Some (mutator g)
}.

Definition null_Lifetime : Lifetime :=
  mkLifetime nullptr nullptr nullptr nullptr nullptr.

(** The record of the handle [from] builds when [b] was the last address
    handed out: value, handle, mutator cell, owner cell, mutex, set. *)
Definition from_Lifetime (b : ptr) : Lifetime :=
  mkLifetime (N.succ b) (N.succ (N.succ (N.succ (N.succ b))))
    (N.succ (N.succ (N.succ (N.succ (N.succ b)))))
    (N.succ (N.succ (N.succ b)))
    (N.succ (N.succ (N.succ (N.succ (N.succ (N.succ b)))))).

(** [c] never exits by an exception. *)
Definition no_throw {A} (c : M A) : Prop := ∀ σ e σ', c σ ≠ Throw e σ'.

(** [c] only reads the store. *)
Definition readonly {A} (c : M A) : Prop :=
  ∀ σ, match c σ with
       | Ok _ σ' | Throw _ σ' => σ' = σ
       | Undef => True
       end.

(** An exception out of [c] leaves the store as [c] found it. *)
Definition fails_clean {A} (c : M A) : Prop :=
  ∀ σ e σ', c σ = Throw e σ' → σ' = σ.

(** The store after a successful [borrow_mutable]: the new handle at [nw],
    its [LifetimeMutator] at [lm] and the private access cell at [acc]. *)
Definition borrow_mutable_store (σ : store) (h : Lifetime) (s : gset N) : store :=
  let nw := N.succ (brk σ) in
  let lm := N.succ nw in
  let acc := N.succ lm in
  upd nw (OLifetime h)
    (upd (m_refs h) (OSet ({[nw]} ∪ s))
       (upd (m_mutator h) (OSlot lm)
          (upd acc (OSlot lm)
             (upd lm (OMutator (LifetimeMutator.mk nw acc))
                (push (OSlot nullptr)
                   (push (OMutator (LifetimeMutator.mk nullptr nullptr))
                      (push (OLifetime null_Lifetime) σ))))))).

Definition from_store (σ : store) (v : T) : store :=
  let h := from_Lifetime (brk σ) in
  let this := N.succ (N.succ (brk σ)) in
  upd this (OLifetime h)
    (upd (m_refs h) (OSet {[this]})
       (push (OSet ∅)
          (push OMutex
             (push (OOwner this)
                (push (OSlot nullptr)
                   (push (OLifetime null_Lifetime)
                      (push (OVal v) σ))))))).

(** The destructor after its "Remove mutability" step. *)
Definition dtor_rest (this : ptr) (h : Lifetime) : M unit :=
  let* s := load_set (m_refs h) in
  when (bool_decide (this ∈ s)) (assign (m_refs h) (OSet (s ∖ {[this]}))) ;;
  let* ow := load_owner (m_owner h) in
  when (ptr_eqb this ow) (
    let* s := load_set (m_refs h) in
    if (0 <? size s)%nat then throw OwnerDropped
    else assign (m_refs h) (OSet ∅)) ;;
  let* s := load_set (m_refs h) in
  when (bool_decide (s = ∅)) (
    free (m_T h) ;; free (m_owner h) ;; free (m_refs h)) ;;
  assign this (OLifetime (mkLifetime nullptr nullptr (m_mutex h) (m_mutator h) nullptr)).

(** The data members of a handle whose destructor has run. *)
Definition reset_Lifetime (h : Lifetime) : Lifetime :=
  mkLifetime nullptr nullptr (m_mutex h) (m_mutator h) nullptr.

(** The handle leaves the set. *)
Definition erase_store (σ : store) (h : Lifetime) (s : gset N) (this : ptr) : store :=
  if bool_decide (this ∈ s) then upd (m_refs h) (OSet (s ∖ {[this]})) σ else σ.

(** Value, owner cell and set are released. *)
Definition teardown_store (σ : store) (h : Lifetime) : store :=
  del (m_refs h) (del (m_owner h) (del (m_T h) σ)).

(** What the rest of the destructor needs of the store it starts from. *)
Record dtor_pre (σ : store) (this : ptr) (h : Lifetime) (v : T) (ow : ptr)
    (s : gset N) : Prop := mkDtorPre {
  d_this : obj_at σ this = Some (OLifetime h);
  d_val : obj_at σ (m_T h) = Some (OVal v);
  d_owner : obj_at σ (m_owner h) = Some (OOwner ow);
  d_refs : obj_at σ (m_refs h) = Some (OSet s)
}.

(** [delete] of the [LifetimeMutator] at [cur]: its destructor clears its own
    [m_mutator] and the cell [m_mutatorAccess] points to. *)
Definition release_store (σ : store) (cur acc : ptr) : store :=
  del cur (upd acc (OSlot nullptr)
             (upd cur (OMutator (LifetimeMutator.mk nullptr acc)) σ)).

(** The store after the "Remove mutability" step of the destructor. *)
Definition unmutate_store (σ : store) (this cur : ptr) : store :=
  match mutator_at σ cur with
  | Some lm =>
      if bool_decide (LifetimeMutator.m_mutator lm = this)
      then release_store σ cur (LifetimeMutator.m_mutatorAccess lm)
      else σ
  | None => σ
  end.

(** A group whose mutator cell is null and whose members are live handles on
    the same cells. *)
Record plain_group (σ : store) (h : Lifetime) (v : T) (ow : ptr)
    (s : gset N) : Prop := mkPlainGroup {
  pg_val : obj_at σ (m_T h) = Some (OVal v);
  pg_owner : obj_at σ (m_owner h) = Some (OOwner ow);
  pg_cell : obj_at σ (m_mutator h) = Some (OSlot nullptr);
  pg_mutex : obj_at σ (m_mutex h) = Some OMutex;
  pg_refs : obj_at σ (m_refs h) = Some (OSet s);
  pg_members : ∀ x, x ∈ s → obj_at σ x = Some (OLifetime h)
}.

(** The store after [borrow]. *)
Definition borrow_store (σ : store) (h : Lifetime) (s : gset N) : store :=
  let nw := N.succ (brk σ) in
  upd nw (OLifetime h)
    (upd (m_refs h) (OSet ({[nw]} ∪ s))
       (push (OLifetime null_Lifetime) σ)).

(** The store after a successful [move()]. *)
Definition move_store (σ : store) (h : Lifetime) (s : gset N) : store :=
  let nw := N.succ (brk σ) in
  upd nw (OLifetime h)
    (upd (m_refs h) (OSet ({[nw]} ∪ s))
       (upd (m_owner h) (OOwner nw)
          (push (OLifetime null_Lifetime) σ))).

(** [c] exits by no exception but [e]. *)
Definition throws_only {A} (e : error) (c : M A) : Prop :=
  ∀ σ e' σ', c σ = Throw e' σ' → e' = e.

(** ** The invariant of the stores a program reaches *)

(** Two handles have a cell in common. *)
Definition shares (h1 h2 : Lifetime) : Prop :=
  m_T h1 = m_T h2 ∨ m_owner h1 = m_owner h2 ∨
  m_mutator h1 = m_mutator h2 ∨ m_refs h1 = m_refs h2.

(** The group on the cells of [h] is in order: its cells are live and hold
    [g], the members are live handles on these cells, the owner is one of
    them and so is the mutator, if any, which is not the owner. *)
Record group_ok (σ : store) (h : Lifetime) (cur : ptr) (g : group) : Prop :=
  mkGroupOk {
  go_val : obj_at σ (m_T h) = Some (OVal (value g));
  go_owner : obj_at σ (m_owner h) = Some (OOwner (owner g));
  go_cell : obj_at σ (m_mutator h) = Some (OSlot cur);
  go_mutex : obj_at σ (m_mutex h) = Some OMutex;
  go_refs : obj_at σ (m_refs h) = Some (OSet (members g));
  go_mutator : mutator_view σ cur = Some (mutator g);
  go_owner_in : owner g ∈ members g;
  go_members : ∀ x, x ∈ members g → obj_at σ x = Some (OLifetime h);
  go_mutator_in : ∀ m, mutator g = Some m → m ∈ members g ∧ m ≠ owner g
}.

Record inv (σ : store) : Prop := mkInv {
  inv_wf : wf_store σ;
  inv_handles : ∀ this h, obj_at σ this = Some (OLifetime h) →
    ∃ cur g, group_ok σ h cur g ∧ this ∈ members g;
  inv_apart : ∀ x hx y hy,
    obj_at σ x = Some (OLifetime hx) → obj_at σ y = Some (OLifetime hy) →
    shares hx hy → hx = hy
}.

(** What a call on the group of [h] leaves alone: the objects that are not
    cells of [h] nor handles on them. *)
Record frame (σ σ' : store) (h : Lifetime) : Prop := mkFrame {
  fr_val : ∀ q v, obj_at σ q = Some (OVal v) → q ≠ m_T h →
    obj_at σ' q = Some (OVal v);
  fr_owner : ∀ q y, obj_at σ q = Some (OOwner y) → q ≠ m_owner h →
    obj_at σ' q = Some (OOwner y);
  fr_slot : ∀ q y, obj_at σ q = Some (OSlot y) → q ≠ m_mutator h →
    obj_at σ' q = Some (OSlot y);
  fr_slot_kind : ∀ q y, obj_at σ q = Some (OSlot y) →
    ∃ y', obj_at σ' q = Some (OSlot y');
  fr_set : ∀ q s, obj_at σ q = Some (OSet s) → q ≠ m_refs h →
    obj_at σ' q = Some (OSet s);
  fr_mutex : ∀ q, obj_at σ q = Some OMutex → obj_at σ' q = Some OMutex;
  fr_mutator : ∀ q lm, obj_at σ q = Some (OMutator lm) →
    obj_at σ' q = Some (OMutator lm);
  fr_handle : ∀ q hq, obj_at σ q = Some (OLifetime hq) → hq ≠ h →
    obj_at σ' q = Some (OLifetime hq);
  fr_old : ∀ x hx, obj_at σ' x = Some (OLifetime hx) →
    hx = h ∨ obj_at σ x = Some (OLifetime hx)
}.

(** ** Programs: calls one after the other *)

Inductive call :=
| Cfrom (value : T)
| Cclone (this : ptr)
| Cget (this : ptr)
| Cset (this : ptr) (value : T)
| Cget_mutable (this : ptr)
| Cborrow (this : ptr)
| Cborrow_mutable (this : ptr)
| Cis_owner (this : ptr)
| Cis_mutator (this : ptr)
| Cmove (this : ptr)
| Cmove_to (this lifetime : ptr)
| Cdestroy (this : ptr).

Definition perform (c : call) : M unit :=
  match c with
  | Cfrom v => from v ;; ret tt
  | Cclone this => clone this ;; ret tt
  | Cget this => get this ;; ret tt
  | Cset this v => set this v
  | Cget_mutable this => get_mutable this ;; ret tt
  | Cborrow this => borrow this ;; ret tt
  | Cborrow_mutable this => borrow_mutable this ;; ret tt
  | Cis_owner this => is_owner this ;; ret tt
  | Cis_mutator this => is_mutator this ;; ret tt
  | Cmove this => move this ;; ret tt
  | Cmove_to this lifetime => move_to this lifetime
  | Cdestroy this => destroy this
  end.

(** The store a call leaves, by return or by exception, caught or not;
    none when the call has no defined behaviour. *)
Definition after (c : call) (σ : store) : option store :=
  match perform c σ with
  | Ok _ σ' | Throw _ σ' => Some σ'
  | Undef => None
  end.

Fixpoint run (cs : list call) (σ : store) : option store :=
  match cs with
  | [] => Some σ
  | c :: cs' => σ' ← after c σ; run cs' σ'
  end.

(** Every call but two kinds of destruction: of the handle that holds the
    mutator slot, and of the owner while other members remain. *)
Definition quiet (σ : store) (c : call) : bool :=
  match c with
  | Cdestroy this =>
      match view σ this with
      | Some g =>
          negb (bool_decide (mutator g = Some this)) &&
          (negb (bool_decide (owner g = this)) ||
           bool_decide (members g ∖ {[this]} = ∅))
      | None => false
      end
  | _ => true
  end.

Fixpoint run_quiet (cs : list call) (σ : store) : option store :=
  match cs with
  | [] => Some σ
  | c :: cs' => if quiet σ c then σ' ← after c σ; run_quiet cs' σ' else None
  end.

(** ** What every run keeps *)

(** The handle whose destructor throws in this call, if any. *)
Definition thrown (c : call) (σ : store) : gset N :=
  match c, perform c σ with
  | Cdestroy this, Throw _ _ => {[this]}
  | _, _ => ∅
  end.

(** The handles whose destructor threw in the run: the owners that went
    while other members remained. *)
Fixpoint dropped (cs : list call) (σ : store) : gset N :=
  match cs with
  | [] => ∅
  | c :: cs' =>
      thrown c σ ∪
      match after c σ with Some σ' => dropped cs' σ' | None => ∅ end
  end.

(** Owner and member set of the group of a handle, whatever its mutator
    cell holds. *)
Definition roster (σ : store) (this : ptr) : option (ptr * gset N) :=
  h ← lifetime_at σ this;
  ow ← owner_at σ (m_owner h);
  s ← set_at σ (m_refs h);
  Some (ow, s).

(** What the mutator cell holds: nothing live (null, or the address of a
    deleted record), or a live [LifetimeMutator] on a live access cell,
    recorded for a handle that satisfies [P]. *)
Definition cell_kept (σ : store) (cur : ptr) (P : ptr → Prop) : Prop :=
  (cur ≤ brk σ ∧ obj_at σ cur = None) ∨
  ∃ m acc q,
    obj_at σ cur = Some (OMutator (LifetimeMutator.mk m acc)) ∧
    obj_at σ acc = Some (OSlot q) ∧ P m.

(** The group on the cells of [h], with the handles in [D] gone: the
    members are the live handles on these cells, the owner is one of them
    or is in [D], and the mutator, while its record lives, is a member and
    not the owner. *)
Record group_kept (D : gset N) (σ : store) (h : Lifetime) (v : T)
    (ow cur : ptr) (s : gset N) : Prop := mkGroupKept {
  gk_val : obj_at σ (m_T h) = Some (OVal v);
  gk_owner : obj_at σ (m_owner h) = Some (OOwner ow);
  gk_cell : obj_at σ (m_mutator h) = Some (OSlot cur);
  gk_mutex : obj_at σ (m_mutex h) = Some OMutex;
  gk_refs : obj_at σ (m_refs h) = Some (OSet s);
  gk_owner_in : ow ∈ s ∨ ow ∈ D;
  gk_members : ∀ x, x ∈ s → obj_at σ x = Some (OLifetime h);
  gk_mutator : cell_kept σ cur (λ m, m ∈ s ∧ m ≠ ow)
}.

Record kept (D : gset N) (σ : store) : Prop := mkKept {
  k_wf : wf_store σ;
  k_handles : ∀ this h, obj_at σ this = Some (OLifetime h) →
    ∃ v ow cur s, group_kept D σ h v ow cur s ∧ this ∈ s;
  k_apart : ∀ x hx y hy,
    obj_at σ x = Some (OLifetime hx) → obj_at σ y = Some (OLifetime hy) →
    shares hx hy → hx = hy;
  k_dropped : ∀ d, d ∈ D → obj_at σ d = None ∧ d ≤ brk σ
}.

(** What a call on the group of [h] leaves of the rest of the store, the
    release of a mutable borrow included: it may delete a
    [LifetimeMutator] and clear its access cell. *)
Record wframe (σ σ' : store) (h : Lifetime) : Prop := mkWframe {
  w_val : ∀ q v, obj_at σ q = Some (OVal v) → q ≠ m_T h →
    obj_at σ' q = Some (OVal v);
  w_owner : ∀ q y, obj_at σ q = Some (OOwner y) → q ≠ m_owner h →
    obj_at σ' q = Some (OOwner y);
  w_slot : ∀ q y, obj_at σ q = Some (OSlot y) → q ≠ m_mutator h →
    obj_at σ' q = Some (OSlot y) ∨ obj_at σ' q = Some (OSlot nullptr);
  w_slot_kind : ∀ q y, obj_at σ q = Some (OSlot y) →
    ∃ y', obj_at σ' q = Some (OSlot y');
  w_set : ∀ q s, obj_at σ q = Some (OSet s) → q ≠ m_refs h →
    obj_at σ' q = Some (OSet s);
  w_mutex : ∀ q, obj_at σ q = Some OMutex → obj_at σ' q = Some OMutex;
  w_record : ∀ q lm, obj_at σ q = Some (OMutator lm) →
    obj_at σ' q = Some (OMutator lm) ∨ obj_at σ' q = None;
  w_handle : ∀ q hq, obj_at σ q = Some (OLifetime hq) → hq ≠ h →
    obj_at σ' q = Some (OLifetime hq);
  w_old : ∀ x hx, obj_at σ' x = Some (OLifetime hx) →
    hx = h ∨ obj_at σ x = Some (OLifetime hx);
  w_dead : ∀ q, q ≤ brk σ → obj_at σ q = None → obj_at σ' q = None;
  w_brk : brk σ ≤ brk σ'
}.

(** The handle a call is made on; [from] is a static member. *)
Definition target (c : call) : option ptr :=
  match c with
  | Cfrom _ => None
  | Cclone this | Cget this | Cset this _ | Cget_mutable this | Cborrow this
  | Cborrow_mutable this | Cis_owner this | Cis_mutator this | Cmove this
  | Cmove_to this _ | Cdestroy this => Some this
  end.

End WithT.

Arguments obj : clear implicits.
Arguments store : clear implicits.
Arguments outcome : clear implicits.
Arguments Ok {T A} a σ.
Arguments Throw {T A} e σ.
Arguments Undef {T A}.
Arguments M : clear implicits.
Arguments group : clear implicits.
Arguments call : clear implicits.

Notation "'let*' x := c 'in' k" := (bind c (λ x, k))
  (at level 10, x pattern, c at level 100, k at level 200).
Notation "c ;; k" := (bind c (λ _, k))
  (at level 100, k at level 200, right associativity).

(** ** The example program, [example.cpp] *)

(** [int] has 32 bits; an overflow of [+] has no defined behaviour. *)
Definition INT_MIN : Z := (-2147483648)%Z.
Definition INT_MAX : Z := 2147483647%Z.
Definition int_add (x y : Z) : M Z Z :=
  if decide (INT_MIN ≤ x + y ≤ INT_MAX)%Z then ret (x + y)%Z else undef.

(** [add], lines 8-11.  What goes to [std::cout] is the result: the [int]s
    printed, in order, without the text around them. *)
Definition add (b : ptr) : M Z (list Z) :=
  let* x := get b in
  let* y := int_add x 5 in
  set b y ;;
  let* z := get b in
  ret [z].

(** [add(arg)]: the parameter [b] is the object [arg] builds (the class has
    no copy constructor, line 101) and goes out of scope when [add]
    returns. *)
Definition call_add (arg : M Z ptr) : M Z (list Z) :=
  let* b := arg in
  scoped b (add b).

(** [main], lines 13-28: the [int]s printed and the exit status. *)
Definition main : M Z (list Z * Z) :=
  let* a := from 15%Z in
  scoped a (
    let* out := call_add (clone a) in
    let* o := is_owner a in
    when o (set a 15%Z) ;;
    let* v := get a in
    ret (out ++ [v], 0%Z)).

(** ** Scenarios on [Lifetime<int>] *)

Definition state_of {A} (r : outcome Z A) : store Z :=
  match r with
  | Ok _ σ | Throw _ σ => σ
  | Undef => empty_store
  end.

(** [a = from(15)]: the handle [a] is at address 2. *)
Definition s_from : store Z := state_of (from 15%Z empty_store).
(** [b = a.borrow()]: [b] is at address 7. *)
Definition s_borrow : store Z := state_of (borrow 2 s_from).
(** [m = a.borrow_mutable()]: [m] is at address 7. *)
Definition s_mutable : store Z := state_of (borrow_mutable 2 s_from).
(** [m] goes out of scope: the mutable borrow ends. *)
Definition s_released : store Z := state_of (destroy 7 s_mutable).
(** [a] goes out of scope before [b]. *)
Definition s_dropped : store Z := state_of (destroy 2 s_borrow).
(** A program with a refused write and a mutable borrow. *)
Definition quiet_calls : list (call Z) :=
  [Cfrom 15%Z; Cborrow 2; Cset 7 1%Z; Cborrow_mutable 2].
Definition s_quiet : store Z := default empty_store (run_quiet quiet_calls empty_store).

(** The groups these handles see. *)
Definition g_dropped : group Z := mkGroup 15%Z 2 None {[7]}.
Definition g_from : group Z := mkGroup 15%Z 2 None {[2]}.
Definition g_borrow : group Z := mkGroup 15%Z 2 None {[2; 7]}.
Definition g_mutable : group Z := mkGroup 15%Z 2 (Some 7) {[2; 7]}.
Definition g_preclaimed : group Z := mkGroup 1%Z 2 (Some 2) {[2]}.
(** The data members of [a] (and of [b], and of [m]). *)
Definition h_from : Lifetime := mkLifetime 1 4 5 3 6.

(** What the handles of [s_quiet] see: [a] at 2, [b] at 7, [m] at 8. *)
Definition g_quiet : group Z := mkGroup 15%Z 2 (Some 8) {[2; 7; 8]}.

(** [a = from(15); c = a.clone()]: [a] at 2 and [c] at 8, two groups. *)
Definition two_groups : list (call Z) := [Cfrom 15%Z; Cclone 2].
Definition s_two : store Z := default empty_store (run_quiet two_groups empty_store).
Definition s_two_set : store Z := state_of (set 2 20%Z s_two).

(** A value of type [int] at address 1, and nothing else. *)
Definition s_value : store Z := state_of (new (OVal 1%Z) empty_store).

(** A handle built by the public constructor with [force_take_mutability]
    on fresh cells: owner and mutator at once, at address 2. *)
Definition s_preclaimed : store Z :=
  state_of ((let* child := new (OVal 1%Z) in
             Lifetime_ctor child nullptr nullptr nullptr nullptr false true)
            empty_store).


Arguments obj_at : simpl never.
Arguments val_at : simpl never.
Arguments owner_at : simpl never.
Arguments slot_at : simpl never.
Arguments mutex_at : simpl never.
Arguments set_at : simpl never.
Arguments mutator_at : simpl never.
Arguments lifetime_at : simpl never.
Arguments upd : simpl never.
Arguments push : simpl never.
Arguments del : simpl never.

(** * Properties *)

#[local] Set Warnings "-clear-no-such-hyp".

Section Theory.
Context {T : Type}.
Implicit Types (σ : store T) (p q this : ptr) (o : obj T) (h : Lifetime)
  (g : group T) (s : gset N).

Local Abbreviation no_throw := (@no_throw T _).
Local Abbreviation readonly := (@readonly T _).
Local Abbreviation fails_clean := (@fails_clean T _).

(** ** Reading after writing *)

Lemma obj_at_null σ : obj_at σ nullptr = None.
Proof. reflexivity. Qed.

Lemma obj_at_nonnull σ p o : obj_at σ p = Some o → p ≠ nullptr.
Proof. unfold obj_at. by case_decide. Qed.

Lemma obj_at_upd_eq σ p o : p ≠ nullptr → obj_at (upd p o σ) p = Some o.
Proof.
  intros Hp. unfold obj_at, upd; simpl.
  rewrite decide_False by done. apply lookup_insert_eq.
Qed.

Lemma obj_at_upd_ne σ p q o : p ≠ q → obj_at (upd p o σ) q = obj_at σ q.
Proof.
  intros Hp. unfold obj_at, upd; simpl.
  case_decide; [done|]. by apply lookup_insert_ne.
Qed.

Lemma obj_at_push_eq σ o : obj_at (push o σ) (N.succ (brk σ)) = Some o.
Proof.
  unfold obj_at, push; simpl.
  rewrite decide_False by (unfold nullptr; lia). apply lookup_insert_eq.
Qed.

Lemma obj_at_push_ne σ q o :
  q ≠ N.succ (brk σ) → obj_at (push o σ) q = obj_at σ q.
Proof.
  intros Hp. unfold obj_at, push; simpl.
  case_decide; [done|]. by apply lookup_insert_ne.
Qed.

Lemma obj_at_del_eq σ p : obj_at (del p σ) p = None.
Proof.
  unfold obj_at, del; simpl. case_decide; [done|]. apply lookup_delete_eq.
Qed.

Lemma obj_at_del_ne σ p q : p ≠ q → obj_at (del p σ) q = obj_at σ q.
Proof.
  intros Hp. unfold obj_at, del; simpl.
  case_decide; [done|]. by apply lookup_delete_ne.
Qed.

Lemma brk_upd σ p o : brk (upd p o σ) = brk σ.
Proof. reflexivity. Qed.
Lemma brk_push σ o : brk (push o σ) = N.succ (brk σ).
Proof. reflexivity. Qed.
Lemma brk_del σ p : brk (del p σ) = brk σ.
Proof. reflexivity. Qed.

Lemma wf_store_alt σ : wf_store σ ↔ ∀ p o, obj_at σ p = Some o → p ≤ brk σ.
Proof.
  unfold wf_store, obj_at. split.
  - intros H p o. case_decide; [done|]. apply H.
  - intros H p o Hp. destruct (decide (p = nullptr)) as [->|Hn].
    + unfold nullptr. lia.
    + apply (H p o). by rewrite decide_False.
Qed.

Lemma wf_bound σ p o : wf_store σ → obj_at σ p = Some o → p ≤ brk σ.
Proof. intros Hwf. by apply wf_store_alt. Qed.

(** A live object is not at the next address [new] hands out. *)
Lemma wf_fresh_None σ : wf_store σ → obj_at σ (N.succ (brk σ)) = None.
Proof.
  intros Hwf. destruct (obj_at σ (N.succ (brk σ))) eqn:E; [|done].
  apply (wf_bound _ _ _ Hwf) in E. lia.
Qed.

Lemma wf_upd σ p o : wf_store σ → is_Some (obj_at σ p) → wf_store (upd p o σ).
Proof.
  rewrite !wf_store_alt. intros Hwf [o' Hp] q oq. rewrite brk_upd.
  destruct (decide (p = q)) as [<-|Hne]; [by eauto|].
  rewrite obj_at_upd_ne by done. apply Hwf.
Qed.

Lemma wf_push σ o : wf_store σ → wf_store (push o σ).
Proof.
  rewrite !wf_store_alt. intros Hwf q oq. rewrite brk_push.
  destruct (decide (q = N.succ (brk σ))) as [->|Hne]; [lia|].
  rewrite obj_at_push_ne by done. intros Hq%Hwf. lia.
Qed.

Lemma wf_del σ p : wf_store σ → wf_store (del p σ).
Proof.
  rewrite !wf_store_alt. intros Hwf q oq. rewrite brk_del.
  destruct (decide (p = q)) as [<-|Hne]; [by rewrite obj_at_del_eq|].
  rewrite obj_at_del_ne by done. apply Hwf.
Qed.

Lemma wf_empty : wf_store (@empty_store T).
Proof. apply map_Forall_empty. Qed.

(** ** Typed reads as facts about [obj_at] *)

Lemma val_at_Some σ p v : val_at σ p = Some v ↔ obj_at σ p = Some (OVal v).
Proof. unfold val_at. destruct (obj_at σ p) as [[]|]; naive_solver. Qed.
Lemma owner_at_Some σ p q : owner_at σ p = Some q ↔ obj_at σ p = Some (OOwner q).
Proof. unfold owner_at. destruct (obj_at σ p) as [[]|]; naive_solver. Qed.
Lemma slot_at_Some σ p q : slot_at σ p = Some q ↔ obj_at σ p = Some (OSlot q).
Proof. unfold slot_at. destruct (obj_at σ p) as [[]|]; naive_solver. Qed.
Lemma mutex_at_Some σ p u : mutex_at σ p = Some u ↔ obj_at σ p = Some OMutex.
Proof. unfold mutex_at. destruct u, (obj_at σ p) as [[]|]; naive_solver. Qed.
Lemma set_at_Some σ p s : set_at σ p = Some s ↔ obj_at σ p = Some (OSet s).
Proof. unfold set_at. destruct (obj_at σ p) as [[]|]; naive_solver. Qed.
Lemma mutator_at_Some σ p lm :
  mutator_at σ p = Some lm ↔ obj_at σ p = Some (OMutator lm).
Proof. unfold mutator_at. destruct (obj_at σ p) as [[]|]; naive_solver. Qed.
Lemma lifetime_at_Some σ p h :
  lifetime_at σ p = Some h ↔ obj_at σ p = Some (OLifetime h).
Proof. unfold lifetime_at. destruct (obj_at σ p) as [[]|]; naive_solver. Qed.

(** ** Running a call *)

Lemma bind_ret {A B} (a : A) (k : A → M T B) σ : bind (ret a) k σ = k a σ.
Proof. reflexivity. Qed.

Lemma bind_lift {A B} (f : store T → option A) (k : A → M T B) σ a :
  f σ = Some a → bind (lift f) k σ = k a σ.
Proof. intros H. unfold bind, lift. by rewrite H. Qed.

Lemma bind_lift_None {A B} (f : store T → option A) (k : A → M T B) σ :
  f σ = None → bind (lift f) k σ = Undef.
Proof. intros H. unfold bind, lift. by rewrite H. Qed.

Lemma bind_load_this {B} this (k : Lifetime → M T B) σ h :
  obj_at σ this = Some (OLifetime h) → bind (load_this this) k σ = k h σ.
Proof. intros H%lifetime_at_Some. by apply (bind_lift (λ σ, lifetime_at σ this)). Qed.
Lemma bind_load_val {B} p (k : T → M T B) σ v :
  obj_at σ p = Some (OVal v) → bind (load_val p) k σ = k v σ.
Proof. intros H%val_at_Some. by apply (bind_lift (λ σ, val_at σ p)). Qed.
Lemma bind_load_owner {B} p (k : ptr → M T B) σ q :
  obj_at σ p = Some (OOwner q) → bind (load_owner p) k σ = k q σ.
Proof. intros H%owner_at_Some. by apply (bind_lift (λ σ, owner_at σ p)). Qed.
Lemma bind_load_slot {B} p (k : ptr → M T B) σ q :
  obj_at σ p = Some (OSlot q) → bind (load_slot p) k σ = k q σ.
Proof. intros H%slot_at_Some. by apply (bind_lift (λ σ, slot_at σ p)). Qed.
Lemma bind_load_set {B} p (k : gset N → M T B) σ s :
  obj_at σ p = Some (OSet s) → bind (load_set p) k σ = k s σ.
Proof. intros H%set_at_Some. by apply (bind_lift (λ σ, set_at σ p)). Qed.
Lemma bind_load_mutator {B} p (k : LifetimeMutator.t → M T B) σ lm :
  obj_at σ p = Some (OMutator lm) → bind (load_mutator p) k σ = k lm σ.
Proof. intros H%mutator_at_Some. by apply (bind_lift (λ σ, mutator_at σ p)). Qed.
Lemma bind_scoped_lock {B} p (k : unit → M T B) σ :
  obj_at σ p = Some OMutex → bind (scoped_lock p) k σ = k tt σ.
Proof.
  intros H. apply (mutex_at_Some _ _ tt) in H.
  by apply (bind_lift (λ σ, mutex_at σ p)).
Qed.

Lemma bind_assign {B} p o (k : unit → M T B) σ :
  is_Some (obj_at σ p) → bind (assign p o) k σ = k tt (upd p o σ).
Proof. intros [o' H]. unfold assign, deref, bind, lift. by rewrite H. Qed.

Lemma bind_new {B} o (k : ptr → M T B) σ :
  bind (new o) k σ = k (N.succ (brk σ)) (push o σ).
Proof. reflexivity. Qed.

Lemma bind_free {B} p (k : unit → M T B) σ :
  is_Some (obj_at σ p) → bind (free p) k σ = k tt (del p σ).
Proof.
  intros [o' H]. unfold free.
  rewrite decide_False by by eapply obj_at_nonnull.
  unfold deref, bind, lift. by rewrite H.
Qed.

Lemma bind_assert {B} (b : bool) (k : unit → M T B) σ :
  b = true → bind (assert b) k σ = k tt σ.
Proof. by intros ->. Qed.

Lemma bind_throw {A B} e (k : A → M T B) σ : bind (throw e) k σ = Throw e σ.
Proof. reflexivity. Qed.

Lemma bind_assoc {A B C} (c : M T A) (k : A → M T B) (k' : B → M T C) σ :
  bind (bind c k) k' σ = bind c (λ a, bind (k a) k') σ.
Proof. unfold bind. by destruct (c σ). Qed.

Lemma ptr_eqb_eq p q : ptr_eqb p q = bool_decide (p = q).
Proof.
  unfold ptr_eqb. case_bool_decide as H.
  - by apply N.eqb_eq.
  - by apply N.eqb_neq.
Qed.

Lemma nonnull_test σ p o : obj_at σ p = Some o → negb (ptr_eqb p nullptr) = true.
Proof.
  intros H%obj_at_nonnull. rewrite ptr_eqb_eq. by rewrite bool_decide_eq_false_2.
Qed.

(** ** What a view says about the store *)

Lemma view_cells σ this g :
  view σ this = Some g ↔ ∃ h cur, cells σ this h cur g.
Proof.
  unfold view. split.
  - intros H. destruct (lifetime_at σ this) as [h|] eqn:Eh; [|done]. simpl in H.
    destruct (val_at σ (m_T h)) as [v|] eqn:Ev; [|done]. simpl in H.
    destruct (owner_at σ (m_owner h)) as [ow|] eqn:Eo; [|done]. simpl in H.
    destruct (slot_at σ (m_mutator h)) as [cur|] eqn:Ec; [|done]. simpl in H.
    destruct (mutex_at σ (m_mutex h)) as [[]|] eqn:Em; [|done]. simpl in H.
    destruct (set_at σ (m_refs h)) as [s|] eqn:Es; [|done]. simpl in H.
    destruct (mutator_view σ cur) as [mu|] eqn:Emu; [|done]. simpl in H.
    injection H as <-. exists h, cur.
    apply lifetime_at_Some in Eh. apply val_at_Some in Ev.
    apply owner_at_Some in Eo. apply slot_at_Some in Ec. apply mutex_at_Some in Em.
    apply set_at_Some in Es. by constructor.
  - intros (h & cur & [H1 H2 H3 H4 H5 H6 H7]).
    apply lifetime_at_Some in H1. apply val_at_Some in H2.
    apply owner_at_Some in H3. apply slot_at_Some in H4. apply (mutex_at_Some _ _ tt) in H5.
    apply set_at_Some in H6.
    rewrite H1; simpl. rewrite H2; simpl. rewrite H3; simpl.
    rewrite H4; simpl. rewrite H5; simpl. rewrite H6; simpl.
    rewrite H7; simpl. by destruct g.
Qed.

Lemma mutator_view_null σ : mutator_view σ nullptr = Some None.
Proof. reflexivity. Qed.

Lemma mutator_view_Some σ cur m :
  mutator_view σ cur = Some (Some m) ↔
  cur ≠ nullptr ∧ ∃ acc q,
    obj_at σ cur = Some (OMutator (LifetimeMutator.mk m acc)) ∧
    obj_at σ acc = Some (OSlot q).
Proof.
  unfold mutator_view. case_decide as Hc.
  - split; [done|]. by intros [? _].
  - destruct (mutator_at σ cur) as [[m' acc]|] eqn:El; simpl.
    + apply mutator_at_Some in El.
      destruct (slot_at σ acc) as [q|] eqn:Ea; simpl.
      * apply slot_at_Some in Ea. split.
        -- intros [= ->]. split; [done|]. by exists acc, q.
        -- intros (_ & acc' & q' & Hl & _). congruence.
      * split; [done|]. intros (_ & acc' & q' & Hl & Hq).
        assert (acc' = acc) as -> by congruence.
        apply slot_at_Some in Hq. congruence.
    + split; [done|]. intros (_ & acc & q & Hl%mutator_at_Some & _). congruence.
Qed.

Lemma mutator_view_None σ cur :
  mutator_view σ cur = Some None ↔ cur = nullptr.
Proof.
  unfold mutator_view. case_decide as Hc; [done|].
  destruct (mutator_at σ cur) as [[m' acc]|]; simpl; [|done].
  by destruct (slot_at σ acc).
Qed.

(** The test of lines 66, 118 and 134 on a store without dangling pointers. *)
Lemma holds_mutator_spec {B} σ this h cur g (k : bool → M T B) :
  cells σ this h cur g →
  bind (holds_mutator this h) k σ = k (bool_decide (mutator g = Some this)) σ.
Proof.
  intros [_ _ _ Hc _ _ Hmu]. unfold holds_mutator.
  rewrite bind_assoc. erewrite bind_load_slot by done.
  rewrite ptr_eqb_eq. destruct (mutator g) as [m|] eqn:Em.
  - apply mutator_view_Some in Hmu as (Hn & acc & q & Hlm & _).
    rewrite bool_decide_eq_false_2 by done. simpl.
    rewrite bind_assoc. erewrite bind_load_mutator by done. simpl.
    rewrite bind_ret, ptr_eqb_eq. f_equal.
    apply bool_decide_ext. naive_solver.
  - apply mutator_view_None in Hmu as ->.
    rewrite bool_decide_eq_true_2 by done. simpl. by rewrite bind_ret.
Qed.

Lemma obj_at_live σ p o : obj_at σ p = Some o → is_Some (obj_at σ p).
Proof. eauto. Qed.

Create HintDb live.
#[local] Hint Resolve obj_at_live : live.

Lemma bind_assert_live {B} p (k : unit → M T B) σ :
  is_Some (obj_at σ p) →
  bind (assert (negb (ptr_eqb p nullptr))) k σ = k tt σ.
Proof. intros [o H]. apply bind_assert. by eapply nonnull_test. Qed.

Lemma run_assign p o σ : is_Some (obj_at σ p) → assign p o σ = Ok tt (upd p o σ).
Proof. intros [o' H]. unfold assign, deref, bind, lift. by rewrite H. Qed.

Lemma run_free p σ : is_Some (obj_at σ p) → free p σ = Ok tt (del p σ).
Proof.
  intros [o' H]. unfold free.
  rewrite decide_False by by eapply obj_at_nonnull.
  unfold deref, bind, lift. by rewrite H.
Qed.

Lemma run_load_val p σ v : obj_at σ p = Some (OVal v) → load_val p σ = Ok v σ.
Proof. intros H%val_at_Some. unfold load_val, lift. by rewrite H. Qed.

Lemma ptr_eqb_refl p : ptr_eqb p p = true.
Proof. apply N.eqb_refl. Qed.

Lemma ptr_eqb_ne p q : p ≠ q → ptr_eqb p q = false.
Proof. by apply N.eqb_neq. Qed.

Lemma size_test s : (0 <? size s)%nat = negb (bool_decide (s = ∅)).
Proof.
  case_bool_decide as E; simpl.
  - subst. by rewrite size_empty.
  - apply Nat.ltb_lt.
    assert (size s ≠ 0%nat); [|lia].
    apply size_non_empty_iff. by intros ?%leibniz_equiv.
Qed.

Lemma fresh_nonnull n : N.succ n ≠ nullptr.
Proof. unfold nullptr. lia. Qed.

(** Bounds and non-nullness of the live addresses in the context. *)
Ltac bounds Hwf :=
  repeat match goal with
  | H : obj_at ?σ ?p = Some _ |- _ =>
      lazymatch type of Hwf with
      | wf_store σ =>
          lazymatch goal with
          | _ : p ≤ brk σ |- _ => fail
          | _ => pose proof (wf_bound _ _ _ Hwf H);
                 pose proof (obj_at_nonnull _ _ _ H)
          end
      end
  end.

Ltac ne :=
  rewrite ?brk_upd, ?brk_push, ?brk_del;
  cbn [from_Lifetime m_T m_owner m_mutex m_mutator m_refs];
  first [ congruence
        | eapply obj_at_nonnull; eassumption
        | unfold nullptr in *; lia ].

(** Reads [obj_at] through a stack of updates down to a known fact. *)
Ltac solve_at :=
  repeat first
    [ eassumption
    | reflexivity
    | rewrite obj_at_push_eq
    | rewrite obj_at_upd_eq by ne
    | rewrite obj_at_del_eq
    | rewrite obj_at_upd_ne by ne
    | rewrite obj_at_push_ne by ne
    | rewrite obj_at_del_ne by ne ].

Ltac live := eapply obj_at_live; solve_at.

Ltac exec :=
  repeat first
    [ rewrite bind_assoc
    | rewrite bind_ret
    | rewrite bind_new
    | rewrite bind_throw
    | erewrite bind_load_this by solve_at
    | erewrite bind_load_val by solve_at
    | erewrite bind_load_owner by solve_at
    | erewrite bind_load_slot by solve_at
    | erewrite bind_load_set by solve_at
    | erewrite bind_load_mutator by solve_at
    | erewrite bind_scoped_lock by solve_at
    | erewrite holds_mutator_spec by eassumption
    | rewrite bind_assert_live by live
    | rewrite bind_assign by live
    | rewrite bind_free by live
    | rewrite run_assign by live
    | rewrite run_free by live
    | erewrite run_load_val by solve_at
    | rewrite ptr_eqb_refl
    | rewrite ptr_eqb_ne by ne
    | rewrite size_test
    | rewrite bool_decide_eq_true_2 by done
    | rewrite bool_decide_eq_false_2 by done
    | progress cbn [when negb m_T m_owner m_mutex m_mutator m_refs
                    LifetimeMutator.m_mutator LifetimeMutator.m_mutatorAccess] ].

(** ** Writing: [set] and [get_mutable] *)

Lemma writable_test g this :
  writable g this ↔
  bool_decide (mutator g = Some this) = true ∨
  (bool_decide (mutator g = Some this) = false ∧ ptr_eqb this (owner g) = true).
Proof.
  unfold writable. rewrite ptr_eqb_eq.
  repeat case_bool_decide; intuition congruence.
Qed.

Lemma set_spec σ this h cur g v :
  cells σ this h cur g →
  set this v σ =
    if decide (writable g this) then Ok tt (upd (m_T h) (OVal v) σ)
    else Throw NotWritable σ.
Proof.
  intros Hc. pose proof Hc as [H1 H2 H3 H4 H5 H6 H7].
  unfold set. exec.
  destruct (bool_decide (mutator g = Some this)) eqn:Em.
  - exec. rewrite decide_True; [done|]. apply writable_test. by left.
  - rewrite bind_assoc. exec.
    destruct (ptr_eqb this (owner g)) eqn:Eo; simpl.
    + exec. rewrite decide_True; [done|]. apply writable_test. by right.
    + exec. rewrite decide_False; [done|].
      rewrite writable_test, Em, Eo. by intros [?|[_ ?]].
Qed.

Lemma get_mutable_spec σ this h cur g :
  cells σ this h cur g →
  get_mutable this σ =
    if decide (writable g this) then Ok (m_T h) σ else Throw NotWritable σ.
Proof.
  intros Hc. pose proof Hc as [H1 H2 H3 H4 H5 H6 H7].
  unfold get_mutable. exec.
  destruct (bool_decide (mutator g = Some this)) eqn:Em.
  - exec. rewrite decide_True; [done|]. apply writable_test. by left.
  - rewrite bind_assoc. exec.
    destruct (ptr_eqb this (owner g)) eqn:Eo; simpl.
    + exec. rewrite decide_True; [done|]. apply writable_test. by right.
    + exec. rewrite decide_False; [done|].
      rewrite writable_test, Em, Eo. by intros [?|[_ ?]].
Qed.

(** C1: for a handle that sees a group (its pointers are live and its
    mutator cell is null or refers to a live [LifetimeMutator]), [set] and
    [get_mutable] return normally if and only if the handle is the owner of
    the group or its current mutator; otherwise both throw the "not
    writable" error, return no value and leave the store as it was. *)
Theorem write_iff_owner_or_mutator σ this g v :
  view σ this = Some g →
  (is_ok (set this v σ) ↔ writable g this) ∧
  (is_ok (get_mutable this σ) ↔ writable g this) ∧
  (¬ writable g this →
     set this v σ = Throw NotWritable σ ∧
     get_mutable this σ = Throw NotWritable σ).
Proof.
  intros (h & cur & Hc)%view_cells.
  rewrite (set_spec _ _ _ _ _ _ Hc), (get_mutable_spec _ _ _ _ _ Hc).
  destruct (decide (writable g this)); simpl; tauto.
Qed.

Lemma eta_Lifetime h :
  mkLifetime (m_T h) (m_owner h) (m_mutex h) (m_mutator h) (m_refs h) = h.
Proof. by destruct h. Qed.

Lemma borrow_spec σ this h cur g :
  wf_store σ → cells σ this h cur g →
  borrow this σ = Ok (N.succ (brk σ)) (borrow_store σ h (members g)).
Proof.
  intros Hwf Hc. pose proof Hc as [H1 H2 H3 H4 H5 H6 H7]. bounds Hwf.
  unfold borrow, Lifetime_ctor. exec. by rewrite eta_Lifetime.
Qed.

(** ** Which calls can throw, and what a throwing call leaves behind *)

Lemma no_throw_ret {A} (a : A) : no_throw (ret a : M T A).
Proof. by intros σ e σ'. Qed.
Lemma no_throw_undef {A} : no_throw (@undef T A).
Proof. by intros σ e σ'. Qed.
Lemma no_throw_lift {A} (f : store T → option A) : no_throw (lift f).
Proof. intros σ e σ'. unfold lift. by destruct (f σ). Qed.
Lemma no_throw_new o : no_throw (new o).
Proof. by intros σ e σ'. Qed.
Lemma no_throw_bind {A B} (c : M T A) (k : A → M T B) :
  no_throw c → (∀ a, no_throw (k a)) → no_throw (bind c k).
Proof.
  intros Hc Hk σ e σ'. unfold bind. destruct (c σ) as [a σ1|e1 σ1|] eqn:E.
  - apply Hk.
  - by apply Hc in E.
  - done.
Qed.
Lemma no_throw_assert b : no_throw (assert b : M T unit).
Proof. destruct b; [apply no_throw_ret|apply no_throw_undef]. Qed.
Lemma no_throw_assign p o : no_throw (assign p o).
Proof.
  apply no_throw_bind; [apply no_throw_lift|]. by intros _ σ e σ'.
Qed.
Lemma no_throw_free p : no_throw (free p).
Proof.
  unfold free. case_decide; [apply no_throw_ret|].
  apply no_throw_bind; [apply no_throw_lift|]. by intros _ σ e σ'.
Qed.
Lemma no_throw_when b c : no_throw c → no_throw (when b c).
Proof. destruct b; [done|]. intros _. apply no_throw_ret. Qed.

Lemma readonly_ret {A} (a : A) : readonly (ret a : M T A).
Proof. by intros σ. Qed.
Lemma readonly_throw {A} e : readonly (@throw T A e).
Proof. by intros σ. Qed.
Lemma readonly_undef {A} : readonly (@undef T A).
Proof. by intros σ. Qed.
Lemma readonly_lift {A} (f : store T → option A) : readonly (lift f).
Proof. intros σ. unfold lift. by destruct (f σ). Qed.
Lemma readonly_assert b : readonly (assert b : M T unit).
Proof. destruct b; [apply readonly_ret|apply readonly_undef]. Qed.
Lemma readonly_bind {A B} (c : M T A) (k : A → M T B) :
  readonly c → (∀ a, readonly (k a)) → readonly (bind c k).
Proof.
  intros Hc Hk σ. unfold bind. specialize (Hc σ).
  destruct (c σ) as [a σ1|e1 σ1|]; [|done..].
  subst σ1. apply Hk.
Qed.

Lemma fails_clean_no_throw {A} (c : M T A) : no_throw c → fails_clean c.
Proof. intros Hc σ e σ' H. by apply Hc in H. Qed.
Lemma fails_clean_readonly {A} (c : M T A) : readonly c → fails_clean c.
Proof. intros Hc σ e σ' H. specialize (Hc σ). by rewrite H in Hc. Qed.
Lemma fails_clean_bind {A B} (c : M T A) (k : A → M T B) :
  readonly c → (∀ a, fails_clean (k a)) → fails_clean (bind c k).
Proof.
  intros Hc Hk σ e σ'. unfold bind. specialize (Hc σ).
  destruct (c σ) as [a σ1|e1 σ1|]; [| |done].
  - subst σ1. apply Hk.
  - intros [= -> ->]. done.
Qed.

(** Syntax-directed proof of the three properties. *)
Ltac effects_step :=
  first
    [ progress intros
    | apply no_throw_ret | apply no_throw_undef | apply no_throw_lift
    | apply no_throw_new | apply no_throw_assert | apply no_throw_assign
    | apply no_throw_free
    | apply no_throw_when
    | apply no_throw_bind
    | apply readonly_ret | apply readonly_throw | apply readonly_undef
    | apply readonly_lift | apply readonly_assert
    | apply readonly_bind
    | match goal with
      | |- no_throw (if ?b then _ else _) => destruct b
      | |- readonly (if ?b then _ else _) => destruct b
      end
    | assumption ].

Lemma readonly_holds_mutator this h : readonly (holds_mutator this h).
Proof. unfold holds_mutator, load_slot, load_mutator. repeat effects_step. Qed.

Lemma no_throw_holds_mutator this h : no_throw (holds_mutator this h).
Proof. unfold holds_mutator, load_slot, load_mutator. repeat effects_step. Qed.

Lemma no_throw_delete_LifetimeMutator p : no_throw (delete_LifetimeMutator p).
Proof.
  unfold delete_LifetimeMutator, load_mutator. case_decide; repeat effects_step.
Qed.

Lemma no_throw_Lifetime_ctor child ownership mutator mut set b1 b2 :
  no_throw (Lifetime_ctor child ownership mutator mut set b1 b2).
Proof.
  unfold Lifetime_ctor, LifetimeMutator_ctor, load_slot, load_owner, load_set.
  repeat effects_step.
Qed.

Lemma no_throw_from v : no_throw (from v).
Proof. unfold from. repeat effects_step. Qed.

Ltac effects :=
  repeat first
    [ apply readonly_holds_mutator | apply no_throw_holds_mutator
    | apply no_throw_delete_LifetimeMutator | apply no_throw_Lifetime_ctor
    | effects_step ].

(** Reads and tests first, then either a throw or the writes. *)
Ltac clean :=
  repeat first
    [ progress intros
    | apply fails_clean_readonly; solve [effects]
    | apply fails_clean_no_throw; solve [effects]
    | apply fails_clean_bind; [solve [effects]|]
    | match goal with
      | |- fails_clean (if ?b then _ else _) => destruct b
      end ].

Lemma fails_clean_set this v : fails_clean (set this v).
Proof. unfold set, load_this, load_owner, scoped_lock. clean. Qed.

Lemma fails_clean_get_mutable this : fails_clean (get_mutable this).
Proof. unfold get_mutable, load_this, load_owner, load_val, scoped_lock. clean. Qed.

Lemma fails_clean_borrow_mutable this : fails_clean (borrow_mutable this).
Proof. unfold borrow_mutable, load_this, load_slot. clean. Qed.

Lemma fails_clean_move this : fails_clean (move this).
Proof. unfold move, load_this, load_owner. clean. Qed.

Lemma fails_clean_move_to this other : fails_clean (move_to this other).
Proof. unfold move_to, load_this, load_set, load_slot. clean. Qed.

(** C10: when [set], [get_mutable], [borrow_mutable], [move] or
    [move(Lifetime&)] throws, the store after the call is the store before
    it, and so every handle sees the value, the owner, the mutator and the
    member set it saw before. *)
Theorem failed_call_has_no_effect σ σ' e this other v :
  set this v σ = Throw e σ' ∨
  get_mutable this σ = Throw e σ' ∨
  borrow_mutable this σ = Throw e σ' ∨
  move this σ = Throw e σ' ∨
  move_to this other σ = Throw e σ' →
  σ' = σ ∧ ∀ x, view σ' x = view σ x.
Proof.
  intros H. assert (σ' = σ) as ->; [|done].
  destruct H as [H|[H|[H|[H|H]]]].
  - by eapply fails_clean_set.
  - by eapply fails_clean_get_mutable.
  - by eapply fails_clean_borrow_mutable.
  - by eapply fails_clean_move.
  - by eapply fails_clean_move_to.
Qed.

(** ** Borrowing *)

Lemma slot_Some σ this cur :
  slot σ this = Some cur ↔
  ∃ h, obj_at σ this = Some (OLifetime h) ∧
       obj_at σ (m_mutator h) = Some (OSlot cur).
Proof.
  unfold slot. split.
  - destruct (lifetime_at σ this) as [h|] eqn:Eh; [|done]. simpl.
    intros Hs. exists h. by rewrite <- lifetime_at_Some, <- slot_at_Some.
  - intros (h & Hh%lifetime_at_Some & Hs%slot_at_Some). by rewrite Hh.
Qed.

Lemma borrow_mutable_taken σ this h cur :
  obj_at σ this = Some (OLifetime h) →
  obj_at σ (m_mutator h) = Some (OSlot cur) →
  cur ≠ nullptr →
  borrow_mutable this σ = Throw AlreadyMutableBorrowed σ.
Proof.
  intros Hh Hs Hn. unfold borrow_mutable. by exec.
Qed.

Lemma borrow_mutable_free σ this h g :
  wf_store σ → cells σ this h nullptr g →
  borrow_mutable this σ =
    Ok (N.succ (brk σ)) (borrow_mutable_store σ h (members g)).
Proof.
  intros Hwf Hc. pose proof Hc as [H1 H2 H3 H4 H5 H6 H7]. bounds Hwf.
  unfold borrow_mutable, Lifetime_ctor, LifetimeMutator_ctor. exec.
  by rewrite eta_Lifetime.
Qed.

Lemma mutator_view_intro σ cur m acc q :
  obj_at σ cur = Some (OMutator (LifetimeMutator.mk m acc)) →
  obj_at σ acc = Some (OSlot q) →
  mutator_view σ cur = Some (Some m).
Proof.
  intros Hl Ha. apply mutator_view_Some. split; [by eapply obj_at_nonnull|].
  by exists acc, q.
Qed.

Lemma borrow_mutable_view σ this h g :
  wf_store σ → cells σ this h nullptr g →
  let nw := N.succ (brk σ) in
  let g' := mkGroup (value g) (owner g) (Some nw) ({[nw]} ∪ members g) in
  cells (borrow_mutable_store σ h (members g)) nw h (N.succ nw) g' ∧
  cells (borrow_mutable_store σ h (members g)) this h (N.succ nw) g'.
Proof.
  intros Hwf Hc nw g'. pose proof Hc as [H1 H2 H3 H4 H5 H6 H7]. bounds Hwf.
  assert (mutator_view (borrow_mutable_store σ h (members g)) (N.succ nw)
          = Some (Some nw)) as Hmu.
  { eapply (mutator_view_intro _ _ _ (N.succ (N.succ nw)));
      unfold borrow_mutable_store; solve_at. }
  split; constructor; try done; unfold borrow_mutable_store; simpl; solve_at.
Qed.

(** C2: [borrow_mutable] throws "already mutable borrowed" if and only if
    the mutator cell of the group holds a non-null pointer, and it throws
    nothing else; when the cell is null it returns a handle that did not
    exist before, whose data members are those of the handle it was called
    on, which has joined the member set and is the mutator of the group. *)
Theorem borrow_mutable_iff_slot_free σ this cur :
  wf_store σ → slot σ this = Some cur →
  (borrow_mutable this σ = Throw AlreadyMutableBorrowed σ ↔ cur ≠ nullptr) ∧
  (∀ e σ', borrow_mutable this σ = Throw e σ' →
     e = AlreadyMutableBorrowed ∧ cur ≠ nullptr) ∧
  (∀ g, view σ this = Some g → cur = nullptr →
     ∃ nw σ',
       borrow_mutable this σ = Ok nw σ' ∧
       obj_at σ nw = None ∧
       lifetime_at σ' nw = lifetime_at σ this ∧
       view σ' nw = Some (mkGroup (value g) (owner g) (Some nw)
                                  ({[nw]} ∪ members g)) ∧
       view σ' this = view σ' nw).
Proof.
  intros Hwf (h & Hh & Hs)%slot_Some.
  assert (cur = nullptr → ∀ e σ', borrow_mutable this σ ≠ Throw e σ') as Hfree.
  { intros -> e σ'. unfold borrow_mutable. exec.
    apply no_throw_Lifetime_ctor. }
  split; [|split].
  - split.
    + intros Ht Hn. by eapply Hfree.
    + intros Hn. by eapply borrow_mutable_taken.
  - intros e σ' Ht. destruct (decide (cur = nullptr)) as [->|Hn].
    + by eapply Hfree in Ht.
    + rewrite (borrow_mutable_taken _ _ _ _ Hh Hs Hn) in Ht. by injection Ht as <- _.
  - intros g (h' & cur' & Hc)%view_cells ->.
    pose proof Hc as [H1 H2 H3 H4 H5 H6 H7].
    assert (h' = h) as -> by congruence.
    assert (cur' = nullptr) as -> by congruence.
    destruct (borrow_mutable_view _ _ _ _ Hwf Hc) as [Hn Ht].
    exists (N.succ (brk σ)), (borrow_mutable_store σ h (members g)).
    split; [by apply borrow_mutable_free|].
    split; [by apply wf_fresh_None|].
    split.
    { destruct Hn as [Hn _ _ _ _ _ _]. apply lifetime_at_Some in Hn, Hh. congruence. }
    assert (view (borrow_mutable_store σ h (members g)) (N.succ (brk σ)) =
            Some (mkGroup (value g) (owner g) (Some (N.succ (brk σ)))
                    ({[N.succ (brk σ)]} ∪ members g))) as Hv.
    { apply view_cells. eauto. }
    split; [done|]. rewrite Hv. apply view_cells. eauto.
Qed.

(** ** Fresh groups: [from] and [clone] *)

Lemma from_spec σ v :
  from v σ = Ok (N.succ (N.succ (brk σ))) (from_store σ v).
Proof.
  unfold from, Lifetime_ctor. exec.
  unfold from_store. by rewrite (right_id_L ∅ (∪)).
Qed.

Lemma from_store_extends σ v q o :
  wf_store σ → obj_at σ q = Some o → obj_at (from_store σ v) q = Some o.
Proof.
  intros Hwf Hq. bounds Hwf. unfold from_store, from_Lifetime; simpl. solve_at.
Qed.

Lemma cells_mono σ σ' x h cur g :
  (∀ q o, obj_at σ q = Some o → obj_at σ' q = Some o) →
  cells σ x h cur g → cells σ' x h cur g.
Proof.
  intros Hext [H1 H2 H3 H4 H5 H6 H7]. constructor; eauto.
  destruct (mutator g) as [m|].
  - apply mutator_view_Some in H7 as (_ & acc & q & Hl & Ha).
    eapply mutator_view_intro; eauto.
  - apply mutator_view_None in H7 as ->. done.
Qed.

Lemma from_cells σ v :
  let this := N.succ (N.succ (brk σ)) in
  cells (from_store σ v) this (from_Lifetime (brk σ)) nullptr
        (mkGroup v this None {[this]}).
Proof.
  intros this. constructor; try done;
    unfold from_store, from_Lifetime, this; simpl; solve_at.
Qed.

Lemma get_spec σ this h v :
  obj_at σ this = Some (OLifetime h) →
  obj_at σ (m_T h) = Some (OVal v) →
  get this σ = Ok v σ.
Proof. intros Hh Hv. unfold get. by exec. Qed.

Lemma clone_spec σ this h v :
  obj_at σ this = Some (OLifetime h) →
  obj_at σ (m_T h) = Some (OVal v) →
  clone this σ = Ok (N.succ (N.succ (brk σ))) (from_store σ v).
Proof. intros Hh Hv. unfold clone. exec. apply from_spec. Qed.

(** C8: [clone] returns a new handle on cells of its own: a group of which
    it is owner and sole member, without mutator, holding the value the
    cloned handle had.  A write through the cloned handle (accepted or
    refused) does not change what the clone reads, and a write through the
    clone does not change what the cloned handle reads. *)
Theorem clone_is_independent σ x g :
  wf_store σ → view σ x = Some g →
  ∃ c σ1,
    clone x σ = Ok c σ1 ∧
    (* a new handle in a group of its own, holding a copy *)
    obj_at σ c = None ∧
    view σ1 c = Some (mkGroup (value g) c None {[c]}) ∧
    (∃ hc, lifetime_at σ1 c = Some hc ∧
           obj_at σ (m_T hc) = None ∧ obj_at σ (m_owner hc) = None ∧
           obj_at σ (m_mutator hc) = None ∧ obj_at σ (m_refs hc) = None) ∧
    view σ1 x = Some g ∧
    get c σ1 = Ok (value g) σ1 ∧
    (* a write through [x] *)
    (∀ v, ∃ σ2,
       (if decide (writable g x)
        then set x v σ1 = Ok tt σ2 ∧ get x σ2 = Ok v σ2
        else set x v σ1 = Throw NotWritable σ2) ∧
       get c σ2 = Ok (value g) σ2) ∧
    (* a write through [c] *)
    (∀ v, ∃ σ3,
       set c v σ1 = Ok tt σ3 ∧
       get x σ3 = Ok (value g) σ3 ∧ get c σ3 = Ok v σ3).
Proof.
  intros Hwf (h & cur & Hc)%view_cells.
  pose proof Hc as [H1 H2 H3 H4 H5 H6 H7]. bounds Hwf.
  set (c := N.succ (N.succ (brk σ))).
  set (σ1 := from_store σ (value g)).
  pose proof (from_cells σ (value g)) as Hcc. simpl in Hcc. fold c σ1 in Hcc.
  assert (cells σ1 x h cur g) as Hcx.
  { eapply cells_mono; [|done]. intros q o. by apply from_store_extends. }
  pose proof Hcc as [C1 C2 C3 C4 C5 C6 C7]. simpl in *.
  pose proof Hcx as [X1 X2 X3 X4 X5 X6 X7].
  assert (∀ n, brk σ < n → obj_at σ n = None) as Hnew.
  { intros n Hn. destruct (obj_at σ n) eqn:E; [|done].
    apply (wf_bound _ _ _ Hwf) in E. lia. }
  exists c, σ1. split; [by apply (clone_spec _ _ h)|].
  split; [apply Hnew; unfold c; lia|].
  split; [apply view_cells; eauto|].
  split.
  { exists (from_Lifetime (brk σ)). split; [by apply lifetime_at_Some|].
    unfold from_Lifetime; simpl. repeat split; apply Hnew; lia. }
  split; [apply view_cells; eauto|].
  split; [by eapply get_spec|].
  split.
  - intros v. rewrite (set_spec _ _ _ _ _ v Hcx).
    destruct (decide (writable g x)).
    + eexists. split; [split; [done|]|]; eapply get_spec; solve_at.
    + exists σ1. split; [done|]. by eapply get_spec.
  - intros v. rewrite (set_spec _ _ _ _ _ v Hcc).
    rewrite decide_True by (by left). eexists. split; [done|].
    split; eapply get_spec; solve_at.
Qed.

(** ** Destruction *)

Lemma Lifetime_dtor_split this :
  @Lifetime_dtor T this =
    (let* h := load_this this in
     assert (negb (ptr_eqb (m_T h) nullptr)) ;;
     assert (negb (ptr_eqb (m_owner h) nullptr)) ;;
     assert (negb (ptr_eqb (m_refs h) nullptr)) ;;
     assert (negb (ptr_eqb (m_mutator h) nullptr)) ;;
     let* mine := holds_mutator this h in
     when mine (let* cur := load_slot (m_mutator h) in delete_LifetimeMutator cur) ;;
     dtor_rest this h).
Proof. reflexivity. Qed.

Lemma erase_store_refs σ this h v ow s :
  dtor_pre σ this h v ow s →
  dtor_pre (erase_store σ h s this) this h v ow (s ∖ {[this]}).
Proof.
  intros [H1 H2 H3 H4]. unfold erase_store. case_bool_decide as Hin.
  - constructor; solve_at.
  - replace (s ∖ {[this]}) with s by set_solver. by constructor.
Qed.

Lemma dtor_rest_throw σ this h v s :
  dtor_pre σ this h v this s → s ∖ {[this]} ≠ ∅ →
  dtor_rest this h σ = Throw OwnerDropped (erase_store σ h s this).
Proof.
  intros Hp Hne. pose proof (erase_store_refs _ _ _ _ _ _ Hp) as [E1 E2 E3 E4].
  destruct Hp as [H1 H2 H3 H4].
  unfold dtor_rest. exec.
  assert (∀ k : unit → M T unit,
    bind (when (bool_decide (this ∈ s)) (assign (m_refs h) (OSet (s ∖ {[this]})))) k σ
    = k tt (erase_store σ h s this)) as ->.
  { intros k. unfold erase_store. case_bool_decide; simpl; by exec. }
  by exec.
Qed.

Lemma dtor_rest_last σ this h v ow s :
  dtor_pre σ this h v ow s → s ∖ {[this]} = ∅ →
  let σ2 := erase_store σ h s this in
  let σ3 := if ptr_eqb this ow then upd (m_refs h) (OSet ∅) σ2 else σ2 in
  dtor_rest this h σ =
    Ok tt (upd this (OLifetime (reset_Lifetime h)) (teardown_store σ3 h)).
Proof.
  intros Hp He σ2 σ3.
  pose proof (erase_store_refs _ _ _ _ _ _ Hp) as [E1 E2 E3 E4].
  fold σ2 in E1, E2, E3, E4. rewrite He in E4.
  destruct Hp as [H1 H2 H3 H4].
  unfold dtor_rest. exec.
  assert (∀ k : unit → M T unit,
    bind (when (bool_decide (this ∈ s)) (assign (m_refs h) (OSet (s ∖ {[this]})))) k σ
    = k tt σ2) as ->.
  { intros k. unfold σ2, erase_store. case_bool_decide; simpl; by exec. }
  exec. unfold σ3, teardown_store. destruct (ptr_eqb this ow); simpl.
  - by exec.
  - by exec.
Qed.

Lemma dtor_rest_keep σ this h v ow s :
  dtor_pre σ this h v ow s → ow ≠ this → s ∖ {[this]} ≠ ∅ →
  dtor_rest this h σ =
    Ok tt (upd this (OLifetime (reset_Lifetime h)) (erase_store σ h s this)).
Proof.
  intros Hp Ho Hne.
  pose proof (erase_store_refs _ _ _ _ _ _ Hp) as [E1 E2 E3 E4].
  destruct Hp as [H1 H2 H3 H4].
  unfold dtor_rest. exec.
  assert (∀ k : unit → M T unit,
    bind (when (bool_decide (this ∈ s)) (assign (m_refs h) (OSet (s ∖ {[this]})))) k σ
    = k tt (erase_store σ h s this)) as ->.
  { intros k. unfold erase_store. case_bool_decide; simpl; by exec. }
  by exec.
Qed.

Lemma mutator_at_null σ : mutator_at σ nullptr = None.
Proof. reflexivity. Qed.

Lemma delete_LifetimeMutator_spec {B} σ cur m acc q (k : unit → M T B) :
  obj_at σ cur = Some (OMutator (LifetimeMutator.mk m acc)) →
  obj_at σ acc = Some (OSlot q) →
  bind (delete_LifetimeMutator cur) k σ = k tt (release_store σ cur acc).
Proof.
  intros Hl Ha. unfold delete_LifetimeMutator.
  rewrite decide_False by by eapply obj_at_nonnull.
  by exec.
Qed.

Lemma unmutate_store_frame σ this cur g q o :
  mutator_view σ cur = Some (mutator g) →
  obj_at σ q = Some o →
  (∀ lm, o ≠ OMutator lm) → (∀ x, o ≠ OSlot x) →
  obj_at (unmutate_store σ this cur) q = Some o.
Proof.
  intros Hmu Hq Hn1 Hn2. unfold unmutate_store.
  destruct (mutator g) as [m|].
  - apply mutator_view_Some in Hmu as (Hn & acc & x & Hl & Ha).
    pose proof Hl as Hl'. apply mutator_at_Some in Hl' as ->. simpl.
    case_bool_decide; [|done]. unfold release_store.
    assert (cur ≠ q) by (intros ->; naive_solver).
    assert (acc ≠ q) by (intros ->; naive_solver).
    solve_at.
  - apply mutator_view_None in Hmu as ->.
    by rewrite mutator_at_null.
Qed.

Lemma Lifetime_dtor_prefix σ this h cur g :
  cells σ this h cur g →
  Lifetime_dtor this σ = dtor_rest this h (unmutate_store σ this cur) ∧
  dtor_pre (unmutate_store σ this cur) this h (value g) (owner g) (members g).
Proof.
  intros Hc. pose proof Hc as [H1 H2 H3 H4 H5 H6 H7]. split.
  - rewrite Lifetime_dtor_split. exec. unfold unmutate_store.
    destruct (mutator g) as [m|] eqn:Em.
    + apply mutator_view_Some in H7 as (Hn & acc & x & Hl & Ha).
      pose proof Hl as Hl'. apply mutator_at_Some in Hl' as ->. simpl.
      case_bool_decide as E1; case_bool_decide as E2; try congruence.
      * exec. by erewrite delete_LifetimeMutator_spec.
      * by exec.
    + apply mutator_view_None in H7 as ->.
      rewrite mutator_at_null. by exec.
  - constructor; eapply unmutate_store_frame; eauto; congruence.
Qed.

Lemma destroy_throw σ this h cur g :
  cells σ this h cur g → owner g = this → members g ∖ {[this]} ≠ ∅ →
  destroy this σ =
    Throw OwnerDropped
      (del this (erase_store (unmutate_store σ this cur) h (members g) this)).
Proof.
  intros Hc Ho Hne. destruct (Lifetime_dtor_prefix _ _ _ _ _ Hc) as [Hd Hp].
  unfold destroy. rewrite Hd. rewrite Ho in Hp.
  rewrite (dtor_rest_throw _ _ _ _ _ Hp Hne).
  apply erase_store_refs in Hp as [E1 E2 E3 E4]. by exec.
Qed.

Lemma destroy_last σ this h cur g :
  cells σ this h cur g → members g ∖ {[this]} = ∅ →
  let σ2 := erase_store (unmutate_store σ this cur) h (members g) this in
  let σ3 := if ptr_eqb this (owner g)
            then upd (m_refs h) (OSet ∅) σ2 else σ2 in
  destroy this σ =
    Ok tt (del this (upd this (OLifetime (reset_Lifetime h)) (teardown_store σ3 h))).
Proof.
  intros Hc He σ2 σ3. destruct (Lifetime_dtor_prefix _ _ _ _ _ Hc) as [Hd Hp].
  unfold destroy. rewrite Hd.
  rewrite (dtor_rest_last _ _ _ _ _ _ Hp He). fold σ2 σ3.
  apply erase_store_refs in Hp as [E1 E2 E3 E4]. fold σ2 in E1, E2, E3, E4.
  assert (obj_at σ3 this = Some (OLifetime h)) as E5.
  { unfold σ3. destruct (ptr_eqb this (owner g)); solve_at. }
  unfold teardown_store. rewrite run_free; [done|]. eapply obj_at_live.
  rewrite obj_at_upd_eq; [done|]. by eapply obj_at_nonnull.
Qed.

Lemma destroy_keep σ this h cur g :
  cells σ this h cur g → owner g ≠ this → members g ∖ {[this]} ≠ ∅ →
  destroy this σ =
    Ok tt (del this (upd this (OLifetime (reset_Lifetime h))
             (erase_store (unmutate_store σ this cur) h (members g) this))).
Proof.
  intros Hc Ho Hne. destruct (Lifetime_dtor_prefix _ _ _ _ _ Hc) as [Hd Hp].
  unfold destroy. rewrite Hd.
  rewrite (dtor_rest_keep _ _ _ _ _ _ Hp Ho Hne).
  apply erase_store_refs in Hp as [E1 E2 E3 E4].
  rewrite run_free; [done|]. eapply obj_at_live.
  rewrite obj_at_upd_eq; [done|]. by eapply obj_at_nonnull.
Qed.

Lemma obj_at_upd_None σ p q o :
  obj_at σ q = None → is_Some (obj_at σ p) → obj_at (upd p o σ) q = None.
Proof.
  intros Hq [o' Hp]. rewrite obj_at_upd_ne; [done|]. intros ->. congruence.
Qed.

Lemma obj_at_del_None σ p q : obj_at σ q = None → obj_at (del p σ) q = None.
Proof.
  intros Hq. destruct (decide (p = q)) as [->|Hne].
  - apply obj_at_del_eq.
  - by rewrite obj_at_del_ne.
Qed.

Lemma plain_group_cells σ h v ow s x :
  plain_group σ h v ow s → x ∈ s →
  cells σ x h nullptr (mkGroup v ow None s).
Proof. intros [H1 H2 H3 H4 H5 H6] Hx. constructor; auto. Qed.

Lemma unmutate_store_null σ this : unmutate_store σ this nullptr = σ.
Proof. unfold unmutate_store. by rewrite mutator_at_null. Qed.

Lemma destroy_member σ h v ow s x :
  plain_group σ h v ow s → x ∈ s → x ≠ ow → ow ∈ s →
  ∃ σ', destroy x σ = Ok tt σ' ∧
        plain_group σ' h v ow (s ∖ {[x]}) ∧
        ∀ q, q = x ∨ obj_at σ q = None → obj_at σ' q = None.
Proof.
  intros Hg Hx Hne How.
  pose proof (plain_group_cells _ _ _ _ _ _ Hg Hx) as Hc.
  pose proof Hg as [H1 H2 H3 H4 H5 H6]. pose proof (H6 _ Hx) as Hh.
  eexists. split.
  { rewrite (destroy_keep _ _ _ _ _ Hc); [done|by simpl|simpl; set_solver]. }
  simpl. rewrite unmutate_store_null. unfold erase_store.
  rewrite bool_decide_eq_true_2 by done. split.
  - constructor; try solve_at.
    intros y [Hy Hyx%not_elem_of_singleton]%elem_of_difference.
    pose proof (H6 _ Hy). solve_at.
  - intros q [->|Hq]; [apply obj_at_del_eq|].
    apply obj_at_del_None. apply obj_at_upd_None; [|live].
    apply obj_at_upd_None; [done|live].
Qed.

Lemma destroy_all_members σ h v ow s l :
  plain_group σ h v ow s → ow ∈ s → NoDup l →
  (∀ x, x ∈ l → x ∈ s ∧ x ≠ ow) →
  ∃ σ', destroy_all l σ = Ok tt σ' ∧
        plain_group σ' h v ow (s ∖ list_to_set l) ∧
        ∀ q, q ∈ l ∨ obj_at σ q = None → obj_at σ' q = None.
Proof.
  intros Hg How Hnd. revert σ s Hg How.
  induction Hnd as [|x l Hx Hnd IH]; intros σ s Hg How Hl.
  - exists σ. split; [done|]. split.
    + replace (s ∖ list_to_set []) with s by set_solver. done.
    + intros q [Hq|Hq]; [by apply elem_of_nil in Hq|done].
  - destruct (Hl x) as [Hxs Hxo]; [by left|].
    destruct (destroy_member _ _ _ _ _ _ Hg Hxs Hxo How) as (σ1 & Hd & Hg1 & Hdead).
    destruct (IH σ1 (s ∖ {[x]}) Hg1) as (σ2 & Hd2 & Hg2 & Hdead2).
    { set_solver. }
    { intros y Hy. destruct (Hl y) as [Hys Hyo]; [by right|].
      split; [|done]. apply elem_of_difference. split; [done|].
      apply not_elem_of_singleton. intros ->. done. }
    exists σ2. split; [|split].
    + simpl. unfold bind. by rewrite Hd.
    + replace (s ∖ list_to_set (x :: l)) with (s ∖ {[x]} ∖ list_to_set l)
        by set_solver. done.
    + intros q [Hq|Hq]; apply Hdead2.
      * apply elem_of_cons in Hq as [->|Hq]; [right; apply Hdead; by left|by left].
      * right. apply Hdead. by right.
Qed.

Lemma destroy_all_app l1 l2 σ σ1 :
  destroy_all l1 σ = Ok tt σ1 →
  @destroy_all T (l1 ++ l2) σ = destroy_all l2 σ1.
Proof.
  revert σ. induction l1 as [|x l1 IH]; intros σ; simpl.
  - by intros [= ->].
  - unfold bind. destruct (destroy x σ) as [[] σ'|e σ'|]; [|done..]. apply IH.
Qed.

(** ** [is_mutator] *)

(** C9: on a group whose mutator cell is null, [is_mutator] passes its
    first test, which looks at the address of the cell, and then reads the
    [LifetimeMutator] behind the null pointer the cell holds. *)
Theorem is_mutator_reads_through_null σ this g :
  view σ this = Some g → mutator g = None → is_mutator this σ = Undef.
Proof.
  intros (h & cur & Hc)%view_cells Hmu.
  destruct Hc as [H1 H2 H3 H4 H5 H6 H7].
  rewrite Hmu in H7. apply mutator_view_None in H7 as ->.
  unfold is_mutator. exec. unfold load_mutator.
  by rewrite bind_lift_None.
Qed.

(** Where a mutator exists the answer is the expected one. *)
Lemma is_mutator_spec σ this g m :
  view σ this = Some g → mutator g = Some m →
  is_mutator this σ = Ok (bool_decide (m = this)) σ.
Proof.
  intros (h & cur & Hc)%view_cells Hmu.
  destruct Hc as [H1 H2 H3 H4 H5 H6 H7].
  rewrite Hmu in H7. apply mutator_view_Some in H7 as (Hn & acc & q & Hl & Ha).
  unfold is_mutator. exec. by rewrite ptr_eqb_eq.
Qed.

Lemma is_owner_spec σ this g :
  view σ this = Some g → is_owner this σ = Ok (bool_decide (this = owner g)) σ.
Proof.
  intros (h & cur & Hc)%view_cells. destruct Hc as [H1 H2 H3 H4 H5 H6 H7].
  unfold is_owner. exec. by rewrite ptr_eqb_eq.
Qed.

(** ** Moving *)

Lemma move_to_spec σ this other h cur g :
  cells σ this h cur g → move_to this other σ = Throw NotOwner σ.
Proof.
  intros [H1 H2 H3 H4 H5 H6 H7]. unfold move_to. exec.
  assert (this ≠ m_owner h) by congruence. by exec.
Qed.

(** C5: [move(Lifetime&)] compares [this] with the address of the owner
    cell, which no handle has, so every call is refused as coming from a
    non-owner, the owner's included. *)
Theorem move_to_refuses_the_owner σ this other g :
  view σ this = Some g → move_to this other σ = Throw NotOwner σ.
Proof.
  intros (h & cur & Hc)%view_cells. by eapply move_to_spec.
Qed.

Lemma move_refused σ this g :
  view σ this = Some g → owner g ≠ this → move this σ = Throw NotOwner σ.
Proof.
  intros (h & cur & Hc)%view_cells Ho. destruct Hc as [H1 H2 H3 H4 H5 H6 H7].
  unfold move. exec.
  assert (this ≠ owner g) by congruence. by exec.
Qed.

Lemma move_spec σ this h cur g :
  wf_store σ → cells σ this h cur g → owner g = this →
  move this σ = Ok (N.succ (brk σ)) (move_store σ h (members g)).
Proof.
  intros Hwf Hc Ho. pose proof Hc as [H1 H2 H3 H4 H5 H6 H7]. bounds Hwf.
  rewrite Ho in H3.
  unfold move, Lifetime_ctor. exec. by rewrite eta_Lifetime.
Qed.

Lemma move_store_extends σ h s q o :
  wf_store σ → obj_at σ q = Some o →
  q ≠ m_owner h → q ≠ m_refs h →
  obj_at (move_store σ h s) q = Some o.
Proof. intros Hwf Hq ??. bounds Hwf. unfold move_store; simpl. solve_at. Qed.

Lemma move_cells σ this h cur g :
  wf_store σ → cells σ this h cur g →
  let nw := N.succ (brk σ) in
  let g' := mkGroup (value g) nw (mutator g) ({[nw]} ∪ members g) in
  cells (move_store σ h (members g)) nw h cur g' ∧
  cells (move_store σ h (members g)) this h cur g'.
Proof.
  intros Hwf Hc nw g'. pose proof Hc as [H1 H2 H3 H4 H5 H6 H7]. bounds Hwf.
  assert (mutator_view (move_store σ h (members g)) cur = Some (mutator g)) as Hmu.
  { destruct (mutator g) as [m|].
    - apply mutator_view_Some in H7 as (Hn & acc & q & Hl & Ha).
      eapply mutator_view_intro; apply move_store_extends; eauto; congruence.
    - by apply mutator_view_None in H7 as ->. }
  split; constructor; try done; unfold move_store; simpl; solve_at.
Qed.

(** What [move()] does for the owner. *)
Lemma move_transfers σ this g :
  wf_store σ → view σ this = Some g → owner g = this →
  ∃ nw σ',
    move this σ = Ok nw σ' ∧
    obj_at σ nw = None ∧
    lifetime_at σ' nw = lifetime_at σ this ∧
    view σ' nw = Some (mkGroup (value g) nw (mutator g) ({[nw]} ∪ members g)) ∧
    view σ' this = view σ' nw ∧
    nw ≠ this.
Proof.
  intros Hwf (h & cur & Hc)%view_cells Ho.
  destruct (move_cells _ _ _ _ _ Hwf Hc) as [Hn Ht].
  exists (N.succ (brk σ)), (move_store σ h (members g)).
  split; [by eapply move_spec|].
  split; [by apply wf_fresh_None|].
  split.
  { destruct Hn as [Hn _ _ _ _ _ _], Hc as [Hh _ _ _ _ _ _].
    apply lifetime_at_Some in Hn, Hh. congruence. }
  assert (view (move_store σ h (members g)) (N.succ (brk σ)) =
          Some (mkGroup (value g) (N.succ (brk σ)) (mutator g)
                  ({[N.succ (brk σ)]} ∪ members g))) as Hv.
  { apply view_cells. eauto. }
  split; [done|]. split; [rewrite Hv; apply view_cells; eauto|].
  destruct Hc as [Hh _ _ _ _ _ _]. apply (wf_bound _ _ _ Hwf) in Hh. lia.
Qed.

(** C4: a handle that is owner and mutator at once keeps the mutator slot,
    and with it the right to write, after [move()]; nothing in [move()]
    mirrors the "Remove mutability" step of [move(Lifetime&)]. *)
Theorem move_keeps_the_mutator_slot σ this g v :
  wf_store σ → view σ this = Some g →
  owner g = this → mutator g = Some this →
  ∃ nw σ',
    move this σ = Ok nw σ' ∧
    view σ' this = Some (mkGroup (value g) nw (Some this) ({[nw]} ∪ members g)) ∧
    is_ok (set this v σ').
Proof.
  intros Hwf Hv Ho Hmu.
  destruct (move_transfers _ _ _ Hwf Hv Ho) as (nw & σ' & Hm & _ & _ & Hn & Ht & _).
  exists nw, σ'. rewrite Hmu in Hn. rewrite Hn in Ht.
  split; [done|]. split; [done|].
  apply view_cells in Ht as (h' & cur' & Hc').
  rewrite (set_spec _ _ _ _ _ v Hc'), decide_True; [done|by right].
Qed.

(** ** Releasing a mutable borrow *)

(** C3: the [LifetimeMutator] of a mutable borrow is built on a private
    cell (line 49), and that is the cell its destructor clears (line 232);
    the mutator cell of the group keeps the address of the deleted record,
    and the next [borrow_mutable] is refused. *)
Theorem mutable_borrow_is_never_released σ this g :
  wf_store σ → view σ this = Some g →
  owner g = this → this ∈ members g → mutator g = None →
  ∃ m σ1 σ2 cur,
    borrow_mutable this σ = Ok m σ1 ∧
    destroy m σ1 = Ok tt σ2 ∧
    slot σ2 this = Some cur ∧ cur ≠ nullptr ∧ obj_at σ2 cur = None ∧
    view σ2 this = None ∧
    borrow_mutable this σ2 = Throw AlreadyMutableBorrowed σ2.
Proof.
  intros Hwf (h & cur & Hc)%view_cells Ho Hin Hmu.
  pose proof Hc as [H1 H2 H3 H4 H5 H6 H7].
  rewrite Hmu in H7. apply mutator_view_None in H7 as ->.
  destruct (borrow_mutable_view _ _ _ _ Hwf Hc) as [Hn Ht].
  simpl in Hn, Ht.
  set (m := N.succ (brk σ)) in *.
  set (σ1 := borrow_mutable_store σ h (members g)) in *.
  bounds Hwf.
  assert (obj_at σ1 (N.succ m) =
          Some (OMutator (LifetimeMutator.mk m (N.succ (N.succ m))))) as Hlm.
  { unfold σ1, borrow_mutable_store, m; simpl. solve_at. }
  assert (obj_at σ1 (N.succ (N.succ m)) = Some (OSlot (N.succ m))) as Hacc.
  { unfold σ1, borrow_mutable_store, m; simpl. solve_at. }
  assert (unmutate_store σ1 m (N.succ m) =
          release_store σ1 (N.succ m) (N.succ (N.succ m))) as Hun.
  { unfold unmutate_store. apply mutator_at_Some in Hlm. rewrite Hlm; simpl.
    by rewrite bool_decide_eq_true_2. }
  pose proof (destroy_keep _ _ _ _ _ Hn) as Hd. simpl in Hd.
  rewrite Hun in Hd. unfold erase_store in Hd.
  rewrite bool_decide_eq_true_2 in Hd by set_solver.
  assert (m ≠ this) by (unfold m; lia).
  specialize (Hd ltac:(congruence) ltac:(set_solver)).
  destruct Hn as [N1 N2 N3 N4 N5 N6 N7], Ht as [T1 T2 T3 T4 T5 T6 T7].
  eexists m, σ1, _, (N.succ m).
  split; [by apply borrow_mutable_free|]. split; [exact Hd|].
  match goal with |- slot ?s _ = _ ∧ _ => set (σ2 := s) end.
  assert (obj_at σ2 this = Some (OLifetime h)) as S1.
  { unfold σ2, release_store, m in *. solve_at. }
  assert (obj_at σ2 (m_mutator h) = Some (OSlot (N.succ m))) as S2.
  { unfold σ2, release_store, m in *. solve_at. }
  assert (obj_at σ2 (N.succ m) = None) as S3.
  { unfold σ2, release_store, m in *. solve_at. }
  split; [apply slot_Some; eauto|]. split; [apply fresh_nonnull|].
  split; [done|]. split.
  - destruct (view σ2 this) as [g2|] eqn:Ev; [|done].
    apply view_cells in Ev as (h2 & cur2 & [V1 V2 V3 V4 V5 V6 V7]).
    assert (h2 = h) as -> by congruence.
    assert (cur2 = N.succ m) as -> by congruence.
    unfold mutator_view in V7. rewrite decide_False in V7 by apply fresh_nonnull.
    unfold mutator_at in V7. by rewrite S3 in V7.
  - eapply borrow_mutable_taken; [done..|apply fresh_nonnull].
Qed.

(** ** The invariant *)

Lemma shares_sym h1 h2 : shares h1 h2 → shares h2 h1.
Proof. unfold shares. intuition congruence. Qed.

Lemma group_ok_cells σ this h cur g :
  group_ok σ h cur g → obj_at σ this = Some (OLifetime h) →
  cells σ this h cur g.
Proof. intros [] Hh. by constructor. Qed.

Lemma mutator_view_frame σ σ' h cur mu :
  frame σ σ' h → mutator_view σ cur = Some mu → mutator_view σ' cur = Some mu.
Proof.
  intros Hf Hmu. destruct mu as [m|].
  - apply mutator_view_Some in Hmu as (_ & acc & q & Hl & Ha).
    apply (fr_mutator _ _ _ Hf) in Hl.
    destruct (fr_slot_kind _ _ _ Hf _ _ Ha) as [q' Ha'].
    by eapply mutator_view_intro.
  - by apply mutator_view_None in Hmu as ->.
Qed.

(** A call on one group keeps the invariant when it keeps that group in
    order. *)
Lemma inv_frame σ σ' h :
  inv σ → wf_store σ' → frame σ σ' h →
  (∀ x, obj_at σ' x = Some (OLifetime h) →
        ∃ cur g, group_ok σ' h cur g ∧ x ∈ members g) →
  (∀ y hy, obj_at σ y = Some (OLifetime hy) → shares hy h → hy = h) →
  inv σ'.
Proof.
  intros [Hwf Hh Hap] Hwf' Hf Hgrp Hnew. constructor; [done|..].
  - intros x hx Hx. destruct (decide (hx = h)) as [->|Hne]; [by apply Hgrp|].
    destruct (fr_old _ _ _ Hf _ _ Hx) as [?|Hold]; [done|].
    destruct (Hh _ _ Hold) as (cur & g & [G1 G2 G3 G4 G5 G6 G7 G8 G9] & Hin).
    assert (¬ shares hx h) as Hsh by (intros Hs; by apply (Hnew _ _ Hold) in Hs).
    unfold shares in Hsh.
    exists cur, g. split; [|done]. constructor; try done.
    + apply (fr_val _ _ _ Hf); [done|tauto].
    + apply (fr_owner _ _ _ Hf); [done|tauto].
    + apply (fr_slot _ _ _ Hf); [done|tauto].
    + by apply (fr_mutex _ _ _ Hf).
    + apply (fr_set _ _ _ Hf); [done|tauto].
    + by eapply mutator_view_frame.
    + intros y Hy. apply (fr_handle _ _ _ Hf); [by apply G8|done].
  - intros x hx y hy Hx Hy Hs.
    destruct (fr_old _ _ _ Hf _ _ Hx) as [->|Hxo];
      destruct (fr_old _ _ _ Hf _ _ Hy) as [->|Hyo]; try done.
    + symmetry. apply (Hnew _ _ Hyo). by apply shares_sym.
    + by apply (Hnew _ _ Hxo).
    + by eapply Hap.
Qed.

(** Two handles on the same cells see the same group. *)
Lemma group_ok_agree σ h c1 g1 c2 g2 :
  group_ok σ h c1 g1 → group_ok σ h c2 g2 → c1 = c2 ∧ g1 = g2.
Proof.
  intros [A1 A2 A3 A4 A5 A6 _ _ _] [B1 B2 B3 B4 B5 B6 _ _ _].
  assert (c1 = c2) as -> by congruence. split; [done|].
  destruct g1, g2; simpl in *. f_equal; congruence.
Qed.

Lemma inv_group σ this h cur g :
  inv σ → cells σ this h cur g → group_ok σ h cur g ∧ this ∈ members g.
Proof.
  intros [Hwf Hh Hap] [H1 H2 H3 H4 H5 H6 H7].
  destruct (Hh _ _ H1) as (cur' & g' & Hg & Hin).
  pose proof Hg as [G1 G2 G3 G4 G5 G6 G7 G8 G9].
  assert (cur' = cur) as -> by congruence.
  assert (g' = g) as ->; [|done].
  destruct g, g'; simpl in *. f_equal; congruence.
Qed.

Lemma inv_view σ this h :
  inv σ → obj_at σ this = Some (OLifetime h) →
  ∃ cur g, cells σ this h cur g ∧ group_ok σ h cur g ∧ this ∈ members g.
Proof.
  intros Hi Hh. destruct (inv_handles _ Hi _ _ Hh) as (cur & g & Hg & Hin).
  exists cur, g. split; [by apply group_ok_cells|done].
Qed.

Lemma inv_member σ x h cur g :
  inv σ → group_ok σ h cur g → obj_at σ x = Some (OLifetime h) →
  x ∈ members g.
Proof.
  intros Hi Hg Hx. destruct (inv_handles _ Hi _ _ Hx) as (cur' & g' & Hg' & Hin).
  by destruct (group_ok_agree _ _ _ _ _ _ Hg Hg') as [_ ->].
Qed.

(** An existing group shares cells with no other. *)
Lemma inv_apart_old σ this h :
  inv σ → obj_at σ this = Some (OLifetime h) →
  ∀ y hy, obj_at σ y = Some (OLifetime hy) → shares hy h → hy = h.
Proof. intros Hi Hh y hy Hy Hs. by eapply (inv_apart _ Hi). Qed.

Lemma inv_empty : inv (@empty_store T).
Proof.
  constructor; [apply wf_empty|..]; intros x hx; unfold obj_at, empty_store;
    simpl; case_decide; by rewrite ?lookup_empty.
Qed.

Lemma obj_at_upd_inv σ p q o o' :
  obj_at (upd p o σ) q = Some o' →
  (q = p ∧ o' = o) ∨ (q ≠ p ∧ obj_at σ q = Some o').
Proof.
  intros H. destruct (decide (p = q)) as [<-|Hne].
  - left. rewrite obj_at_upd_eq in H by by eapply obj_at_nonnull. naive_solver.
  - right. rewrite obj_at_upd_ne in H by done. naive_solver.
Qed.

Lemma obj_at_push_inv σ q o o' :
  obj_at (push o σ) q = Some o' →
  (q = N.succ (brk σ) ∧ o' = o) ∨ (q ≠ N.succ (brk σ) ∧ obj_at σ q = Some o').
Proof.
  intros H. destruct (decide (q = N.succ (brk σ))) as [->|Hne].
  - left. rewrite obj_at_push_eq in H. naive_solver.
  - right. by rewrite obj_at_push_ne in H.
Qed.

Lemma obj_at_del_inv σ p q o' :
  obj_at (del p σ) q = Some o' → q ≠ p ∧ obj_at σ q = Some o'.
Proof.
  intros H. destruct (decide (p = q)) as [<-|Hne].
  - by rewrite obj_at_del_eq in H.
  - by rewrite obj_at_del_ne in H.
Qed.

(** Unwinds a fact about an updated store to the store below. *)
Ltac unwind H :=
  repeat first
    [ apply obj_at_upd_inv in H as [[-> H]|[? H]]; [try discriminate H|]
    | apply obj_at_push_inv in H as [[-> H]|[? H]]; [try discriminate H|]
    | apply obj_at_del_inv in H as [? H] ].

(** A handle of the updated store is the new one or was there before. *)
Ltac old_or_new :=
  match goal with
  | H : obj_at _ _ = Some (OLifetime _) |- _ ∨ _ =>
      unwind H; first [ congruence | left; congruence | by right ]
  end.

(** *** Writing the value *)

Lemma inv_set σ this h cur g v :
  inv σ → cells σ this h cur g →
  inv (upd (m_T h) (OVal v) σ).
Proof.
  intros Hi Hc. pose proof Hc as [H1 H2 H3 H4 H5 H6 H7].
  destruct (inv_group _ _ _ _ _ Hi Hc) as [Hg Hin].
  pose proof Hg as [G1 G2 G3 G4 G5 G6 G7 G8 G9].
  assert (frame σ (upd (m_T h) (OVal v) σ) h) as Hf.
  { constructor; intros; try (eexists; solve_at); try solve_at.
    unwind H. by right. }
  apply (inv_frame σ _ h); try done.
  - apply wf_upd; [apply Hi|eauto].
  - intros x Hx. unwind Hx.
    exists cur, (mkGroup v (owner g) (mutator g) (members g)).
    split; [|simpl; by apply (inv_member σ x h cur g)].
    constructor; simpl; try done; try solve_at.
    + by eapply mutator_view_frame.
    + intros y Hy. pose proof (G8 _ Hy). solve_at.
  - by eapply inv_apart_old.
Qed.

(** *** A new handle joins the group *)

Lemma inv_join σ σ' this h cur g cur' g' :
  inv σ → cells σ this h cur g →
  wf_store σ' → frame σ σ' h →
  let nw := N.succ (brk σ) in
  obj_at σ' nw = Some (OLifetime h) →
  (∀ x, obj_at σ' x = Some (OLifetime h) →
        x = nw ∨ obj_at σ x = Some (OLifetime h)) →
  (∀ x, obj_at σ x = Some (OLifetime h) → obj_at σ' x = Some (OLifetime h)) →
  cells σ' nw h cur' g' →
  members g' = {[nw]} ∪ members g →
  owner g' = owner g ∨ owner g' = nw →
  (∀ m, mutator g' = Some m →
        (mutator g = Some m ∨ m = nw) ∧ m ≠ owner g') →
  inv σ'.
Proof.
  intros Hi Hc Hwf' Hf nw Hnw Hold Hkeep Hc' Hmem How Hmu.
  destruct (inv_group _ _ _ _ _ Hi Hc) as [Hg Hin].
  pose proof Hg as [G1 G2 G3 G4 G5 G6 G7 G8 G9].
  destruct Hc as [H1 _ _ _ _ _ _].
  apply (inv_frame σ _ h); try done; [|by eapply inv_apart_old].
  intros x Hx. exists cur', g'. split.
  - destruct Hc' as [C1 C2 C3 C4 C5 C6 C7]. constructor; try done.
    + rewrite Hmem. destruct How as [->| ->]; set_solver.
    + intros y. rewrite Hmem. intros [->%elem_of_singleton|Hy]%elem_of_union;
        [done|]. by apply Hkeep, G8.
    + intros m Hm. destruct (Hmu _ Hm) as [[Hm'| ->] Hne]; split; try done.
      * rewrite Hmem. apply G9 in Hm'. set_solver.
      * rewrite Hmem. set_solver.
  - rewrite Hmem. destruct (Hold _ Hx) as [->|Hx']; [set_solver|].
    apply elem_of_union_r. by eapply inv_member.
Qed.

Lemma inv_borrow σ this h cur g :
  inv σ → cells σ this h cur g → inv (borrow_store σ h (members g)).
Proof.
  intros Hi Hc. pose proof (inv_wf _ Hi) as Hwf.
  pose proof Hc as [H1 H2 H3 H4 H5 H6 H7]. bounds Hwf.
  assert (frame σ (borrow_store σ h (members g)) h) as Hf.
  { constructor; intros; bounds Hwf; unfold borrow_store in *; simpl in *;
      try (eexists; solve_at); try solve_at.
    old_or_new. }
  eapply (inv_join σ _ this h cur g cur
            (mkGroup (value g) (owner g) (mutator g)
                     ({[N.succ (brk σ)]} ∪ members g))); try done.
  - unfold borrow_store. apply wf_upd; [|live]. apply wf_upd; [|live].
    by apply wf_push.
  - unfold borrow_store; simpl; solve_at.
  - intros x Hx. unfold borrow_store in Hx; simpl in Hx. old_or_new.
  - intros x Hx. bounds Hwf. unfold borrow_store; simpl; solve_at.
  - constructor; simpl; try (unfold borrow_store; simpl; solve_at).
    by eapply mutator_view_frame.
  - by left.
  - simpl. intros m Hm. split; [by left|].
    destruct (inv_group _ _ _ _ _ Hi Hc) as [Hg _]. by apply (go_mutator_in _ _ _ _ Hg).
Qed.

Lemma inv_borrow_mutable σ this h g :
  inv σ → cells σ this h nullptr g →
  inv (borrow_mutable_store σ h (members g)).
Proof.
  intros Hi Hc. pose proof (inv_wf _ Hi) as Hwf.
  destruct (borrow_mutable_view _ _ _ _ Hwf Hc) as [Hn _]. simpl in Hn.
  destruct (inv_group _ _ _ _ _ Hi Hc) as [Hg Hin].
  pose proof Hc as [H1 H2 H3 H4 H5 H6 H7]. bounds Hwf.
  assert (frame σ (borrow_mutable_store σ h (members g)) h) as Hf.
  { constructor; intros; bounds Hwf; unfold borrow_mutable_store in *;
      simpl in *; try solve_at; try old_or_new.
    destruct (decide (q = m_mutator h)) as [->|]; eexists; solve_at. }
  eapply (inv_join σ _ this h nullptr g); try done.
  - unfold borrow_mutable_store.
    repeat (apply wf_upd; [|live]). by repeat apply wf_push.
  - by destruct Hn.
  - intros x Hx. unfold borrow_mutable_store in Hx; simpl in Hx. old_or_new.
  - intros x Hx. bounds Hwf. unfold borrow_mutable_store; simpl; solve_at.
  - by left.
  - simpl. intros m [= <-]. split; [by right|].
    pose proof (go_members _ _ _ _ Hg _ (go_owner_in _ _ _ _ Hg)) as Ho.
    apply (wf_bound _ _ _ Hwf) in Ho. lia.
Qed.

Lemma inv_move σ this h cur g :
  inv σ → cells σ this h cur g → inv (move_store σ h (members g)).
Proof.
  intros Hi Hc. pose proof (inv_wf _ Hi) as Hwf.
  destruct (move_cells _ _ _ _ _ Hwf Hc) as [Hn _]. simpl in Hn.
  destruct (inv_group _ _ _ _ _ Hi Hc) as [Hg Hin].
  pose proof Hc as [H1 H2 H3 H4 H5 H6 H7]. bounds Hwf.
  assert (frame σ (move_store σ h (members g)) h) as Hf.
  { constructor; intros; bounds Hwf; unfold move_store in *;
      simpl in *; try (eexists; solve_at); try solve_at; try old_or_new. }
  eapply (inv_join σ _ this h cur g); try done.
  - unfold move_store.
    repeat (apply wf_upd; [|live]). by repeat apply wf_push.
  - by destruct Hn.
  - intros x Hx. unfold move_store in Hx; simpl in Hx. old_or_new.
  - intros x Hx. bounds Hwf. unfold move_store; simpl; solve_at.
  - by right.
  - simpl. intros m Hm. split; [by left|].
    destruct (go_mutator_in _ _ _ _ Hg _ Hm) as [Hmin _].
    pose proof (go_members _ _ _ _ Hg _ Hmin) as Ho.
    apply (wf_bound _ _ _ Hwf) in Ho. lia.
Qed.

(** *** A new group *)

Lemma inv_from σ v : inv σ → inv (from_store σ v).
Proof.
  intros Hi. pose proof (inv_wf _ Hi) as Hwf.
  set (h := from_Lifetime (brk σ)).
  pose proof (from_cells σ v) as Hc. simpl in Hc. fold h in Hc.
  assert (∀ y hy, obj_at σ y = Some (OLifetime hy) → ¬ shares hy h) as Hsh.
  { intros y hy Hy Hs. destruct (inv_handles _ Hi _ _ Hy) as (c & gy & Hg & _).
    destruct Hg as [G1 G2 G3 G4 G5 _ _ _ _]. bounds Hwf.
    unfold shares, h, from_Lifetime in Hs; simpl in Hs. lia. }
  assert (frame σ (from_store σ v) h) as Hf.
  { constructor; intros; try (eexists; by apply from_store_extends);
      try by apply from_store_extends.
    unfold h, from_store in *; simpl in *. old_or_new. }
  apply (inv_frame σ _ h); try done.
  - unfold from_store.
    repeat (apply wf_upd; [|live]). by repeat apply wf_push.
  - intros x Hx.
    assert (x = N.succ (N.succ (brk σ))) as ->.
    { unfold from_store in Hx; simpl in Hx. unwind Hx; try done.
      exfalso. eapply Hsh; [done|]. by left. }
    eexists _, _. split.
    + destruct Hc as [C1 C2 C3 C4 C5 C6 C7].
      constructor; try done; simpl.
      * set_solver.
      * by intros y ->%elem_of_singleton.
    + simpl. set_solver.
  - intros y hy Hy Hs. by apply (Hsh _ _ Hy) in Hs.
Qed.

(** *** A handle goes *)

Lemma unmutate_store_other σ this cur g :
  mutator_view σ cur = Some (mutator g) → mutator g ≠ Some this →
  unmutate_store σ this cur = σ.
Proof.
  intros Hmu Hne. unfold unmutate_store. destruct (mutator g) as [m|].
  - apply mutator_view_Some in Hmu as (_ & acc & q & Hl%mutator_at_Some & _).
    rewrite Hl; simpl. rewrite bool_decide_eq_false_2; [done|congruence].
  - apply mutator_view_None in Hmu as ->. by rewrite mutator_at_null.
Qed.

Lemma inv_destroy_keep σ this h cur g :
  inv σ → cells σ this h cur g →
  mutator g ≠ Some this → owner g ≠ this →
  inv (del this (upd this (OLifetime (reset_Lifetime h))
         (upd (m_refs h) (OSet (members g ∖ {[this]})) σ))).
Proof.
  intros Hi Hc Hmu How. pose proof (inv_wf _ Hi) as Hwf.
  destruct (inv_group _ _ _ _ _ Hi Hc) as [Hg Hin].
  pose proof Hg as [G1 G2 G3 G4 G5 G6 G7 G8 G9].
  pose proof Hc as [H1 _ _ _ _ _ _].
  match goal with |- inv ?s => set (σ' := s) end.
  assert (frame σ σ' h) as Hf.
  { constructor; intros; unfold σ' in *;
      try (eexists; solve_at); try solve_at; try old_or_new. }
  apply (inv_frame σ _ h); try done; [| |by eapply inv_apart_old].
  - unfold σ'. apply wf_del. apply wf_upd; [|live]. apply wf_upd; [done|live].
  - intros x Hx.
    assert (x ≠ this ∧ obj_at σ x = Some (OLifetime h)) as [Hxt Hxo].
    { unfold σ' in Hx. unwind Hx; try done; try congruence. }
    exists cur, (mkGroup (value g) (owner g) (mutator g) (members g ∖ {[this]})).
    split.
    + constructor; simpl; try (unfold σ'; solve_at).
      * by eapply mutator_view_frame.
      * set_solver.
      * intros y [Hy Hyt%not_elem_of_singleton]%elem_of_difference.
        pose proof (G8 _ Hy). unfold σ'. solve_at.
      * intros m Hm. destruct (G9 _ Hm). split; [|done].
        apply elem_of_difference. split; [done|].
        apply not_elem_of_singleton. congruence.
    + simpl. apply elem_of_difference. split; [by eapply inv_member|].
      by apply not_elem_of_singleton.
Qed.

Lemma inv_destroy_last σ this h cur g :
  inv σ → cells σ this h cur g →
  mutator g ≠ Some this → members g ∖ {[this]} = ∅ →
  inv (del this (upd this (OLifetime (reset_Lifetime h))
         (teardown_store
            (upd (m_refs h) (OSet ∅)
               (upd (m_refs h) (OSet (members g ∖ {[this]})) σ)) h))).
Proof.
  intros Hi Hc Hmu He. pose proof (inv_wf _ Hi) as Hwf.
  destruct (inv_group _ _ _ _ _ Hi Hc) as [Hg Hin].
  pose proof Hg as [G1 G2 G3 G4 G5 G6 G7 G8 G9].
  pose proof Hc as [H1 _ _ _ _ _ _].
  match goal with |- inv ?s => set (σ' := s) end.
  assert (this ≠ m_T h ∧ this ≠ m_owner h ∧ this ≠ m_refs h) as (?&?&?)
    by (repeat split; congruence).
  assert (m_T h ≠ m_owner h ∧ m_T h ≠ m_refs h ∧ m_owner h ≠ m_refs h)
    as (?&?&?) by (repeat split; congruence).
  assert (frame σ σ' h) as Hf.
  { constructor; intros; unfold σ', teardown_store in *;
      try (eexists; solve_at); try solve_at; try old_or_new. }
  apply (inv_frame σ _ h); try done; [| |by eapply inv_apart_old].
  - unfold σ', teardown_store. apply wf_del. apply wf_upd; [|live].
    repeat apply wf_del. apply wf_upd; [|live]. apply wf_upd; [done|live].
  - intros x Hx. exfalso.
    assert (x ≠ this ∧ obj_at σ x = Some (OLifetime h)) as [Hxt Hxo].
    { unfold σ', teardown_store in Hx. unwind Hx; try done; try congruence. }
    assert (x ∈ members g) by by eapply inv_member.
    set_solver.
Qed.

(** *** Every call *)

Lemma bind_load_this_dead {B} this (k : Lifetime → M T B) σ :
  lifetime_at σ this = None → bind (load_this this) k σ = Undef.
Proof. apply (bind_lift_None (λ σ, lifetime_at σ this)). Qed.

Lemma after_readonly c σ σ' :
  readonly (perform c) → after c σ = Some σ' → σ' = σ.
Proof.
  intros Hr. specialize (Hr σ). unfold after.
  destruct (perform c σ); [| |done]; intros [= <-]; done.
Qed.

Lemma readonly_get this : readonly (perform (@Cget T this)).
Proof. unfold perform, get, load_this, load_val. effects. Qed.
Lemma readonly_get_mutable this : readonly (perform (@Cget_mutable T this)).
Proof.
  unfold perform, get_mutable, load_this, load_owner, load_val, scoped_lock.
  effects.
Qed.
Lemma readonly_is_owner this : readonly (perform (@Cis_owner T this)).
Proof. unfold perform, is_owner, load_this, load_owner. effects. Qed.
Lemma readonly_is_mutator this : readonly (perform (@Cis_mutator T this)).
Proof.
  unfold perform, is_mutator, load_this, load_slot, load_mutator. effects.
Qed.

(** A live handle and its group, or no defined behaviour. *)
Ltac on_handle Hi σ this :=
  let h := fresh "h" in
  let E := fresh "E" in
  destruct (lifetime_at σ this) as [h|] eqn:E;
  [ apply lifetime_at_Some in E;
    let cur := fresh "cur" in
    let g := fresh "g" in
    let Hc := fresh "Hc" in
    let Hg := fresh "Hg" in
    let Hin := fresh "Hin" in
    destruct (inv_view _ _ _ Hi E) as (cur & g & Hc & Hg & Hin)
  | unfold after, perform, clone, set, borrow, borrow_mutable, move, move_to,
      destroy, Lifetime_dtor;
    rewrite ?bind_assoc, bind_load_this_dead by done; done ].

Lemma inv_step σ c σ' :
  inv σ → quiet σ c = true → after c σ = Some σ' → inv σ'.
Proof.
  intros Hi Hq. pose proof (inv_wf _ Hi) as Hwf.
  destruct c as [v|this|this|this v|this|this|this|this|this|this|this other|this].
  - unfold after, perform, bind. rewrite from_spec. intros [= <-].
    by apply inv_from.
  - on_handle Hi σ this. destruct Hc as [H1 H2 H3 H4 H5 H6 H7].
    unfold after, perform, bind. erewrite clone_spec by done. intros [= <-].
    by apply inv_from.
  - by intros ->%after_readonly; [|apply readonly_get].
  - on_handle Hi σ this. unfold after, perform.
    rewrite (set_spec _ _ _ _ _ v Hc). case_decide; intros [= <-]; [|done].
    by eapply inv_set.
  - by intros ->%after_readonly; [|apply readonly_get_mutable].
  - on_handle Hi σ this. unfold after, perform, bind.
    rewrite (borrow_spec _ _ _ _ _ Hwf Hc). intros [= <-].
    by eapply inv_borrow.
  - on_handle Hi σ this. unfold after, perform, bind.
    destruct (decide (cur = nullptr)) as [->|Hn].
    + rewrite (borrow_mutable_free _ _ _ _ Hwf Hc). intros [= <-].
      by eapply inv_borrow_mutable.
    + destruct Hc as [H1 H2 H3 H4 H5 H6 H7].
      rewrite (borrow_mutable_taken _ _ _ _ H1 H4 Hn). by intros [= <-].
  - by intros ->%after_readonly; [|apply readonly_is_owner].
  - by intros ->%after_readonly; [|apply readonly_is_mutator].
  - on_handle Hi σ this. unfold after, perform, bind.
    destruct (decide (owner g = this)) as [Ho|Ho].
    + rewrite (move_spec _ _ _ _ _ Hwf Hc Ho). intros [= <-].
      by eapply inv_move.
    + rewrite (move_refused _ _ g); [by intros [= <-]| |done].
      apply view_cells. eauto.
  - on_handle Hi σ this. unfold after, perform.
    rewrite (move_to_spec _ _ _ _ _ _ Hc). by intros [= <-].
  - on_handle Hi σ this.
    simpl in Hq.
    assert (view σ this = Some g) as Hv by (apply view_cells; eauto).
    rewrite Hv in Hq.
    apply andb_true_iff in Hq as [Hmu%negb_true_iff%bool_decide_eq_false Hq].
    unfold after, perform.
    destruct (decide (members g ∖ {[this]} = ∅)) as [He|Hne].
    + pose proof (destroy_last _ _ _ _ _ Hc He) as Hd. simpl in Hd.
      rewrite Hd. intros [= <-].
      rewrite (unmutate_store_other _ _ _ g) by (done || apply Hc).
      assert (owner g = this) as Ho.
      { destruct (decide (owner g = this)); [done|].
        pose proof (go_owner_in _ _ _ _ Hg). set_solver. }
      rewrite Ho, ptr_eqb_refl. unfold erase_store.
      rewrite bool_decide_eq_true_2 by done.
      by eapply inv_destroy_last.
    + apply orb_true_iff in Hq as [Ho%negb_true_iff%bool_decide_eq_false|He];
        [|by apply bool_decide_eq_true in He].
      rewrite (destroy_keep _ _ _ _ _ Hc Ho Hne). intros [= <-].
      rewrite (unmutate_store_other _ _ _ g) by (done || apply Hc).
      unfold erase_store. rewrite bool_decide_eq_true_2 by done.
      by eapply inv_destroy_keep.
Qed.

Lemma inv_run_quiet cs σ σ' : inv σ → run_quiet cs σ = Some σ' → inv σ'.
Proof.
  revert σ. induction cs as [|c cs IH]; intros σ Hi; simpl.
  - by intros [= <-].
  - destruct (quiet σ c) eqn:Hq; [|done].
    destruct (after c σ) as [σ1|] eqn:Ha; [|done]. simpl.
    apply IH. by eapply inv_step.
Qed.

(** * Further properties of the header *)

(** ** What a call on one group leaves alone *)

Lemma frame_set σ this h cur g v :
  cells σ this h cur g → frame σ (upd (m_T h) (OVal v) σ) h.
Proof.
  intros [H1 H2 H3 H4 H5 H6 H7].
  constructor; intros; try (eexists; solve_at); try solve_at.
  old_or_new.
Qed.

Lemma frame_borrow σ this h cur g :
  wf_store σ → cells σ this h cur g →
  frame σ (borrow_store σ h (members g)) h.
Proof.
  intros Hwf [H1 H2 H3 H4 H5 H6 H7].
  constructor; intros; bounds Hwf; unfold borrow_store in *; simpl in *;
    try (eexists; solve_at); try solve_at.
  old_or_new.
Qed.

Lemma frame_borrow_mutable σ this h cur g :
  wf_store σ → cells σ this h cur g →
  frame σ (borrow_mutable_store σ h (members g)) h.
Proof.
  intros Hwf [H1 H2 H3 H4 H5 H6 H7].
  constructor; intros; bounds Hwf; unfold borrow_mutable_store in *;
    simpl in *; try solve_at; try old_or_new.
  destruct (decide (q = m_mutator h)) as [->|]; eexists; solve_at.
Qed.

Lemma frame_move σ this h cur g :
  wf_store σ → cells σ this h cur g →
  frame σ (move_store σ h (members g)) h.
Proof.
  intros Hwf [H1 H2 H3 H4 H5 H6 H7].
  constructor; intros; bounds Hwf; unfold move_store in *;
    simpl in *; try (eexists; solve_at); try solve_at; try old_or_new.
Qed.

Lemma frame_from σ v :
  wf_store σ → frame σ (from_store σ v) (from_Lifetime (brk σ)).
Proof.
  intros Hwf.
  constructor; intros; try (eexists; by apply from_store_extends);
    try by apply from_store_extends.
  unfold from_store in *; simpl in *. old_or_new.
Qed.

(** A handle on other cells sees after the call what it saw before. *)
Lemma frame_cells σ σ' h x hx cur g :
  frame σ σ' h → cells σ x hx cur g → ¬ shares hx h → hx ≠ h →
  cells σ' x hx cur g.
Proof.
  intros Hf [H1 H2 H3 H4 H5 H6 H7] Hsh Hne. unfold shares in Hsh.
  constructor.
  - by apply (fr_handle _ _ _ Hf).
  - apply (fr_val _ _ _ Hf); [done|tauto].
  - apply (fr_owner _ _ _ Hf); [done|tauto].
  - apply (fr_slot _ _ _ Hf); [done|tauto].
  - by apply (fr_mutex _ _ _ Hf).
  - apply (fr_set _ _ _ Hf); [done|tauto].
  - by eapply mutator_view_frame.
Qed.

(** ** Writing and reading *)

Lemma cells_set σ this x h cur g v :
  cells σ this h cur g → obj_at σ x = Some (OLifetime h) →
  cells (upd (m_T h) (OVal v) σ) x h cur
        (mkGroup v (owner g) (mutator g) (members g)).
Proof.
  intros Hc Hx. pose proof (frame_set _ _ _ _ _ v Hc) as Hf.
  destruct Hc as [H1 H2 H3 H4 H5 H6 H7].
  constructor; simpl; try solve_at. by eapply mutator_view_frame.
Qed.

(** X1: a value written through a handle that may write is what every
    handle of the group reads afterwards, the writer included; owner,
    mutator and members stay as they were. *)
Theorem written_value_is_read_by_every_member σ this x h g v :
  lifetime_at σ this = Some h → lifetime_at σ x = Some h →
  view σ this = Some g → writable g this →
  ∃ σ',
    set this v σ = Ok tt σ' ∧
    get this σ' = Ok v σ' ∧ get x σ' = Ok v σ' ∧
    view σ' x = Some (mkGroup v (owner g) (mutator g) (members g)).
Proof.
  intros Hh%lifetime_at_Some Hx%lifetime_at_Some (h' & cur & Hc)%view_cells Hw.
  pose proof Hc as [H1 H2 H3 H4 H5 H6 H7].
  assert (h' = h) as -> by congruence.
  exists (upd (m_T h) (OVal v) σ).
  rewrite (set_spec _ _ _ _ _ v Hc), decide_True by done.
  pose proof (cells_set _ _ _ _ _ _ v Hc Hh) as [T1 T2 _ _ _ _ _].
  pose proof (cells_set _ _ _ _ _ _ v Hc Hx) as Hcx.
  pose proof Hcx as [X1 X2 _ _ _ _ _].
  split; [done|]. split; [by eapply get_spec|]. split; [by eapply get_spec|].
  apply view_cells. eauto.
Qed.

(** ** Shared borrows *)

Lemma borrow_cells σ this h cur g :
  wf_store σ → cells σ this h cur g →
  let nw := N.succ (brk σ) in
  let g' := mkGroup (value g) (owner g) (mutator g) ({[nw]} ∪ members g) in
  cells (borrow_store σ h (members g)) nw h cur g' ∧
  cells (borrow_store σ h (members g)) this h cur g'.
Proof.
  intros Hwf Hc nw g'. pose proof (frame_borrow _ _ _ _ _ Hwf Hc) as Hf.
  pose proof Hc as [H1 H2 H3 H4 H5 H6 H7]. bounds Hwf.
  split; constructor; simpl; try (unfold borrow_store; simpl; solve_at);
    by eapply mutator_view_frame.
Qed.

(** X2: [borrow] never throws; it returns a handle that did not exist, on
    the cells of the handle it was called on, which joins the member set
    and changes nothing else of the group.  Where owner and mutator are live
    handles, the new handle reads the value of the group but is not its
    owner and is refused every write. *)
Theorem borrow_adds_a_reader σ this g :
  wf_store σ → view σ this = Some g →
  is_Some (lifetime_at σ (owner g)) →
  (∀ m, mutator g = Some m → is_Some (lifetime_at σ m)) →
  ∃ b σ',
    borrow this σ = Ok b σ' ∧
    obj_at σ b = None ∧
    lifetime_at σ' b = lifetime_at σ this ∧
    view σ' b = Some (mkGroup (value g) (owner g) (mutator g)
                              ({[b]} ∪ members g)) ∧
    view σ' this = view σ' b ∧
    get b σ' = Ok (value g) σ' ∧
    is_owner b σ' = Ok false σ' ∧
    ∀ v, set b v σ' = Throw NotWritable σ' ∧
         get_mutable b σ' = Throw NotWritable σ'.
Proof.
  intros Hwf (h & cur & Hc)%view_cells [ho Ho%lifetime_at_Some] Hmu.
  destruct (borrow_cells _ _ _ _ _ Hwf Hc) as [Hn Ht]. simpl in Hn, Ht.
  set (b := N.succ (brk σ)) in *.
  set (σ' := borrow_store σ h (members g)) in *.
  assert (view σ' b = Some (mkGroup (value g) (owner g) (mutator g)
                              ({[b]} ∪ members g))) as Hv
    by (apply view_cells; eauto).
  assert (owner g ≠ b) as Hob.
  { apply (wf_bound _ _ _ Hwf) in Ho. unfold b. lia. }
  assert (mutator g ≠ Some b) as Hmb.
  { intros Hm. destruct (Hmu _ Hm) as [hm Hl%lifetime_at_Some].
    apply (wf_bound _ _ _ Hwf) in Hl. unfold b in Hl. lia. }
  exists b, σ'. split; [by eapply borrow_spec|].
  split; [by apply wf_fresh_None|]. split.
  { destruct Hn as [Hn _ _ _ _ _ _], Hc as [Hh _ _ _ _ _ _].
    apply lifetime_at_Some in Hn, Hh. congruence. }
  split; [done|]. split; [rewrite Hv; apply view_cells; eauto|].
  split; [destruct Hn; by eapply get_spec|].
  split.
  { rewrite (is_owner_spec _ _ _ Hv). simpl.
    by rewrite bool_decide_eq_false_2. }
  intros v.
  rewrite (set_spec _ _ _ _ _ v Hn), (get_mutable_spec _ _ _ _ _ Hn).
  case_decide as Hw; [|done]. unfold writable in Hw; simpl in Hw.
  naive_solver.
Qed.

(** ** Moving ownership *)

(** X3: after [n = a.move()] by the owner [a] (not holding the mutator
    slot), [n] answers [is_owner] with true and [a] with false; every write
    through [a] is refused with "not writable" and leaves the store as it
    was, while a write through [n] is accepted and read back through [a]. *)
Theorem move_strips_write_from_the_old_owner σ this g :
  wf_store σ → view σ this = Some g →
  owner g = this → mutator g ≠ Some this →
  ∃ n σ',
    move this σ = Ok n σ' ∧
    is_owner n σ' = Ok true σ' ∧
    is_owner this σ' = Ok false σ' ∧
    ∀ v, set this v σ' = Throw NotWritable σ' ∧
         ∃ σ'', set n v σ' = Ok tt σ'' ∧ get this σ'' = Ok v σ''.
Proof.
  intros Hwf Hv Ho Hmu. pose proof Hv as (h & cur & Hc)%view_cells.
  destruct (move_cells _ _ _ _ _ Hwf Hc) as [Hn Ht]. simpl in Hn, Ht.
  set (n := N.succ (brk σ)) in *.
  set (σ' := move_store σ h (members g)) in *.
  assert (n ≠ this) as Hne.
  { destruct Hc as [Hh _ _ _ _ _ _]. apply (wf_bound _ _ _ Hwf) in Hh.
    unfold n. lia. }
  assert (view σ' n = Some (mkGroup (value g) n (mutator g) ({[n]} ∪ members g)))
    as Hvn by (apply view_cells; eauto).
  assert (view σ' this = Some (mkGroup (value g) n (mutator g) ({[n]} ∪ members g)))
    as Hvt by (apply view_cells; eauto).
  exists n, σ'. split; [by eapply move_spec|].
  split; [rewrite (is_owner_spec _ _ _ Hvn); simpl; by rewrite bool_decide_eq_true_2|].
  split; [rewrite (is_owner_spec _ _ _ Hvt); simpl; by rewrite bool_decide_eq_false_2|].
  intros v. split.
  - rewrite (set_spec _ _ _ _ _ v Ht), decide_False; [done|].
    unfold writable; simpl. naive_solver.
  - rewrite (set_spec _ _ _ _ _ v Hn), decide_True by (by left).
    eexists. split; [done|].
    destruct Ht as [T1 _ _ _ _ _ _].
    pose proof (cells_set _ _ _ _ _ _ v Hn T1) as [C1 C2 _ _ _ _ _].
    by eapply get_spec.
Qed.

(** ** Mutable borrows *)

(** X4: a mutable borrow [m = a.borrow_mutable()] from a group without
    mutator gives a handle that answers [is_mutator] with true, while [a]
    answers false; a write through [m] is accepted, whoever owns the group,
    and is read back through [a]; the owner keeps its own right to write. *)
Theorem mutable_borrow_grants_write σ this g :
  wf_store σ → view σ this = Some g → mutator g = None →
  ∃ m σ1,
    borrow_mutable this σ = Ok m σ1 ∧
    is_mutator m σ1 = Ok true σ1 ∧
    is_mutator this σ1 = Ok false σ1 ∧
    ∀ v, ∃ σ2,
      set m v σ1 = Ok tt σ2 ∧
      get this σ2 = Ok v σ2 ∧ get m σ2 = Ok v σ2 ∧
      (owner g = this → ∀ v', is_ok (set this v' σ2)).
Proof.
  intros Hwf (h & cur & Hc)%view_cells Hmu.
  pose proof Hc as [H1 H2 H3 H4 H5 H6 H7].
  rewrite Hmu in H7. apply mutator_view_None in H7 as ->.
  destruct (borrow_mutable_view _ _ _ _ Hwf Hc) as [Hn Ht]. simpl in Hn, Ht.
  set (m := N.succ (brk σ)) in *.
  set (σ1 := borrow_mutable_store σ h (members g)) in *.
  assert (m ≠ this) as Hne.
  { apply (wf_bound _ _ _ Hwf) in H1. unfold m. lia. }
  assert (view σ1 m = Some (mkGroup (value g) (owner g) (Some m) ({[m]} ∪ members g)))
    as Hvm by (apply view_cells; eauto).
  assert (view σ1 this = Some (mkGroup (value g) (owner g) (Some m) ({[m]} ∪ members g)))
    as Hvt by (apply view_cells; eauto).
  exists m, σ1. split; [by apply borrow_mutable_free|].
  split; [rewrite (is_mutator_spec _ _ _ m Hvm) by done; by rewrite bool_decide_eq_true_2|].
  split; [rewrite (is_mutator_spec _ _ _ m Hvt) by done; by rewrite bool_decide_eq_false_2|].
  intros v. rewrite (set_spec _ _ _ _ _ v Hn), decide_True by (by right).
  eexists. split; [done|].
  destruct Hn as [N1 _ _ _ _ _ _]. pose proof Ht as [T1 _ _ _ _ _ _].
  pose proof (cells_set _ _ _ _ _ _ v Ht T1) as Hct.
  pose proof (cells_set _ _ _ _ _ _ v Ht N1) as Hcm.
  split; [destruct Hct; by eapply get_spec|].
  split; [destruct Hcm; by eapply get_spec|].
  intros Ho v'. rewrite (set_spec _ _ _ _ _ v' Hct), decide_True; [done|].
  by left.
Qed.

(** ** Exceptions *)

Local Abbreviation throws_only := (@throws_only T _).

Lemma throws_only_no_throw {A} e (c : M T A) : no_throw c → throws_only e c.
Proof. intros Hc σ e' σ' H. by apply Hc in H. Qed.

Lemma throws_only_bind {A B} e (c : M T A) (k : A → M T B) :
  throws_only e c → (∀ a, throws_only e (k a)) → throws_only e (bind c k).
Proof.
  intros Hc Hk σ e' σ'. unfold bind. destruct (c σ) as [a σ1|e1 σ1|] eqn:E.
  - apply Hk.
  - intros [= <- <-]. by eapply Hc.
  - done.
Qed.

Lemma throws_only_throw {A} e : throws_only e (@throw T A e).
Proof. by intros σ e' σ' [= <- _]. Qed.

(** Reads and writes throw nothing; what is left is the one [throw]. *)
Ltac one_throw :=
  repeat first
    [ progress intros
    | apply throws_only_throw
    | apply throws_only_no_throw;
      first [ apply no_throw_ret | apply no_throw_undef | apply no_throw_lift
            | apply no_throw_new | apply no_throw_assert
            | apply no_throw_assign | apply no_throw_free
            | apply no_throw_holds_mutator
            | apply no_throw_delete_LifetimeMutator
            | apply no_throw_Lifetime_ctor ]
    | apply throws_only_bind
    | match goal with
      | |- throws_only _ (if ?b then _ else _) => destruct b
      end ].

Lemma throws_only_Lifetime_dtor this :
  throws_only OwnerDropped (@Lifetime_dtor T this).
Proof.
  unfold Lifetime_dtor, load_this, load_set, load_owner, load_slot, when.
  one_throw.
Qed.

(** X5: the members declared [noexcept] ([from], [get], [borrow], [clone],
    [is_mutator], [is_owner]) leave by no exception, in any store, and each
    of the others by one only: [set] and [get_mutable] by "not writable",
    [borrow_mutable] by "already mutable borrowed", [move()] by "not owner",
    the destructor by "owner freed but references still exist". *)
Theorem members_throw_their_own_error_only this v :
  (no_throw (from v) ∧ no_throw (get this) ∧ no_throw (borrow this) ∧
   no_throw (clone this) ∧ no_throw (is_mutator this) ∧
   no_throw (is_owner this)) ∧
  throws_only NotWritable (set this v) ∧
  throws_only NotWritable (get_mutable this) ∧
  throws_only AlreadyMutableBorrowed (borrow_mutable this) ∧
  throws_only NotOwner (move this) ∧
  throws_only OwnerDropped (destroy this).
Proof.
  split; [repeat split|repeat split].
  - apply no_throw_from.
  - unfold get, load_this, load_val. effects.
  - unfold borrow, load_this.
    apply no_throw_bind; [apply no_throw_lift|intros h].
    apply no_throw_Lifetime_ctor.
  - unfold clone, load_this, load_val.
    apply no_throw_bind; [apply no_throw_lift|intros h].
    apply no_throw_bind; [apply no_throw_lift|intros x].
    apply no_throw_from.
  - unfold is_mutator, load_this, load_slot, load_mutator. effects.
  - unfold is_owner, load_this, load_owner. effects.
  - unfold set, load_this, load_owner, scoped_lock. one_throw.
  - unfold get_mutable, load_this, load_owner, load_val, scoped_lock. one_throw.
  - unfold borrow_mutable, load_this, load_slot. one_throw.
  - unfold move, load_this, load_owner. one_throw.
  - intros σ e' σ'. unfold destroy.
    destruct (Lifetime_dtor this σ) as [[] σ1|e1 σ1|] eqn:E; [| |done].
    + intros H. by apply no_throw_free in H.
    + destruct (free this σ1) as [[] σ2|e2 σ2|]; [|done..].
      intros [= <- _]. by eapply throws_only_Lifetime_dtor.
Qed.

(** X6: [get], [get_mutable], [is_owner] and [is_mutator] change nothing:
    whether they return or throw, the store after the call is the store
    before it. *)
Theorem observers_leave_the_store this :
  readonly (get this) ∧ readonly (get_mutable this) ∧
  readonly (is_owner this) ∧ readonly (is_mutator this).
Proof.
  repeat split.
  - unfold get, load_this, load_val. effects.
  - unfold get_mutable, load_this, load_owner, load_val, scoped_lock. effects.
  - unfold is_owner, load_this, load_owner. effects.
  - unfold is_mutator, load_this, load_slot, load_mutator. effects.
Qed.

(** ** Release *)

(** X7: when the last member of a group goes, the destructor returns
    normally and deletes the value, the owner cell and the member set
    (lines 88-90), but neither the mutex nor the mutator cell: both are
    still allocated afterwards. *)
Theorem release_leaves_mutex_and_mutator_cell σ this h g :
  lifetime_at σ this = Some h → view σ this = Some g →
  members g ∖ {[this]} = ∅ →
  ∃ σ',
    destroy this σ = Ok tt σ' ∧
    obj_at σ' this = None ∧ obj_at σ' (m_T h) = None ∧
    obj_at σ' (m_owner h) = None ∧ obj_at σ' (m_refs h) = None ∧
    mutex_at σ' (m_mutex h) = Some tt ∧
    is_Some (slot_at σ' (m_mutator h)).
Proof.
  intros Hh%lifetime_at_Some (h' & cur & Hc)%view_cells He.
  pose proof Hc as [H1 H2 H3 H4 H5 H6 H7].
  assert (h' = h) as -> by congruence.
  destruct (Lifetime_dtor_prefix _ _ _ _ _ Hc) as [_ Hp].
  pose proof (erase_store_refs _ _ _ _ _ _ Hp) as [E1 E2 E3 E4].
  assert (obj_at (erase_store (unmutate_store σ this cur) h (members g) this)
                 (m_mutex h) = Some OMutex) as E5.
  { assert (obj_at (unmutate_store σ this cur) (m_mutex h) = Some OMutex)
      by (eapply unmutate_store_frame; eauto; congruence).
    unfold erase_store. case_bool_decide; solve_at. }
  assert (∃ y, obj_at (erase_store (unmutate_store σ this cur) h (members g) this)
                 (m_mutator h) = Some (OSlot y)) as [y E6].
  { assert (∃ y, obj_at (unmutate_store σ this cur) (m_mutator h) = Some (OSlot y))
      as [y Hy].
    { unfold unmutate_store. destruct (mutator_at σ cur) as [[m acc]|] eqn:El;
        [|by eauto]. simpl. case_bool_decide; [|by eauto].
      apply mutator_at_Some in El. unfold release_store.
      destruct (decide (acc = m_mutator h)) as [->|]; eexists; solve_at. }
    exists y. unfold erase_store. case_bool_decide; solve_at. }
  rewrite (destroy_last _ _ _ _ _ Hc He). eexists. split; [done|].
  unfold teardown_store.
  assert (this ≠ m_T h ∧ this ≠ m_owner h ∧ this ≠ m_refs h) as (?&?&?)
    by (repeat split; congruence).
  assert (m_T h ≠ m_owner h ∧ m_T h ≠ m_refs h ∧ m_owner h ≠ m_refs h)
    as (?&?&?) by (repeat split; congruence).
  split; [apply obj_at_del_eq|].
  split; [solve_at|]. split; [solve_at|]. split; [solve_at|].
  split.
  - apply (mutex_at_Some _ _ tt).
    destruct (ptr_eqb this (owner g)); solve_at.
  - exists y. apply slot_at_Some.
    destruct (ptr_eqb this (owner g)); solve_at.
Qed.

(** ** The reference [get_mutable] returns *)

(** X8: for a handle that may write, [get_mutable] returns the address of
    the value of the group: it holds what [get] returns, and a value stored
    through it is what every handle of the group reads next. *)
Theorem get_mutable_refers_to_the_shared_value σ this x g :
  view σ this = Some g → writable g this →
  lifetime_at σ x = lifetime_at σ this →
  ∃ p,
    get_mutable this σ = Ok p σ ∧
    val_at σ p = Some (value g) ∧
    get x σ = Ok (value g) σ ∧
    ∀ v, ∃ σ', assign p (OVal v) σ = Ok tt σ' ∧ get x σ' = Ok v σ'.
Proof.
  intros (h & cur & Hc)%view_cells Hw Hx.
  pose proof Hc as [H1 H2 H3 H4 H5 H6 H7].
  rewrite (proj2 (lifetime_at_Some _ _ _) H1) in Hx. apply lifetime_at_Some in Hx.
  exists (m_T h). rewrite (get_mutable_spec _ _ _ _ _ Hc), decide_True by done.
  split; [done|]. split; [by apply val_at_Some|].
  split; [by eapply get_spec|]. intros v. eexists.
  split; [apply run_assign; eauto|].
  pose proof (cells_set _ _ _ _ _ _ v Hc Hx) as [C1 C2 _ _ _ _ _].
  by eapply get_spec.
Qed.

(** ** The public constructor *)

(** On cells of its own the constructor allocates after it has written:
    the addresses are compared with [brk] taken through both. *)
Ltac ne ::=
  repeat first [rewrite brk_upd | rewrite brk_push | rewrite brk_del];
  cbn [from_Lifetime m_T m_owner m_mutex m_mutator m_refs];
  first [ congruence
        | eapply obj_at_nonnull; eassumption
        | unfold nullptr in *; lia ].

(** X9: called on a live value with null pointers for the shared cells and
    [force_take_mutability] set, the constructor allocates the cells of a
    new group whose only member is owner and mutator at once: it may write,
    no [borrow_mutable] is accepted, and [move()] hands the ownership on
    while the write access stays. *)
Theorem constructor_can_claim_both_roles σ child v :
  wf_store σ → val_at σ child = Some v →
  ∃ this σ',
    Lifetime_ctor child nullptr nullptr nullptr nullptr false true σ
      = Ok this σ' ∧
    obj_at σ this = None ∧
    view σ' this = Some (mkGroup v this (Some this) {[this]}) ∧
    is_owner this σ' = Ok true σ' ∧
    is_mutator this σ' = Ok true σ' ∧
    borrow_mutable this σ' = Throw AlreadyMutableBorrowed σ'.
Proof.
  intros Hwf Hv%val_at_Some. bounds Hwf.
  unfold Lifetime_ctor, LifetimeMutator_ctor.
  repeat (progress (exec; rewrite ?brk_upd, ?brk_push)).
  eexists _, _. split; [reflexivity|].
  split; [by apply wf_fresh_None|].
  rewrite (right_id_L ∅ (∪)).
  match goal with |- view ?s ?t = Some ?g ∧ _ =>
    set (σ' := s); set (this := t);
    assert (cells σ' this (mkLifetime child (N.succ (N.succ (N.succ (N.succ this))))
                     (N.succ (N.succ (N.succ (N.succ (N.succ this)))))
                     (N.succ this)
                     (N.succ (N.succ (N.succ (N.succ (N.succ (N.succ this)))))))
                  (N.succ (N.succ this)) g) as Hc
  end.
  { assert (mutator_view σ' (N.succ (N.succ this)) = Some (Some this)) as Hmu.
    { eapply (mutator_view_intro _ _ _ (N.succ (N.succ (N.succ this))));
        unfold σ', this; solve_at. }
    constructor; try done; unfold σ', this; simpl; solve_at. }
  assert (view σ' this = Some (mkGroup v this (Some this) {[this]})) as Hview.
  { apply view_cells. eauto. }
  split; [done|]. split.
  { rewrite (is_owner_spec _ _ _ Hview). simpl. by rewrite bool_decide_eq_true_2. }
  split.
  { rewrite (is_mutator_spec _ _ _ this Hview) by done.
    by rewrite bool_decide_eq_true_2. }
  pose proof Hc as [H1 H2 H3 H4 H5 H6 H7].
  eapply borrow_mutable_taken; [eassumption..|]. apply fresh_nonnull.
Qed.

(** ** Groups and the handles that point to them *)

(** X10: in every store a program reaches by calls of the members and by
    destructions other than of the mutator handle or of an owner with other
    members, the member
    set of a group holds exactly the live handles that point to its cells,
    each of them sees the same group, the mutator is never the owner, and a
    handle outside the set belongs to a group with no member in common. *)
Theorem members_are_the_live_handles cs σ this g :
  run_quiet cs empty_store = Some σ → view σ this = Some g →
  (∀ x, x ∈ members g ↔ lifetime_at σ x = lifetime_at σ this) ∧
  (∀ x, x ∈ members g → view σ x = Some g) ∧
  mutator g ≠ Some (owner g) ∧
  (∀ x gx, view σ x = Some gx → x ∉ members g → members gx ## members g).
Proof.
  intros Hrun (h & cur & Hc)%view_cells.
  pose proof (inv_run_quiet _ _ _ inv_empty Hrun) as Hi.
  destruct (inv_group _ _ _ _ _ Hi Hc) as [Hg Hin].
  pose proof Hg as [G1 G2 G3 G4 G5 G6 G7 G8 G9].
  pose proof Hc as [H1 _ _ _ _ _ _].
  rewrite (proj2 (lifetime_at_Some _ _ _) H1).
  split.
  { intros x. rewrite lifetime_at_Some. split; [apply G8|].
    intros Hx. by eapply inv_member. }
  split.
  { intros x Hx. apply view_cells. exists h, cur.
    apply group_ok_cells; [done|by apply G8]. }
  split.
  { intros Hm. by destruct (G9 _ Hm). }
  intros x gx (hx & cx & Hcx)%view_cells Hnin.
  destruct (inv_group _ _ _ _ _ Hi Hcx) as [Hgx Hinx].
  apply elem_of_disjoint. intros y Hy1 Hy2.
  apply (go_members _ _ _ _ Hgx) in Hy1. apply G8 in Hy2.
  assert (hx = h) as -> by congruence.
  apply Hnin. eapply inv_member; [done..|]. by destruct Hcx.
Qed.

(** ** Calls and the other groups *)

Lemma fresh_cells_apart σ y hy :
  inv σ → obj_at σ y = Some (OLifetime hy) →
  ¬ shares hy (from_Lifetime (brk σ)).
Proof.
  intros Hi Hy Hs. pose proof (inv_wf _ Hi) as Hwf.
  destruct (inv_handles _ Hi _ _ Hy) as (c & gy & Hg & _).
  destruct Hg as [G1 G2 G3 G4 G5 _ _ _ _]. bounds Hwf.
  unfold shares, from_Lifetime in Hs; simpl in Hs. lia.
Qed.

Lemma frame_destroy_keep σ this h cur g :
  cells σ this h cur g →
  frame σ (del this (upd this (OLifetime (reset_Lifetime h))
             (upd (m_refs h) (OSet (members g ∖ {[this]})) σ))) h.
Proof.
  intros [H1 H2 H3 H4 H5 H6 H7].
  constructor; intros;
    try (eexists; solve_at); try solve_at; try old_or_new.
Qed.

Lemma frame_destroy_last σ this h cur g :
  cells σ this h cur g →
  frame σ (del this (upd this (OLifetime (reset_Lifetime h))
             (teardown_store
                (upd (m_refs h) (OSet ∅)
                   (upd (m_refs h) (OSet (members g ∖ {[this]})) σ)) h))) h.
Proof.
  intros [H1 H2 H3 H4 H5 H6 H7].
  assert (this ≠ m_T h ∧ this ≠ m_owner h ∧ this ≠ m_refs h) as (?&?&?)
    by (repeat split; congruence).
  assert (m_T h ≠ m_owner h ∧ m_T h ≠ m_refs h ∧ m_owner h ≠ m_refs h)
    as (?&?&?) by (repeat split; congruence).
  constructor; intros; unfold teardown_store in *;
    try (eexists; solve_at); try solve_at; try old_or_new.
Qed.

(** A handle on other cells reads after the call what it read before. *)
Lemma frame_view σ σ' h x hx :
  inv σ → frame σ σ' h → obj_at σ x = Some (OLifetime hx) → hx ≠ h →
  (∀ y hy, obj_at σ y = Some (OLifetime hy) → shares hy h → hy = h) →
  lifetime_at σ' x = lifetime_at σ x ∧ view σ' x = view σ x.
Proof.
  intros Hi Hf Hx Hne Hap.
  destruct (inv_view _ _ _ Hi Hx) as (cur & g & Hc & _ & _).
  assert (¬ shares hx h) as Hsh by (intros Hs; by apply (Hap _ _ Hx) in Hs).
  pose proof (frame_cells _ _ _ _ _ _ _ Hf Hc Hsh Hne) as Hc'.
  split.
  - destruct Hc' as [H1' _ _ _ _ _ _].
    by rewrite (proj2 (lifetime_at_Some _ _ _) Hx),
               (proj2 (lifetime_at_Some _ _ _) H1').
  - transitivity (Some g); [|symmetry]; apply view_cells; eauto.
Qed.

(** The handle [x] is not on the cells of the handle the call is made on. *)
Ltac other_cells Hoth this :=
  match goal with
  | Hx : obj_at ?σ ?x = Some (OLifetime ?hx),
    E : obj_at ?σ this = Some (OLifetime ?h) |- _ =>
      assert (hx ≠ h) by
        (intros ->; apply (Hoth this eq_refl);
         by rewrite (proj2 (lifetime_at_Some _ _ _) Hx),
                    (proj2 (lifetime_at_Some _ _ _) E))
  end.

(** X11: a call changes nothing for the handles of the other groups: in a
    store a program reached, a handle that does not point to the cells of
    the handle the call is made on keeps its data members and sees the same
    group after the call, whether the call returned or threw. *)
Theorem calls_leave_other_groups_alone cs σ c σ' x :
  run_quiet cs empty_store = Some σ →
  quiet σ c = true → after c σ = Some σ' →
  is_Some (lifetime_at σ x) →
  (∀ this, target c = Some this → lifetime_at σ x ≠ lifetime_at σ this) →
  lifetime_at σ' x = lifetime_at σ x ∧ view σ' x = view σ x.
Proof.
  intros Hrun Hq Ha [hx Hx%lifetime_at_Some] Hoth. revert Ha.
  pose proof (inv_run_quiet _ _ _ inv_empty Hrun) as Hi.
  pose proof (inv_wf _ Hi) as Hwf.
  assert (hx ≠ from_Lifetime (brk σ)) as Hfresh.
  { intros ->. eapply fresh_cells_apart; [done..|]. by left. }
  assert (∀ y hy, obj_at σ y = Some (OLifetime hy) →
            shares hy (from_Lifetime (brk σ)) → hy = from_Lifetime (brk σ))
    as Hnew.
  { intros y hy Hy Hs. by apply (fresh_cells_apart _ _ _ Hi Hy) in Hs. }
  destruct c as [v|this|this|this v|this|this|this|this|this|this|this other|this];
    simpl in Hoth.
  - unfold after, perform, bind. rewrite from_spec. intros [= <-].
    eapply frame_view; [done|by apply frame_from|done..].
  - on_handle Hi σ this. destruct Hc as [H1 H2 H3 H4 H5 H6 H7].
    unfold after, perform, bind. erewrite clone_spec by done. intros [= <-].
    eapply frame_view; [done|by apply frame_from|done..].
  - by intros ->%after_readonly; [|apply readonly_get].
  - on_handle Hi σ this. other_cells Hoth this. unfold after, perform.
    rewrite (set_spec _ _ _ _ _ v Hc). case_decide; intros [= <-]; [|done].
    eapply frame_view; [done|by eapply frame_set|done..|by eapply inv_apart_old].
  - by intros ->%after_readonly; [|apply readonly_get_mutable].
  - on_handle Hi σ this. other_cells Hoth this. unfold after, perform, bind.
    rewrite (borrow_spec _ _ _ _ _ Hwf Hc). intros [= <-].
    eapply frame_view; [done|by eapply frame_borrow|done..|by eapply inv_apart_old].
  - on_handle Hi σ this. other_cells Hoth this. unfold after, perform, bind.
    destruct (decide (cur = nullptr)) as [->|Hn].
    + rewrite (borrow_mutable_free _ _ _ _ Hwf Hc). intros [= <-].
      eapply frame_view;
        [done|by eapply frame_borrow_mutable|done..|by eapply inv_apart_old].
    + destruct Hc as [H1 H2 H3 H4 H5 H6 H7].
      rewrite (borrow_mutable_taken _ _ _ _ H1 H4 Hn). by intros [= <-].
  - by intros ->%after_readonly; [|apply readonly_is_owner].
  - by intros ->%after_readonly; [|apply readonly_is_mutator].
  - on_handle Hi σ this. other_cells Hoth this. unfold after, perform, bind.
    destruct (decide (owner g = this)) as [Ho|Ho].
    + rewrite (move_spec _ _ _ _ _ Hwf Hc Ho). intros [= <-].
      eapply frame_view; [done|by eapply frame_move|done..|by eapply inv_apart_old].
    + rewrite (move_refused _ _ g); [by intros [= <-]| |done].
      apply view_cells. eauto.
  - on_handle Hi σ this. unfold after, perform.
    rewrite (move_to_spec _ _ _ _ _ _ Hc). by intros [= <-].
  - on_handle Hi σ this. other_cells Hoth this.
    simpl in Hq.
    assert (view σ this = Some g) as Hv by (apply view_cells; eauto).
    rewrite Hv in Hq.
    apply andb_true_iff in Hq as [Hmu%negb_true_iff%bool_decide_eq_false Hq].
    unfold after, perform.
    destruct (decide (members g ∖ {[this]} = ∅)) as [He|Hne].
    + pose proof (destroy_last _ _ _ _ _ Hc He) as Hd. simpl in Hd.
      rewrite Hd. intros [= <-].
      rewrite (unmutate_store_other _ _ _ g) by (done || apply Hc).
      assert (owner g = this) as Ho.
      { destruct (decide (owner g = this)); [done|].
        pose proof (go_owner_in _ _ _ _ Hg). set_solver. }
      rewrite Ho, ptr_eqb_refl. unfold erase_store.
      rewrite bool_decide_eq_true_2 by done.
      eapply frame_view;
        [done|by eapply frame_destroy_last|done..|by eapply inv_apart_old].
    + apply orb_true_iff in Hq as [Ho%negb_true_iff%bool_decide_eq_false|He];
        [|by apply bool_decide_eq_true in He].
      rewrite (destroy_keep _ _ _ _ _ Hc Ho Hne). intros [= <-].
      rewrite (unmutate_store_other _ _ _ g) by (done || apply Hc).
      unfold erase_store. rewrite bool_decide_eq_true_2 by done.
      eapply frame_view;
        [done|by eapply frame_destroy_keep|done..|by eapply inv_apart_old].
Qed.

(** ** After a mutable borrow *)

(** The mutator goes: its [LifetimeMutator] is deleted, and the mutator cell
    of the group, which is not the cell the record was built on, keeps the
    address. *)
Lemma release_dangles σ m h lm acc g :
  cells σ m h lm g →
  obj_at σ lm = Some (OMutator (LifetimeMutator.mk m acc)) →
  acc ≠ m_mutator h →
  owner g ≠ m → members g ∖ {[m]} ≠ ∅ →
  ∃ σ',
    destroy m σ = Ok tt σ' ∧
    obj_at σ' m = None ∧ obj_at σ' lm = None ∧
    obj_at σ' (m_mutator h) = Some (OSlot lm) ∧
    obj_at σ' (m_T h) = Some (OVal (value g)) ∧
    obj_at σ' (m_owner h) = Some (OOwner (owner g)) ∧
    obj_at σ' (m_mutex h) = Some OMutex ∧
    obj_at σ' (m_refs h) = Some (OSet (members g ∖ {[m]})) ∧
    ∀ x hx, x ≠ m → obj_at σ x = Some (OLifetime hx) →
            obj_at σ' x = Some (OLifetime hx).
Proof.
  intros Hc Hlm Hacc Ho Hne. pose proof Hc as [H1 H2 H3 H4 H5 H6 H7].
  assert (mutator g = Some m ∧ ∃ q, obj_at σ acc = Some (OSlot q))
    as [Hmu [q Ha]].
  { destruct (mutator g) as [m'|] eqn:Em.
    - apply mutator_view_Some in H7 as (_ & acc' & q & Hl & Ha).
      assert (m' = m ∧ acc' = acc) as [-> ->] by (split; congruence). eauto.
    - apply mutator_view_None in H7 as ->. by apply obj_at_nonnull in Hlm. }
  assert (unmutate_store σ m lm = release_store σ lm acc) as Hun.
  { unfold unmutate_store. pose proof Hlm as ->%mutator_at_Some. simpl.
    by rewrite bool_decide_eq_true_2. }
  rewrite (destroy_keep _ _ _ _ _ Hc Ho Hne), Hun.
  eexists. split; [done|].
  assert (lm ≠ nullptr) by by eapply obj_at_nonnull.
  unfold erase_store, release_store. case_bool_decide as Hin.
  - repeat split; try solve_at.
    intros x hx Hx Hxl. solve_at.
  - replace (members g ∖ {[m]}) with (members g) by set_solver.
    repeat split; try solve_at.
    intros x hx Hx Hxl. solve_at.
Qed.

(** A handle whose mutator cell holds the address of a deleted record. *)
Lemma dangling_cell σ this h cur v ow s :
  obj_at σ this = Some (OLifetime h) →
  obj_at σ (m_T h) = Some (OVal v) →
  obj_at σ (m_owner h) = Some (OOwner ow) →
  obj_at σ (m_mutex h) = Some OMutex →
  obj_at σ (m_refs h) = Some (OSet s) →
  obj_at σ (m_mutator h) = Some (OSlot cur) →
  cur ≠ nullptr → obj_at σ cur = None →
  (∀ v', set this v' σ = Undef) ∧ get_mutable this σ = Undef ∧
  is_mutator this σ = Undef ∧ destroy this σ = Undef.
Proof.
  intros H1 H2 H3 H4 H5 H6 Hn Hd.
  assert (mutator_at σ cur = None) as Hm by (unfold mutator_at; by rewrite Hd).
  assert (∀ B (k : bool → M T B), bind (holds_mutator this h) k σ = Undef) as Hh.
  { intros B k. unfold holds_mutator. exec.
    by rewrite (bind_lift_None (λ σ, mutator_at σ cur)). }
  repeat split.
  - intros v'. unfold set. exec. apply Hh.
  - unfold get_mutable. exec. apply Hh.
  - unfold is_mutator. exec.
    by rewrite (bind_lift_None (λ σ, mutator_at σ cur)).
  - unfold destroy, Lifetime_dtor. exec. by rewrite Hh.
Qed.

(** X12: once a mutable borrow has ended, with or without a write through
    it, the handle it was taken from still reads the value and answers
    [is_owner], but [set], [get_mutable], [is_mutator] and its own
    destructor read the deleted [LifetimeMutator] (lines 134, 118, 174 and
    66): none of them has a defined outcome, for the owner either. *)
Theorem released_mutable_borrow_blocks_the_group σ this g v :
  wf_store σ → view σ this = Some g → mutator g = None →
  this ∈ members g → is_Some (lifetime_at σ (owner g)) →
  ∃ m σ1 σ2 σ3,
    borrow_mutable this σ = Ok m σ1 ∧
    set m v σ1 = Ok tt σ2 ∧
    destroy m σ2 = Ok tt σ3 ∧
    get this σ3 = Ok v σ3 ∧
    is_owner this σ3 = Ok (bool_decide (this = owner g)) σ3 ∧
    (∀ v', set this v' σ3 = Undef) ∧ get_mutable this σ3 = Undef ∧
    is_mutator this σ3 = Undef ∧ destroy this σ3 = Undef.
Proof.
  intros Hwf (h & cur & Hc)%view_cells Hmu Hin [ho Ho%lifetime_at_Some].
  pose proof Hc as [H1 H2 H3 H4 H5 H6 H7].
  rewrite Hmu in H7. apply mutator_view_None in H7 as ->.
  destruct (borrow_mutable_view _ _ _ _ Hwf Hc) as [Hn Ht]. simpl in Hn, Ht.
  set (m := N.succ (brk σ)) in *.
  set (σ1 := borrow_mutable_store σ h (members g)) in *.
  bounds Hwf.
  assert (m ≠ this ∧ owner g ≠ m) as [Hmt Hom] by (unfold m; lia).
  assert (obj_at σ1 (N.succ m) =
          Some (OMutator (LifetimeMutator.mk m (N.succ (N.succ m))))) as Hlm.
  { unfold σ1, borrow_mutable_store, m; simpl. solve_at. }
  pose proof Hn as [N1 _ _ _ _ _ _]. pose proof Ht as [T1 _ _ _ _ _ _].
  pose proof (cells_set _ _ _ _ _ _ v Hn N1) as Hn2.
  pose proof (cells_set _ _ _ _ _ _ v Hn T1) as [S1 _ _ _ _ _ _].
  set (σ2 := upd (m_T h) (OVal v) σ1) in *.
  assert (obj_at σ2 (N.succ m) =
          Some (OMutator (LifetimeMutator.mk m (N.succ (N.succ m))))) as Hlm2.
  { unfold σ2. solve_at. }
  destruct (release_dangles σ2 m h (N.succ m) (N.succ (N.succ m)) _ Hn2 Hlm2)
    as (σ3 & Hd & D1 & D2 & D3 & D4 & D5 & D6 & D7 & D8); simpl.
  { unfold m. lia. }
  { done. }
  { set_solver. }
  simpl in D4, D5, D7. pose proof (D8 _ _ (not_eq_sym Hmt) S1) as D9.
  exists m, σ1, σ2, σ3.
  split; [by apply borrow_mutable_free|].
  split; [rewrite (set_spec _ _ _ _ _ v Hn), decide_True; [done|by right]|].
  split; [done|]. split; [by eapply get_spec|].
  split.
  { unfold is_owner. exec. by rewrite ptr_eqb_eq. }
  eapply dangling_cell; eauto. apply fresh_nonnull.
Qed.

(** ** Temporaries: a handle built, used and dropped *)

Lemma bind_Ok {A B} (c : M T A) (k : A → M T B) σ a σ' :
  c σ = Ok a σ' → bind c k σ = k a σ'.
Proof. intros H. unfold bind. by rewrite H. Qed.

Lemma bind_Throw {A B} (c : M T A) (k : A → M T B) σ e σ' :
  c σ = Throw e σ' → bind c k σ = Throw e σ'.
Proof. intros H. unfold bind. by rewrite H. Qed.

Lemma scoped_Ok {A} this (body : M T A) σ a σ1 σ2 :
  body σ = Ok a σ1 → destroy this σ1 = Ok tt σ2 →
  scoped this body σ = Ok a σ2.
Proof. intros Hb Hd. unfold scoped. by rewrite Hb, Hd. Qed.

Lemma scoped_dtor_throws {A} this (body : M T A) σ a σ1 e σ2 :
  body σ = Ok a σ1 → destroy this σ1 = Throw e σ2 →
  scoped this body σ = Throw e σ2.
Proof. intros Hb Hd. unfold scoped. by rewrite Hb, Hd. Qed.

(** The last member goes, not holding the mutator slot. *)
Lemma release_last σ this h cur g :
  cells σ this h cur g → mutator g ≠ Some this →
  members g ∖ {[this]} = ∅ →
  ∃ σ',
    destroy this σ = Ok tt σ' ∧
    obj_at σ' this = None ∧ obj_at σ' (m_T h) = None ∧
    obj_at σ' (m_owner h) = None ∧ obj_at σ' (m_refs h) = None ∧
    (∀ q o, obj_at σ q = Some o →
       q ≠ this → q ≠ m_T h → q ≠ m_owner h → q ≠ m_refs h →
       obj_at σ' q = Some o) ∧
    (∀ q o, obj_at σ' q = Some o → obj_at σ q = Some o).
Proof.
  intros Hc Hmu He. pose proof Hc as [H1 H2 H3 H4 H5 H6 H7].
  rewrite (destroy_last _ _ _ _ _ Hc He).
  rewrite (unmutate_store_other _ _ _ g) by done.
  eexists. split; [done|].
  assert (this ≠ m_T h ∧ this ≠ m_owner h ∧ this ≠ m_refs h) as (?&?&?)
    by (repeat split; congruence).
  assert (m_T h ≠ m_owner h ∧ m_T h ≠ m_refs h ∧ m_owner h ≠ m_refs h)
    as (?&?&?) by (repeat split; congruence).
  unfold teardown_store, erase_store.
  destruct (ptr_eqb this (owner g)); case_bool_decide;
    (split; [apply obj_at_del_eq|]);
    (split; [solve_at|]); (split; [solve_at|]); (split; [solve_at|]);
    (split; [intros q o Hq ????; solve_at|]);
    intros q o Hq; unwind Hq; done.
Qed.

(** What [from] leaves in the store besides the group it builds. *)
Lemma from_store_new σ v q o :
  obj_at σ q = None → obj_at (from_store σ v) q = Some o →
  q = N.succ (N.succ (brk σ)) ∨ q = m_T (from_Lifetime (brk σ)) ∨
  q = m_owner (from_Lifetime (brk σ)) ∨ q = m_refs (from_Lifetime (brk σ)) ∨
  o = OMutex ∨ o = OSlot nullptr.
Proof.
  intros Hn H. unfold from_store in H; simpl in H.
  unwind H; subst; simpl; rewrite ?brk_push; auto 10; congruence.
Qed.

(** [c = x.clone()], a write through [c], and [c] goes out of scope. *)
Lemma temporary_clone σ this h v v' :
  wf_store σ →
  obj_at σ this = Some (OLifetime h) → obj_at σ (m_T h) = Some (OVal v) →
  clone this σ = Ok (N.succ (N.succ (brk σ))) (from_store σ v) ∧
  cells (from_store σ v) (N.succ (N.succ (brk σ))) (from_Lifetime (brk σ))
        nullptr (mkGroup v (N.succ (N.succ (brk σ))) None
                         {[N.succ (N.succ (brk σ))]}) ∧
  ∃ σ',
    destroy (N.succ (N.succ (brk σ)))
      (upd (m_T (from_Lifetime (brk σ))) (OVal v') (from_store σ v))
      = Ok tt σ' ∧
    (∀ q o, obj_at σ q = Some o → obj_at σ' q = Some o) ∧
    (∀ q o, obj_at σ q = None → obj_at σ' q = Some o →
       o = OMutex ∨ o = OSlot nullptr).
Proof.
  intros Hwf Hh Hv.
  split; [by eapply clone_spec|].
  pose proof (from_cells σ v) as Hc. simpl in Hc.
  split; [done|].
  pose proof Hc as [C1 _ _ _ _ _ _].
  pose proof (cells_set _ _ _ _ _ _ v' Hc C1) as Hc2.
  destruct (release_last _ _ _ _ _ Hc2)
    as (σ' & Hd & D1 & D2 & D3 & D4 & D5 & D6); [done|simpl; set_solver|].
  exists σ'. split; [done|]. split.
  - intros q o Hq. bounds Hwf.
    apply D5; [|simpl; lia..].
    rewrite obj_at_upd_ne by (simpl; lia). by apply from_store_extends.
  - intros q o Hq Hq'. pose proof (D6 _ _ Hq') as Hq2.
    apply obj_at_upd_inv in Hq2 as [[-> _]|[_ Hq2]]; [congruence|].
    destruct (from_store_new _ _ _ _ Hq Hq2) as [->|[->|[->|[->|?]]]];
      congruence || done.
Qed.

(** [n = x.move()], a write through [n], and [n] goes out of scope. *)
Lemma temporary_owner σ this h cur g v' :
  inv σ → cells σ this h cur g → owner g = this →
  move this σ = Ok (N.succ (brk σ)) (move_store σ h (members g)) ∧
  cells (move_store σ h (members g)) (N.succ (brk σ)) h cur
        (mkGroup (value g) (N.succ (brk σ)) (mutator g)
                 ({[N.succ (brk σ)]} ∪ members g)) ∧
  ∃ σ',
    destroy (N.succ (brk σ)) (upd (m_T h) (OVal v') (move_store σ h (members g)))
      = Throw OwnerDropped σ' ∧
    obj_at σ' (N.succ (brk σ)) = None ∧
    cells σ' this h cur (mkGroup v' (N.succ (brk σ)) (mutator g) (members g)).
Proof.
  intros Hi Hc Ho. pose proof (inv_wf _ Hi) as Hwf.
  destruct (inv_group _ _ _ _ _ Hi Hc) as [Hg Hin].
  pose proof Hg as [G1 G2 G3 G4 G5 G6 G7 G8 G9].
  destruct (move_cells _ _ _ _ _ Hwf Hc) as [Hn Ht]. simpl in Hn, Ht.
  split; [by eapply move_spec|]. split; [done|].
  set (n := N.succ (brk σ)) in *.
  set (σ1 := move_store σ h (members g)) in *.
  pose proof Hn as [N1 _ _ _ _ _ _]. pose proof Ht as [T1 _ _ _ _ _ _].
  pose proof (cells_set _ _ _ _ _ _ v' Hn N1) as Hn2.
  assert (∀ x, x ∈ members g → x ≠ n) as Hold.
  { intros x Hx%G8%(wf_bound _ _ _ Hwf). unfold n. lia. }
  assert (mutator g ≠ Some n) as Hmu.
  { intros Hm. destruct (G9 _ Hm) as [Hm' _]. by apply Hold in Hm'. }
  assert (({[n]} ∪ members g) ∖ {[n]} = members g) as Hrest.
  { apply set_eq. intros x. specialize (Hold x). set_solver. }
  pose proof (destroy_throw _ _ _ _ _ Hn2 eq_refl) as Hd. simpl in Hd.
  rewrite Hrest in Hd.
  rewrite (unmutate_store_other _ _ _ (mkGroup v' n (mutator g)
             ({[n]} ∪ members g))) in Hd by (done || apply Hn2).
  unfold erase_store in Hd. rewrite bool_decide_eq_true_2 in Hd by set_solver.
  rewrite Hrest in Hd.
  eexists. split; [apply Hd; set_solver|].
  split; [apply obj_at_del_eq|].
  assert (this ≠ n) by (apply Hold; done).
  pose proof (cells_set _ _ _ _ _ _ v' Hn T1) as [S1 S2 S3 S4 S5 S6 S7].
  pose proof Hn2 as [M1 _ _ _ _ _ _].
  simpl in S2, S3, S6, S7.
  constructor; simpl; try solve_at.
  destruct (mutator g) as [m|]; [|by apply mutator_view_None in S7 as ->].
  apply mutator_view_Some in S7 as (_ & acc & q & Hl & Ha).
  eapply (mutator_view_intro _ _ _ acc).
  - solve_at.
  - destruct (decide (acc = n)) as [->|]; [congruence|].
    destruct (decide (acc = m_refs h)) as [->|]; [congruence|]. solve_at.
Qed.

(** ** The members first, the owner last *)

(** C6: the destruction of a handle that sees a group throws, and then
    "owner freed but references still exist", if and only if the handle is
    the owner and other members remain.  Whether it throws or not, the
    handle is gone afterwards and the member set no longer holds it, or the
    value, the owner cell and the member set are deleted when it was the
    last member.  When the members of a group without mutator go one after
    the other, the owner last, no destructor throws and the value, the owner
    cell and the member set are deleted, but the mutex and the mutator cell
    stay allocated.  When a mutable borrower is among the members, its
    destructor leaves the address of the deleted [LifetimeMutator] in the
    mutator cell (C3), and the destructor of the member that goes next, or
    of the owner, reads that record at line 66: the sequence has no defined
    outcome. *)
Theorem destroy_raises_iff_owner_with_borrows σ this h g :
  lifetime_at σ this = Some h → view σ this = Some g →
  let rest := members g ∖ {[this]} in
  (* the error is raised iff the owner goes while other members remain *)
  ((∃ e σ', destroy this σ = Throw e σ') ↔ owner g = this ∧ rest ≠ ∅) ∧
  (* in every case the handle is gone, and out of the set *)
  (∃ σ',
     (destroy this σ = Ok tt σ' ∨ destroy this σ = Throw OwnerDropped σ') ∧
     obj_at σ' this = None ∧
     if decide (rest = ∅)
     then destroy this σ = Ok tt σ' ∧
          obj_at σ' (m_T h) = None ∧ obj_at σ' (m_owner h) = None ∧
          obj_at σ' (m_refs h) = None
     else set_at σ' (m_refs h) = Some rest) ∧
  (* the other members first, the owner last *)
  (∀ l,
     owner g = this → this ∈ members g → mutator g = None →
     NoDup l → list_to_set l = rest →
     set_Forall (λ x, lifetime_at σ x = Some h) (members g) →
     ∃ σ',
       destroy_all (l ++ [this]) σ = Ok tt σ' ∧
       obj_at σ' (m_T h) = None ∧ obj_at σ' (m_owner h) = None ∧
       obj_at σ' (m_refs h) = None ∧
       obj_at σ' (m_mutex h) = Some OMutex ∧
       obj_at σ' (m_mutator h) = Some (OSlot nullptr) ∧
       set_Forall (λ x, obj_at σ' x = None) (members g)) ∧
  (* a mutable borrower first, the other members next, the owner last *)
  (∀ l,
     wf_store σ → owner g = this → this ∈ members g → mutator g = None →
     list_to_set l = rest →
     set_Forall (λ x, lifetime_at σ x = Some h) (members g) →
     ∃ m σ1 σ2,
       borrow_mutable this σ = Ok m σ1 ∧
       view σ1 this = Some (mkGroup (value g) this (Some m) ({[m]} ∪ members g)) ∧
       destroy m σ1 = Ok tt σ2 ∧
       destroy_all ((m :: l) ++ [this]) σ1 = Undef).
Proof.
  intros Hh (h' & cur & Hc)%view_cells rest.
  pose proof Hc as [H1 H2 H3 H4 H5 H6 H7].
  apply lifetime_at_Some in Hh. assert (h' = h) as -> by congruence.
  destruct (Lifetime_dtor_prefix _ _ _ _ _ Hc) as [_ Hp].
  pose proof (erase_store_refs _ _ _ _ _ _ Hp) as [E1 E2 E3 E4].
  split; [|split; [|split]].
  - destruct (decide (rest = ∅)) as [He|Hne].
    + rewrite (destroy_last _ _ _ _ _ Hc He). split.
      * by intros (e & σ' & ?).
      * by intros [_ ?].
    + destruct (decide (owner g = this)) as [Ho|Ho].
      * rewrite (destroy_throw _ _ _ _ _ Hc Ho Hne). split; [done|]. eauto.
      * rewrite (destroy_keep _ _ _ _ _ Hc Ho Hne). split.
        -- by intros (e & σ' & ?).
        -- by intros [? _].
  - destruct (decide (rest = ∅)) as [He|Hne].
    + rewrite (destroy_last _ _ _ _ _ Hc He). eexists.
      split; [by left|]. split; [apply obj_at_del_eq|]. split; [done|].
      unfold teardown_store.
      assert (this ≠ m_T h ∧ this ≠ m_owner h ∧ this ≠ m_refs h) as (?&?&?)
        by (repeat split; congruence).
      assert (m_T h ≠ m_owner h ∧ m_T h ≠ m_refs h ∧ m_owner h ≠ m_refs h)
        as (?&?&?) by (repeat split; congruence).
      repeat split; solve_at.
    + destruct (decide (owner g = this)) as [Ho|Ho].
      * rewrite (destroy_throw _ _ _ _ _ Hc Ho Hne). eexists.
        split; [by right|]. split; [apply obj_at_del_eq|].
        apply set_at_Some. assert (this ≠ m_refs h) by congruence. solve_at.
      * rewrite (destroy_keep _ _ _ _ _ Hc Ho Hne). eexists.
        split; [by left|]. split; [apply obj_at_del_eq|].
        apply set_at_Some. assert (this ≠ m_refs h) by congruence. solve_at.
  - intros l Ho Hin Hmu Hnd Hl Hall.
    rewrite Hmu in H7. apply mutator_view_None in H7 as ->.
    assert (plain_group σ h (value g) this (members g)) as Hg.
    { constructor; try done; try congruence.
      intros x Hx. by apply lifetime_at_Some, Hall. }
    destruct (destroy_all_members _ _ _ _ _ l Hg Hin Hnd) as (σ1 & Hd & Hg1 & Hdead).
    { intros x Hx. assert (x ∈ rest) as Hr by (rewrite <- Hl; set_solver).
      unfold rest in Hr. set_solver. }
    rewrite (destroy_all_app _ _ _ _ Hd). simpl.
    assert (members g ∖ list_to_set l = {[this]}) as Hs.
    { rewrite Hl. unfold rest. apply set_eq. intros x.
      destruct (decide (x = this)) as [->|]; set_solver. }
    rewrite Hs in Hg1.
    assert (cells σ1 this h nullptr (mkGroup (value g) this None {[this]})) as Hc1.
    { eapply plain_group_cells; [done|set_solver]. }
    assert (({[this]} : gset N) ∖ {[this]} = ∅) as He by set_solver.
    pose proof (destroy_last _ _ _ _ _ Hc1 He) as Hlast. simpl in Hlast.
    unfold bind. rewrite Hlast. eexists. split; [done|].
    rewrite unmutate_store_null, ptr_eqb_refl.
    destruct Hg1 as [G1 G2 G3 G4 G5 G6]. pose proof (G6 this) as G7.
    specialize (G7 ltac:(set_solver)).
    unfold teardown_store, erase_store. rewrite bool_decide_eq_true_2 by set_solver.
    assert (this ≠ m_T h ∧ this ≠ m_owner h ∧ this ≠ m_refs h) as (?&?&?)
      by (repeat split; congruence).
    assert (m_T h ≠ m_owner h ∧ m_T h ≠ m_refs h ∧ m_owner h ≠ m_refs h)
      as (?&?&?) by (repeat split; congruence).
    split; [solve_at|]. split; [solve_at|]. split; [solve_at|].
    split; [solve_at|]. split; [solve_at|].
    intros x Hx. simpl.
    destruct (decide (x = this)) as [->|Hxt]; [apply obj_at_del_eq|].
    assert (obj_at σ1 x = None) as Hx1.
    { apply Hdead. left. apply (elem_of_list_to_set (C:=gset N)).
      rewrite Hl. unfold rest. set_solver. }
    apply obj_at_del_None. apply obj_at_upd_None; [|live].
    repeat apply obj_at_del_None.
    apply obj_at_upd_None; [|live]. apply obj_at_upd_None; [done|live].
  - intros l Hwf Ho Hin Hmu Hl Hall.
    rewrite Hmu in H7. apply mutator_view_None in H7 as ->.
    destruct (borrow_mutable_view _ _ _ _ Hwf Hc) as [Hn Ht]. simpl in Hn, Ht.
    set (m := N.succ (brk σ)) in *.
    set (σ1 := borrow_mutable_store σ h (members g)) in *.
    bounds Hwf.
    assert (obj_at σ1 (N.succ m) =
            Some (OMutator (LifetimeMutator.mk m (N.succ (N.succ m))))) as Hlm.
    { unfold σ1, borrow_mutable_store, m; simpl. solve_at. }
    destruct (release_dangles σ1 m h (N.succ m) (N.succ (N.succ m)) _ Hn Hlm)
      as (σ2 & Hd & D1 & D2 & D3 & D4 & D5 & D6 & D7 & D8).
    { unfold m. lia. }
    { cbn [owner]. unfold m. lia. }
    { cbn [members]. intros He.
      assert (this ∈ ({[m]} ∪ members g) ∖ {[m]}) as Hx.
      { apply elem_of_difference. split; [by apply elem_of_union_r|].
        apply not_elem_of_singleton. unfold m. lia. }
      rewrite He in Hx. by apply elem_of_empty in Hx. }
    cbn [value owner members] in D4, D5, D7.
    assert (∀ y, obj_at σ y = Some (OLifetime h) → destroy y σ2 = Undef) as Hy.
    { intros y Hyl. pose proof (wf_bound _ _ _ Hwf Hyl).
      assert (obj_at σ1 y = Some (OLifetime h)) as Hy1
        by (unfold σ1, borrow_mutable_store; simpl; solve_at).
      assert (y ≠ m) as Hym by (unfold m; lia).
      pose proof (D8 _ _ Hym Hy1) as Hy2.
      by eapply dangling_cell; eauto using fresh_nonnull. }
    exists m, σ1, σ2. split; [by apply borrow_mutable_free|].
    split; [apply view_cells; rewrite Ho in Ht; eauto|].
    split; [done|].
    change (bind (destroy m) (λ _, destroy_all (l ++ [this])) σ1 = Undef).
    rewrite (bind_Ok _ _ _ _ _ Hd).
    destruct l as [|y l']; simpl; unfold bind.
    + by rewrite (Hy _ H1).
    + rewrite (Hy y); [done|]. apply lifetime_at_Some, Hall.
      assert (y ∈ rest) as Hr by (rewrite <- Hl; set_solver).
      unfold rest in Hr. set_solver.
Qed.


Lemma wf_from_store σ v : wf_store σ → wf_store (from_store σ v).
Proof.
  intros Hwf. unfold from_store.
  repeat (apply wf_upd; [|live]). by repeat apply wf_push.
Qed.

(** * Every run *)

(** The invariant [inv] holds on the quiet runs: those without the
    destruction of an owner that has other members, or of a mutable
    borrower.  What follows is kept by every call. *)

Lemma cell_kept_null σ (P : ptr → Prop) : cell_kept σ nullptr P.
Proof. left. split; [unfold nullptr; lia|reflexivity]. Qed.

Lemma cell_kept_wframe σ σ' h cur (P P' : ptr → Prop) :
  wf_store σ → wframe σ σ' h → cell_kept σ cur P →
  (∀ m, P m → P' m) → cell_kept σ' cur P'.
Proof.
  intros Hwf Hf [[Hb Hd]|(m & acc & q & Hl & Ha & Hp)] HP.
  - left. pose proof (w_brk _ _ _ Hf). split; [lia|].
    by apply (w_dead _ _ _ Hf).
  - destruct (w_record _ _ _ Hf _ _ Hl) as [Hl'|Hl'].
    + right. destruct (w_slot_kind _ _ _ Hf _ _ Ha) as [q' Ha'].
      exists m, acc, q'. auto.
    + left. split; [|done]. pose proof (wf_bound _ _ _ Hwf Hl).
      pose proof (w_brk _ _ _ Hf). lia.
Qed.

Lemma group_kept_agree D σ h v1 ow1 c1 s1 v2 ow2 c2 s2 :
  group_kept D σ h v1 ow1 c1 s1 → group_kept D σ h v2 ow2 c2 s2 →
  v1 = v2 ∧ ow1 = ow2 ∧ c1 = c2 ∧ s1 = s2.
Proof.
  intros [A1 A2 A3 A4 A5 _ _ _] [B1 B2 B3 B4 B5 _ _ _].
  repeat split; congruence.
Qed.

Lemma kept_member D σ x h v ow cur s :
  kept D σ → group_kept D σ h v ow cur s →
  obj_at σ x = Some (OLifetime h) → x ∈ s.
Proof.
  intros Hk Hg Hx.
  destruct (k_handles _ _ Hk _ _ Hx) as (v' & ow' & cur' & s' & Hg' & Hin).
  by destruct (group_kept_agree _ _ _ _ _ _ _ _ _ _ _ Hg Hg') as (_ & _ & _ & ->).
Qed.

Lemma kept_apart_old D σ this h :
  kept D σ → obj_at σ this = Some (OLifetime h) →
  ∀ y hy, obj_at σ y = Some (OLifetime hy) → shares hy h → hy = h.
Proof. intros Hk Hh y hy Hy Hs. by eapply (k_apart _ _ Hk). Qed.

Lemma kept_empty : kept ∅ (@empty_store T).
Proof.
  constructor; [apply wf_empty|..].
  - intros x hx; unfold obj_at, empty_store; simpl; case_decide;
      by rewrite ?lookup_empty.
  - intros x hx; unfold obj_at, empty_store; simpl; case_decide;
      by rewrite ?lookup_empty.
  - intros d Hd. by apply elem_of_empty in Hd.
Qed.

(** A call on one group keeps the rest when it keeps that group. *)
Lemma kept_frame D D' σ σ' h :
  kept D σ → wf_store σ' → wframe σ σ' h → D ⊆ D' →
  (∀ x, obj_at σ' x = Some (OLifetime h) →
        ∃ v ow cur s, group_kept D' σ' h v ow cur s ∧ x ∈ s) →
  (∀ y hy, obj_at σ y = Some (OLifetime hy) → shares hy h → hy = h) →
  (∀ d, d ∈ D' → d ∉ D → obj_at σ' d = None ∧ d ≤ brk σ') →
  kept D' σ'.
Proof.
  intros [Hwf Hh Hap Hdr] Hwf' Hf HD Hgrp Hnew Hd'. constructor; [done|..].
  - intros x hx Hx. destruct (decide (hx = h)) as [->|Hne]; [by apply Hgrp|].
    destruct (w_old _ _ _ Hf _ _ Hx) as [?|Hold]; [done|].
    destruct (Hh _ _ Hold) as (v & ow & cur & s & [G1 G2 G3 G4 G5 G6 G7 G8] & Hin).
    assert (¬ shares hx h) as Hsh by (intros Hs; by apply (Hnew _ _ Hold) in Hs).
    unfold shares in Hsh.
    assert (∃ cur', obj_at σ' (m_mutator hx) = Some (OSlot cur') ∧
                    cell_kept σ' cur' (λ m, m ∈ s ∧ m ≠ ow)) as (cur' & G3' & G8').
    { destruct (w_slot _ _ _ Hf _ _ G3) as [G3'|G3']; [tauto|..].
      - exists cur. split; [done|].
        by apply (cell_kept_wframe σ σ' h cur _ _ Hwf Hf G8).
      - exists nullptr. split; [done|]. apply cell_kept_null. }
    exists v, ow, cur', s. split; [|done]. constructor.
    + apply (w_val _ _ _ Hf); [done|tauto].
    + apply (w_owner _ _ _ Hf); [done|tauto].
    + done.
    + by apply (w_mutex _ _ _ Hf).
    + apply (w_set _ _ _ Hf); [done|tauto].
    + destruct G6 as [?|?]; [by left|right; by apply HD].
    + intros y Hy. apply (w_handle _ _ _ Hf); [by apply G7|done].
    + done.
  - intros x hx y hy Hx Hy Hs.
    destruct (w_old _ _ _ Hf _ _ Hx) as [->|Hxo];
      destruct (w_old _ _ _ Hf _ _ Hy) as [->|Hyo]; try done.
    + symmetry. apply (Hnew _ _ Hyo). by apply shares_sym.
    + by apply (Hnew _ _ Hxo).
    + by eapply Hap.
  - intros d Hd. destruct (decide (d ∈ D)) as [HdD|HdD]; [|by apply Hd'].
    destruct (Hdr _ HdD) as [Hn Hb]. pose proof (w_brk _ _ _ Hf).
    split; [by apply (w_dead _ _ _ Hf)|lia].
Qed.

(** The fields of [wframe] for a store written out. *)
Ltac wframe_fields Hwf :=
  constructor; intros; bounds Hwf;
  first [ solve [solve_at]
        | solve [eexists; solve_at]
        | solve [left; solve_at]
        | solve [old_or_new]
        | solve [rewrite ?brk_upd, ?brk_push, ?brk_del; lia]
        | idtac ].

Lemma kept_same D σ σ' h :
  kept D σ → wf_store σ' → wframe σ σ' h →
  (∀ x, obj_at σ' x = Some (OLifetime h) →
        ∃ v ow cur s, group_kept D σ' h v ow cur s ∧ x ∈ s) →
  (∀ y hy, obj_at σ y = Some (OLifetime hy) → shares hy h → hy = h) →
  kept D σ'.
Proof.
  intros Hk Hwf' Hf Hgrp Hnew.
  by apply (kept_frame D D σ σ' h).
Qed.

(** *** Writing the value *)

Lemma kept_set D σ this h v ow cur s v' :
  kept D σ → obj_at σ this = Some (OLifetime h) →
  group_kept D σ h v ow cur s →
  kept D (upd (m_T h) (OVal v') σ).
Proof.
  intros Hk Hh Hg. pose proof (k_wf _ _ Hk) as Hwf.
  pose proof Hg as [G1 G2 G3 G4 G5 G6 G7 G8].
  assert (wframe σ (upd (m_T h) (OVal v') σ) h) as Hf by wframe_fields Hwf.
  apply (kept_same D σ _ h); try done.
  - apply wf_upd; [done|eauto].
  - intros x Hx. unwind Hx.
    exists v', ow, cur, s. split; [|by eapply kept_member].
    constructor; try done; try solve_at.
    + intros y Hy. pose proof (G7 _ Hy). solve_at.
    + by apply (cell_kept_wframe σ _ h cur _ _ Hwf Hf G8).
  - by eapply kept_apart_old.
Qed.

(** *** A new handle joins the group *)

Lemma borrow_run D σ this h v ow cur s :
  wf_store σ → obj_at σ this = Some (OLifetime h) →
  group_kept D σ h v ow cur s →
  borrow this σ = Ok (N.succ (brk σ)) (borrow_store σ h s).
Proof.
  intros Hwf Hh [G1 G2 G3 G4 G5 G6 G7 G8]. bounds Hwf.
  unfold borrow, Lifetime_ctor. exec. by rewrite eta_Lifetime.
Qed.

Lemma kept_borrow D σ this h v ow cur s :
  kept D σ → obj_at σ this = Some (OLifetime h) →
  group_kept D σ h v ow cur s →
  kept D (borrow_store σ h s).
Proof.
  intros Hk Hh Hg. pose proof (k_wf _ _ Hk) as Hwf.
  pose proof Hg as [G1 G2 G3 G4 G5 G6 G7 G8]. bounds Hwf.
  assert (wframe σ (borrow_store σ h s) h) as Hf.
  { unfold borrow_store; simpl. wframe_fields Hwf. }
  apply (kept_same D σ _ h); try done.
  - unfold borrow_store. apply wf_upd; [|live]. apply wf_upd; [|live].
    by apply wf_push.
  - intros x Hx. exists v, ow, cur, ({[N.succ (brk σ)]} ∪ s). split.
    + constructor; try (unfold borrow_store; simpl; solve_at).
      * destruct G6; [left; set_solver|by right].
      * intros y [->%elem_of_singleton|Hy]%elem_of_union;
          [|pose proof (G7 _ Hy); bounds Hwf]; unfold borrow_store; simpl; solve_at.
      * apply (cell_kept_wframe σ _ h cur _ _ Hwf Hf G8). set_solver.
    + unfold borrow_store in Hx; simpl in Hx. unwind Hx; [set_solver..|].
      apply elem_of_union_r. by eapply kept_member.
  - by eapply kept_apart_old.
Qed.

Lemma move_run D σ this h v ow cur s :
  wf_store σ → obj_at σ this = Some (OLifetime h) →
  group_kept D σ h v ow cur s →
  move this σ =
    if decide (ow = this) then Ok (N.succ (brk σ)) (move_store σ h s)
    else Throw NotOwner σ.
Proof.
  intros Hwf Hh [G1 G2 G3 G4 G5 G6 G7 G8]. bounds Hwf.
  case_decide as Ho.
  - subst ow. unfold move, Lifetime_ctor. exec. by rewrite eta_Lifetime.
  - unfold move. exec. assert (this ≠ ow) by congruence. by exec.
Qed.

Lemma kept_move D σ this h v cur s :
  kept D σ → obj_at σ this = Some (OLifetime h) →
  group_kept D σ h v this cur s →
  kept D (move_store σ h s).
Proof.
  intros Hk Hh Hg. pose proof (k_wf _ _ Hk) as Hwf.
  pose proof Hg as [G1 G2 G3 G4 G5 G6 G7 G8]. bounds Hwf.
  assert (wframe σ (move_store σ h s) h) as Hf.
  { unfold move_store; simpl. wframe_fields Hwf. }
  apply (kept_same D σ _ h); try done.
  - unfold move_store. repeat (apply wf_upd; [|live]). by apply wf_push.
  - intros x Hx.
    exists v, (N.succ (brk σ)), cur, ({[N.succ (brk σ)]} ∪ s). split.
    + constructor; try (unfold move_store; simpl; solve_at).
      * left. set_solver.
      * intros y [->%elem_of_singleton|Hy]%elem_of_union;
          [|pose proof (G7 _ Hy); bounds Hwf]; unfold move_store; simpl; solve_at.
      * apply (cell_kept_wframe σ _ h cur _ _ Hwf Hf G8).
        intros m [Hm _]. split; [set_solver|].
        apply G7, (wf_bound _ _ _ Hwf) in Hm. lia.
    + unfold move_store in Hx; simpl in Hx. unwind Hx; [set_solver..|].
      apply elem_of_union_r. by eapply kept_member.
  - by eapply kept_apart_old.
Qed.

Lemma kept_owner_bound D σ h v ow cur s :
  kept D σ → group_kept D σ h v ow cur s → ow ≤ brk σ.
Proof.
  intros Hk [G1 G2 G3 G4 G5 [Ho|Ho] G7 G8].
  - apply G7 in Ho. by eapply wf_bound; [apply Hk|].
  - by apply (k_dropped _ _ Hk).
Qed.

Lemma kept_borrow_mutable D σ this h v ow s :
  kept D σ → obj_at σ this = Some (OLifetime h) →
  group_kept D σ h v ow nullptr s →
  kept D (borrow_mutable_store σ h s).
Proof.
  intros Hk Hh Hg. pose proof (k_wf _ _ Hk) as Hwf.
  pose proof (kept_owner_bound _ _ _ _ _ _ _ Hk Hg) as Hob.
  pose proof Hg as [G1 G2 G3 G4 G5 G6 G7 G8]. bounds Hwf.
  assert (wframe σ (borrow_mutable_store σ h s) h) as Hf.
  { unfold borrow_mutable_store; simpl. wframe_fields Hwf.
    destruct (decide (q = m_mutator h)) as [->|]; eexists; solve_at. }
  apply (kept_same D σ _ h); try done.
  - unfold borrow_mutable_store.
    repeat (apply wf_upd; [|live]). by repeat apply wf_push.
  - intros x Hx.
    exists v, ow, (N.succ (N.succ (brk σ))), ({[N.succ (brk σ)]} ∪ s). split.
    + constructor; try (unfold borrow_mutable_store; simpl; solve_at).
      * destruct G6; [left; set_solver|by right].
      * intros y [->%elem_of_singleton|Hy]%elem_of_union;
          [|pose proof (G7 _ Hy); bounds Hwf];
          unfold borrow_mutable_store; simpl; solve_at.
      * right. exists (N.succ (brk σ)), (N.succ (N.succ (N.succ (brk σ)))),
          (N.succ (N.succ (brk σ))).
        split; [unfold borrow_mutable_store; simpl; solve_at|].
        split; [unfold borrow_mutable_store; simpl; solve_at|].
        split; [set_solver|lia].
    + unfold borrow_mutable_store in Hx; simpl in Hx. unwind Hx; [set_solver..|].
      apply elem_of_union_r. by eapply kept_member.
  - by eapply kept_apart_old.
Qed.

(** *** A new group *)

Lemma kept_from D σ v : kept D σ → kept D (from_store σ v).
Proof.
  intros Hk. pose proof (k_wf _ _ Hk) as Hwf.
  set (h := from_Lifetime (brk σ)).
  pose proof (from_cells σ v) as Hc. simpl in Hc. fold h in Hc.
  assert (∀ y hy, obj_at σ y = Some (OLifetime hy) → ¬ shares hy h) as Hsh.
  { intros y hy Hy Hs.
    destruct (k_handles _ _ Hk _ _ Hy) as (v' & ow & cur & s & Hg & _).
    destruct Hg as [G1 G2 G3 G4 G5 _ _ _]. bounds Hwf.
    unfold shares, h, from_Lifetime in Hs; simpl in Hs. lia. }
  assert (wframe σ (from_store σ v) h) as Hf.
  { constructor; intros; try (eexists; by apply from_store_extends);
      try (left; by apply from_store_extends);
      try by apply from_store_extends.
    - unfold h, from_store in *; simpl in *. old_or_new.
    - unfold from_store; simpl. solve_at.
    - unfold from_store; simpl. rewrite ?brk_upd, ?brk_push. lia. }
  apply (kept_same D σ _ h); try done.
  - by apply wf_from_store.
  - intros x Hx.
    assert (x = N.succ (N.succ (brk σ))) as ->.
    { unfold from_store in Hx; simpl in Hx. unwind Hx; try done.
      exfalso. eapply Hsh; [done|]. by left. }
    destruct Hc as [C1 C2 C3 C4 C5 C6 C7]. simpl in *.
    exists v, (N.succ (N.succ (brk σ))), nullptr, {[N.succ (N.succ (brk σ))]}.
    split; [|set_solver]. constructor; try done.
    + left. set_solver.
    + by intros y ->%elem_of_singleton.
    + apply cell_kept_null.
  - intros y hy Hy Hs. by apply (Hsh _ _ Hy) in Hs.
Qed.

(** *** A handle goes *)

Lemma cell_kept_impl σ cur (P P' : ptr → Prop) :
  cell_kept σ cur P →
  (∀ m acc, obj_at σ cur = Some (OMutator (LifetimeMutator.mk m acc)) →
            P m → P' m) →
  cell_kept σ cur P'.
Proof.
  intros [?|(m & acc & q & Hl & Ha & Hp)] HP; [by left|].
  right. exists m, acc, q. eauto.
Qed.

(** The mutable borrower goes: first its [LifetimeMutator]. *)
Lemma kept_release D σ this h v ow cur s acc q0 :
  kept D σ → obj_at σ this = Some (OLifetime h) →
  group_kept D σ h v ow cur s →
  obj_at σ cur = Some (OMutator (LifetimeMutator.mk this acc)) →
  obj_at σ acc = Some (OSlot q0) →
  kept D (release_store σ cur acc) ∧
  obj_at (release_store σ cur acc) this = Some (OLifetime h) ∧
  ∃ cur', group_kept D (release_store σ cur acc) h v ow cur' s ∧
          obj_at (release_store σ cur acc) cur' = None.
Proof.
  intros Hk Hh Hg Hl Ha. pose proof (k_wf _ _ Hk) as Hwf.
  pose proof Hg as [G1 G2 G3 G4 G5 G6 G7 G8]. bounds Hwf.
  set (σ' := release_store σ cur acc).
  assert (wf_store σ') as Hwf'.
  { unfold σ', release_store. apply wf_del. apply wf_upd; [|live].
    apply wf_upd; [done|eauto]. }
  assert (wframe σ σ' h) as Hf.
  { unfold σ', release_store. wframe_fields Hwf.
    - destruct (decide (q = acc)) as [->|]; [right|left]; solve_at.
    - destruct (decide (q = acc)) as [->|]; eexists; solve_at.
    - destruct (decide (q = cur)) as [->|]; [right|left]; solve_at. }
  assert (obj_at σ' this = Some (OLifetime h)) as Hh'.
  { unfold σ', release_store. solve_at. }
  assert (∃ cur', obj_at σ' (m_mutator h) = Some (OSlot cur') ∧
                  cur' ≤ brk σ' ∧ obj_at σ' cur' = None) as (cur' & C1 & C2 & C3).
  { destruct (decide (acc = m_mutator h)) as [->|].
    - exists nullptr. unfold σ', release_store.
      split; [solve_at|]. split; [unfold nullptr; lia|reflexivity].
    - exists cur. unfold σ', release_store.
      split; [solve_at|]. split; [by rewrite ?brk_del, ?brk_upd|].
      apply obj_at_del_eq. }
  assert (group_kept D σ' h v ow cur' s) as Hg'.
  { constructor; try done; try (unfold σ', release_store; solve_at).
    - intros y Hy. pose proof (G7 _ Hy). unfold σ', release_store. solve_at.
    - by left. }
  split; [|eauto].
  apply (kept_same D σ _ h); try done; [|by eapply kept_apart_old].
  intros x Hx. exists v, ow, cur', s. split; [done|].
  eapply kept_member; [done..|].
  unfold σ', release_store in Hx. by unwind Hx.
Qed.

Lemma kept_destroy_keep D σ this h v ow cur s :
  kept D σ → obj_at σ this = Some (OLifetime h) →
  group_kept D σ h v ow cur s → ow ≠ this →
  (∀ acc, obj_at σ cur ≠ Some (OMutator (LifetimeMutator.mk this acc))) →
  kept D (del this (upd this (OLifetime (reset_Lifetime h))
            (upd (m_refs h) (OSet (s ∖ {[this]})) σ))).
Proof.
  intros Hk Hh Hg How Hnm. pose proof (k_wf _ _ Hk) as Hwf.
  pose proof Hg as [G1 G2 G3 G4 G5 G6 G7 G8].
  match goal with |- kept _ ?t => set (σ' := t) end.
  assert (wframe σ σ' h) as Hf by (unfold σ'; wframe_fields Hwf).
  apply (kept_same D σ _ h); try done; [| |by eapply kept_apart_old].
  - unfold σ'. apply wf_del. apply wf_upd; [|live]. apply wf_upd; [done|live].
  - intros x Hx.
    assert (x ≠ this ∧ obj_at σ x = Some (OLifetime h)) as [Hxt Hxo].
    { unfold σ' in Hx. unwind Hx; try done; try congruence. }
    exists v, ow, cur, (s ∖ {[this]}). split.
    + constructor; try (unfold σ'; solve_at).
      * destruct G6; [left; set_solver|by right].
      * intros y [Hy Hyt%not_elem_of_singleton]%elem_of_difference.
        pose proof (G7 _ Hy). unfold σ'. solve_at.
      * assert (cell_kept σ cur (λ m, m ∈ s ∖ {[this]} ∧ m ≠ ow)) as G8'.
        { apply (cell_kept_impl _ _ _ _ G8). intros m acc Hl [Hm Hmo].
          split; [|done]. apply elem_of_difference. split; [done|].
          apply not_elem_of_singleton. intros ->. by eapply Hnm. }
        by apply (cell_kept_wframe σ _ h cur _ _ Hwf Hf G8').
    + apply elem_of_difference. split; [by eapply kept_member|].
      by apply not_elem_of_singleton.
Qed.

(** The owner goes while other members remain: it joins [D]. *)
Lemma kept_destroy_throw D σ this h v cur s :
  kept D σ → obj_at σ this = Some (OLifetime h) →
  group_kept D σ h v this cur s →
  (∀ acc, obj_at σ cur ≠ Some (OMutator (LifetimeMutator.mk this acc))) →
  kept (D ∪ {[this]}) (del this (upd (m_refs h) (OSet (s ∖ {[this]})) σ)).
Proof.
  intros Hk Hh Hg Hnm. pose proof (k_wf _ _ Hk) as Hwf.
  pose proof Hg as [G1 G2 G3 G4 G5 G6 G7 G8].
  match goal with |- kept _ ?t => set (σ' := t) end.
  assert (wframe σ σ' h) as Hf by (unfold σ'; wframe_fields Hwf).
  apply (kept_frame D _ σ _ h); try done.
  - unfold σ'. apply wf_del. apply wf_upd; [done|live].
  - set_solver.
  - intros x Hx.
    assert (x ≠ this ∧ obj_at σ x = Some (OLifetime h)) as [Hxt Hxo].
    { unfold σ' in Hx. unwind Hx; try done; try congruence. }
    exists v, this, cur, (s ∖ {[this]}). split.
    + constructor; try (unfold σ'; solve_at).
      * right. set_solver.
      * intros y [Hy Hyt%not_elem_of_singleton]%elem_of_difference.
        pose proof (G7 _ Hy). unfold σ'. solve_at.
      * assert (cell_kept σ cur (λ m, m ∈ s ∖ {[this]} ∧ m ≠ this)) as G8'.
        { apply (cell_kept_impl _ _ _ _ G8). intros m acc Hl [Hm Hmo].
          split; [|done]. apply elem_of_difference. split; [done|].
          by apply not_elem_of_singleton. }
        by apply (cell_kept_wframe σ _ h cur _ _ Hwf Hf G8').
    + apply elem_of_difference. split; [by eapply kept_member|].
      by apply not_elem_of_singleton.
  - by eapply kept_apart_old.
  - intros d Hd HdD. assert (d = this) as -> by set_solver.
    split; [apply obj_at_del_eq|].
    unfold σ'. rewrite brk_del, brk_upd. by eapply wf_bound.
Qed.

(** The last member goes. *)
Lemma kept_destroy_last D σ this h v ow cur s (b : bool) :
  kept D σ → obj_at σ this = Some (OLifetime h) →
  group_kept D σ h v ow cur s → s ∖ {[this]} = ∅ →
  let σ2 := upd (m_refs h) (OSet (s ∖ {[this]})) σ in
  kept D (del this (upd this (OLifetime (reset_Lifetime h))
            (teardown_store
               (if b then upd (m_refs h) (OSet ∅) σ2 else σ2) h))).
Proof.
  intros Hk Hh Hg He σ2. pose proof (k_wf _ _ Hk) as Hwf.
  pose proof Hg as [G1 G2 G3 G4 G5 G6 G7 G8].
  match goal with |- kept _ ?t => set (σ' := t) end.
  assert (this ≠ m_T h ∧ this ≠ m_owner h ∧ this ≠ m_refs h) as (?&?&?)
    by (repeat split; congruence).
  assert (m_T h ≠ m_owner h ∧ m_T h ≠ m_refs h ∧ m_owner h ≠ m_refs h)
    as (?&?&?) by (repeat split; congruence).
  assert (wframe σ σ' h) as Hf.
  { unfold σ', σ2, teardown_store. destruct b; wframe_fields Hwf. }
  apply (kept_same D σ _ h); try done; [| |by eapply kept_apart_old].
  - unfold σ', σ2, teardown_store. apply wf_del. apply wf_upd.
    + repeat apply wf_del. destruct b; repeat (apply wf_upd; [|live]); done.
    + destruct b; live.
  - intros x Hx. exfalso.
    assert (x ≠ this ∧ obj_at σ x = Some (OLifetime h)) as [Hxt Hxo].
    { unfold σ', σ2, teardown_store in Hx.
      destruct b; unwind Hx; try done; try congruence. }
    assert (x ∈ s) by by eapply kept_member.
    set_solver.
Qed.

(** *** Every call *)

(** A handle of a kept group sees it, unless its mutator cell holds the
    address of a deleted record. *)
Lemma group_kept_cells D σ this h v ow cur s :
  group_kept D σ h v ow cur s → obj_at σ this = Some (OLifetime h) →
  (cur ≠ nullptr ∧ obj_at σ cur = None) ∨
  ∃ mu, cells σ this h cur (mkGroup v ow mu s) ∧
        ∀ m, mu = Some m →
          m ∈ s ∧ m ≠ ow ∧
          ∃ acc q, obj_at σ cur = Some (OMutator (LifetimeMutator.mk m acc)) ∧
                   obj_at σ acc = Some (OSlot q).
Proof.
  intros [G1 G2 G3 G4 G5 G6 G7 G8] Hh.
  destruct G8 as [[Hb Hd]|(m & acc & q & Hl & Ha & Hm & Hmo)].
  - destruct (decide (cur = nullptr)) as [->|Hn]; [right|by left].
    exists None. split; [by constructor|]. by intros m [=].
  - right. exists (Some m). split.
    + constructor; try done. simpl. by eapply mutator_view_intro.
    + intros m' [= <-]. eauto 10.
Qed.

Lemma move_to_run D σ this other h v ow cur s :
  obj_at σ this = Some (OLifetime h) → group_kept D σ h v ow cur s →
  move_to this other σ = Throw NotOwner σ.
Proof.
  intros Hh [G1 G2 G3 G4 G5 G6 G7 G8]. unfold move_to. exec.
  assert (this ≠ m_owner h) by congruence. by exec.
Qed.

(** The destructor's "Remove mutability" step keeps what is kept, and
    leaves no record for [this] behind the mutator cell. *)
Lemma kept_unmutate D σ this h v ow cur mu s :
  kept D σ → obj_at σ this = Some (OLifetime h) →
  group_kept D σ h v ow cur s →
  cells σ this h cur (mkGroup v ow mu s) →
  (∀ m, mu = Some m →
     ∃ acc q, obj_at σ cur = Some (OMutator (LifetimeMutator.mk m acc)) ∧
              obj_at σ acc = Some (OSlot q)) →
  let σu := unmutate_store σ this cur in
  kept D σu ∧ obj_at σu this = Some (OLifetime h) ∧
  ∃ cur', group_kept D σu h v ow cur' s ∧
          ∀ acc, obj_at σu cur' ≠ Some (OMutator (LifetimeMutator.mk this acc)).
Proof.
  intros Hk Hh Hg Hc Hmu σu. unfold σu.
  destruct (decide (mu = Some this)) as [->|Hne].
  - destruct (Hmu this eq_refl) as (acc & q & Hl & Ha).
    assert (unmutate_store σ this cur = release_store σ cur acc) as ->.
    { unfold unmutate_store. pose proof Hl as ->%mutator_at_Some. simpl.
      by rewrite bool_decide_eq_true_2. }
    destruct (kept_release _ _ _ _ _ _ _ _ _ _ Hk Hh Hg Hl Ha)
      as (Hk' & Hh' & cur' & Hg' & Hdead).
    split; [done|]. split; [done|]. exists cur'. split; [done|].
    intros acc'. congruence.
  - rewrite (unmutate_store_other _ _ _ (mkGroup v ow mu s))
      by (done || apply Hc).
    split; [done|]. split; [done|]. exists cur. split; [done|].
    intros acc Hl. destruct mu as [m|].
    + destruct (Hmu m eq_refl) as (acc' & q & Hl' & _). congruence.
    + destruct Hc as [_ _ _ _ _ _ ->%mutator_view_None]. done.
Qed.

(** A live handle and its group, or no defined behaviour. *)
Ltac on_kept Hk σ this :=
  let h := fresh "h" in
  let E := fresh "E" in
  destruct (lifetime_at σ this) as [h|] eqn:E;
  [ apply lifetime_at_Some in E;
    let v := fresh "v" in
    let ow := fresh "ow" in
    let cur := fresh "cur" in
    let s := fresh "s" in
    let Hg := fresh "Hg" in
    let Hin := fresh "Hin" in
    destruct (k_handles _ _ Hk _ _ E) as (v & ow & cur & s & Hg & Hin)
  | unfold after, perform, clone, set, borrow, borrow_mutable, move, move_to,
      destroy, Lifetime_dtor;
    rewrite ?bind_assoc, bind_load_this_dead by done; done ].

Lemma kept_step D σ c σ' :
  kept D σ → after c σ = Some σ' → kept (D ∪ thrown c σ) σ'.
Proof.
  intros Hk. pose proof (k_wf _ _ Hk) as Hwf.
  destruct c as
    [val|this|this|this val|this|this|this|this|this|this|this other|this];
    try (unfold thrown; rewrite (right_id_L ∅ (∪))).
  - unfold after, perform, bind. rewrite from_spec. intros [= <-].
    by apply kept_from.
  - on_kept Hk σ this. pose proof Hg as [G1 G2 G3 G4 G5 G6 G7 G8].
    unfold after, perform, bind. erewrite clone_spec by done. intros [= <-].
    by apply kept_from.
  - by intros ->%after_readonly; [|apply readonly_get].
  - on_kept Hk σ this. pose proof Hg as [G1 G2 G3 G4 G5 G6 G7 G8].
    destruct (group_kept_cells _ _ _ _ _ _ _ _ Hg E) as [[Hn Hd]|(mu & Hc & _)].
    + destruct (dangling_cell σ this h cur v ow s) as (Hs & _); try done.
      unfold after, perform. by rewrite Hs.
    + unfold after, perform. rewrite (set_spec _ _ _ _ _ val Hc).
      case_decide; intros [= <-]; [|done]. by eapply kept_set.
  - by intros ->%after_readonly; [|apply readonly_get_mutable].
  - on_kept Hk σ this. unfold after, perform, bind.
    rewrite (borrow_run _ _ _ _ _ _ _ _ Hwf E Hg). intros [= <-].
    by eapply kept_borrow.
  - on_kept Hk σ this. pose proof Hg as [G1 G2 G3 G4 G5 G6 G7 G8].
    unfold after, perform, bind.
    destruct (decide (cur = nullptr)) as [->|Hn].
    + destruct (group_kept_cells _ _ _ _ _ _ _ _ Hg E)
        as [[Hn _]|(mu & Hc & _)]; [done|].
      rewrite (borrow_mutable_free _ _ _ _ Hwf Hc). intros [= <-].
      by eapply kept_borrow_mutable.
    + rewrite (borrow_mutable_taken _ _ _ _ E G3 Hn). by intros [= <-].
  - by intros ->%after_readonly; [|apply readonly_is_owner].
  - by intros ->%after_readonly; [|apply readonly_is_mutator].
  - on_kept Hk σ this. unfold after, perform, bind.
    rewrite (move_run _ _ _ _ _ _ _ _ Hwf E Hg).
    case_decide as Ho; intros [= <-]; [|done]. subst ow.
    by eapply kept_move.
  - on_kept Hk σ this. unfold after, perform.
    rewrite (move_to_run _ _ _ _ _ _ _ _ _ E Hg). by intros [= <-].
  - on_kept Hk σ this. pose proof Hg as [G1 G2 G3 G4 G5 G6 G7 G8].
    destruct (group_kept_cells _ _ _ _ _ _ _ _ Hg E)
      as [[Hn Hd]|(mu & Hc & Hmu)].
    + destruct (dangling_cell σ this h cur v ow s) as (_ & _ & _ & Hs); try done.
      unfold after, perform. by rewrite Hs.
    + destruct (kept_unmutate _ _ _ _ _ _ _ _ _ Hk E Hg Hc)
        as (Hk' & Hh' & cur' & Hg' & Hnm).
      { intros m Hm. destruct (Hmu m Hm) as (_ & _ & ?). done. }
      unfold thrown, after, perform.
      destruct (decide (s ∖ {[this]} = ∅)) as [He|Hne].
      * pose proof (destroy_last _ _ _ _ _ Hc He) as Hdl. simpl in Hdl.
        rewrite Hdl. intros [= <-]. rewrite (right_id_L ∅ (∪)).
        unfold erase_store. rewrite bool_decide_eq_true_2 by done.
        by eapply (kept_destroy_last D _ this h v ow cur' s).
      * destruct (decide (ow = this)) as [->|Ho].
        -- rewrite (destroy_throw _ _ _ _ _ Hc eq_refl Hne). intros [= <-].
           simpl. unfold erase_store. rewrite bool_decide_eq_true_2 by done.
           by eapply kept_destroy_throw.
        -- rewrite (destroy_keep _ _ _ _ _ Hc Ho Hne). intros [= <-].
           rewrite (right_id_L ∅ (∪)). simpl.
           unfold erase_store. rewrite bool_decide_eq_true_2 by done.
           by eapply kept_destroy_keep.
Qed.

Lemma kept_run cs D σ σ' :
  kept D σ → run cs σ = Some σ' → kept (D ∪ dropped cs σ) σ'.
Proof.
  revert D σ. induction cs as [|c cs IH]; intros D σ Hk; simpl.
  - intros [= <-]. by rewrite (right_id_L ∅ (∪)).
  - destruct (after c σ) as [σ1|] eqn:Ha; [|done]. simpl. intros Hr.
    rewrite (assoc_L (∪)). apply IH; [|done]. by apply kept_step.
Qed.

(** C7, amended: in every store a program reaches, by any calls of the
    members and any destructions, whether they return or throw and whatever
    follows a throw, every live handle is in the member set of its group,
    and that set holds exactly the live handles on the group's cells.  The
    owner is a member, unless it is a handle whose destructor threw: an
    owner that went while other members remained.  Where the handle sees a
    group, the mutator is none or a member; it sees none only when the
    mutator cell holds the address of a deleted [LifetimeMutator], as a
    mutable borrow that ended leaves it (C3). *)
Theorem every_run_keeps_members_and_mutator cs σ this :
  run cs empty_store = Some σ → is_Some (lifetime_at σ this) →
  ∃ ow s,
    roster σ this = Some (ow, s) ∧
    this ∈ s ∧
    (∀ x, x ∈ s ↔ lifetime_at σ x = lifetime_at σ this) ∧
    (ow ∈ s ∨ ow ∈ dropped cs empty_store) ∧
    (∀ g, view σ this = Some g →
       owner g = ow ∧ members g = s ∧
       (mutator g = None ∨ ∃ m, mutator g = Some m ∧ m ∈ s)) ∧
    (view σ this = None →
       ∃ cur, slot σ this = Some cur ∧ cur ≠ nullptr ∧ obj_at σ cur = None).
Proof.
  intros Hrun [h Hh%lifetime_at_Some].
  pose proof (kept_run _ _ _ _ kept_empty Hrun) as Hk.
  rewrite (left_id_L ∅ (∪)) in Hk.
  destruct (k_handles _ _ Hk _ _ Hh) as (v & ow & cur & s & Hg & Hin).
  pose proof Hg as [G1 G2 G3 G4 G5 G6 G7 G8].
  exists ow, s. split.
  { unfold roster. rewrite (proj2 (lifetime_at_Some _ _ _) Hh); simpl.
    rewrite (proj2 (owner_at_Some _ _ _) G2); simpl.
    by rewrite (proj2 (set_at_Some _ _ _) G5). }
  split; [done|]. split.
  { intros x. rewrite (proj2 (lifetime_at_Some _ _ _) Hh), lifetime_at_Some.
    split; [apply G7|]. intros Hx. by eapply kept_member. }
  split; [done|]. split.
  - intros g (h' & cur' & [C1 C2 C3 C4 C5 C6 C7])%view_cells.
    assert (h' = h) as -> by congruence.
    assert (cur' = cur) as -> by congruence.
    split; [congruence|]. split; [congruence|].
    destruct (mutator g) as [m|]; [right|by left].
    exists m. split; [done|].
    apply mutator_view_Some in C7 as (_ & acc & q & Hl & _).
    destruct G8 as [[_ Hd]|(m' & acc' & q' & Hl' & _ & Hm & _)]; [congruence|].
    assert (m' = m) as -> by congruence. done.
  - intros Hv.
    destruct (group_kept_cells _ _ _ _ _ _ _ _ Hg Hh) as [[Hn Hd]|(mu & Hc & _)].
    + exists cur. split; [apply slot_Some; eauto|done].
    + assert (view σ this = Some (mkGroup v ow mu s)) as Hv'
        by (apply view_cells; eauto).
      congruence.
Qed.

End Theory.

(** * The example program *)

Lemma add_spec σ b h cur g :
  cells σ b h cur g → (INT_MIN ≤ value g + 5 ≤ INT_MAX)%Z →
  add b σ =
    if decide (writable g b)
    then Ok [(value g + 5)%Z] (upd (m_T h) (OVal (value g + 5)%Z) σ)
    else Throw NotWritable σ.
Proof.
  intros Hc Hr. pose proof Hc as [H1 H2 _ _ _ _ _].
  unfold add. rewrite (bind_Ok _ _ _ _ _ (get_spec _ _ _ _ H1 H2)).
  unfold int_add. rewrite decide_True by done. rewrite bind_ret.
  pose proof (set_spec _ _ _ _ _ (value g + 5)%Z Hc) as Hs.
  destruct (decide (writable g b)) as [Hw|Hw].
  - rewrite (bind_Ok _ _ _ _ _ Hs).
    pose proof (cells_set _ _ _ _ _ _ (value g + 5)%Z Hc H1) as [C1 C2 _ _ _ _ _].
    by rewrite (bind_Ok _ _ _ _ _ (get_spec _ _ _ _ C1 C2)).
  - by rewrite (bind_Throw _ _ _ _ _ Hs).
Qed.

Lemma call_add_clone σ a h v :
  wf_store σ →
  obj_at σ a = Some (OLifetime h) → obj_at σ (m_T h) = Some (OVal v) →
  (INT_MIN ≤ v + 5 ≤ INT_MAX)%Z →
  ∃ σ',
    call_add (clone a) σ = Ok [(v + 5)%Z] σ' ∧
    (∀ q o, obj_at σ q = Some o → obj_at σ' q = Some o) ∧
    (∀ q o, obj_at σ q = None → obj_at σ' q = Some o →
       o = OMutex ∨ o = OSlot nullptr).
Proof.
  intros Hwf Hh Hv Hr.
  destruct (temporary_clone σ a h v (v + 5)%Z Hwf Hh Hv)
    as (Hcl & Hc & σ' & Hd & P1 & P2).
  exists σ'. split; [|done].
  unfold call_add. rewrite (bind_Ok _ _ _ _ _ Hcl).
  eapply scoped_Ok; [|exact Hd].
  rewrite (add_spec _ _ _ _ _ Hc) by done.
  rewrite decide_True; [done|by left].
Qed.

(** X13: [add(a.clone())] (line 18) prints the value of [a] plus five and
    returns; the clone it worked on is gone, [a] sees the group and reads the
    value it had, no object that was live is touched, and what the call
    leaves behind is the mutex and the mutator cell of the clone. *)
Theorem add_on_a_clone_leaves_the_original σ a g :
  wf_store σ → view σ a = Some g →
  (INT_MIN ≤ value g + 5 ≤ INT_MAX)%Z →
  ∃ σ',
    call_add (clone a) σ = Ok [(value g + 5)%Z] σ' ∧
    view σ' a = Some g ∧ get a σ' = Ok (value g) σ' ∧
    (∀ q o, obj_at σ q = Some o → obj_at σ' q = Some o) ∧
    (∀ q o, obj_at σ q = None → obj_at σ' q = Some o →
       o = OMutex ∨ o = OSlot nullptr).
Proof.
  intros Hwf (h & cur & Hc)%view_cells Hr.
  pose proof Hc as [H1 H2 _ _ _ _ _].
  destruct (call_add_clone σ a h (value g) Hwf H1 H2 Hr) as (σ' & Hcall & P1 & P2).
  pose proof (cells_mono _ _ _ _ _ _ P1 Hc) as [C1 C2 C3 C4 C5 C6 C7].
  exists σ'. split; [done|].
  split; [apply view_cells; exists h, cur; by constructor|].
  split; [by eapply get_spec|done].
Qed.

(** X14: [add(a.move())] (line 20) for the owner [a]: the new owner is the
    parameter of [add]; the value is written, and when [add] returns the
    destructor of the parameter throws "owner freed but references still
    exist".  Afterwards [a] reads the new value, the owner of its group is a
    handle that no longer exists, and every write through [a] is refused. *)
Theorem add_on_a_moved_owner_throws cs σ a g :
  run_quiet cs empty_store = Some σ → view σ a = Some g → owner g = a →
  (INT_MIN ≤ value g + 5 ≤ INT_MAX)%Z →
  ∃ n σ',
    call_add (move a) σ = Throw OwnerDropped σ' ∧
    obj_at σ' n = None ∧
    view σ' a = Some (mkGroup (value g + 5)%Z n (mutator g) (members g)) ∧
    get a σ' = Ok (value g + 5)%Z σ' ∧
    ∀ v, set a v σ' = Throw NotWritable σ'.
Proof.
  intros Hrun (h & cur & Hc)%view_cells Ho Hr.
  pose proof (inv_run_quiet _ _ _ inv_empty Hrun) as Hi.
  destruct (inv_group _ _ _ _ _ Hi Hc) as [Hg _].
  destruct (temporary_owner σ a h cur g (value g + 5)%Z Hi Hc Ho)
    as (Hmv & Hn & σ' & Hd & Hdead & Hc').
  pose proof Hc' as [C1 C2 _ _ _ _ _].
  exists (N.succ (brk σ)), σ'. split.
  { unfold call_add. rewrite (bind_Ok _ _ _ _ _ Hmv).
    eapply scoped_dtor_throws; [|exact Hd].
    rewrite (add_spec _ _ _ _ _ Hn) by done.
    rewrite decide_True; [done|by left]. }
  split; [done|]. split; [apply view_cells; eauto|].
  split; [by eapply get_spec|].
  intros v. rewrite (set_spec _ _ _ _ _ v Hc'), decide_False; [done|].
  intros [Hw|Hw]; simpl in Hw.
  - congruence.
  - apply (go_mutator_in _ _ _ _ Hg) in Hw as [_ Hw]. congruence.
Qed.

(** X15: [main] (lines 13-28) has a defined outcome from every store: it
    prints 20, then 15, and returns 0.  No object that was live is touched;
    the value, the owner cell, the member set and the handle of both groups
    are released, and what [main] leaves behind are mutexes and mutator
    cells, which no destructor deletes. *)
Theorem main_returns_0 σ :
  wf_store σ →
  ∃ σ',
    main σ = Ok ([20; 15]%Z, 0%Z) σ' ∧
    (∀ q o, obj_at σ q = Some o → obj_at σ' q = Some o) ∧
    (∀ q o, obj_at σ q = None → obj_at σ' q = Some o →
       o = OMutex ∨ o = OSlot nullptr) ∧
    (∃ q, obj_at σ q = None ∧ obj_at σ' q = Some OMutex).
Proof.
  intros Hwf.
  pose proof (from_spec σ 15%Z) as Hf.
  pose proof (from_cells σ 15%Z) as Hc. simpl in Hc.
  pose proof (wf_from_store σ 15%Z Hwf) as Hwf1.
  set (a := N.succ (N.succ (brk σ))) in *.
  set (h := from_Lifetime (brk σ)) in *.
  set (σ1 := from_store σ 15%Z) in *.
  pose proof Hc as [C1 C2 C3 C4 C5 C6 C7].
  destruct (call_add_clone σ1 a h 15%Z Hwf1 C1 C2) as (σ3 & Hcall & P1 & P2).
  { unfold INT_MIN, INT_MAX. lia. }
  pose proof (cells_mono _ _ _ _ _ _ P1 Hc) as Hc3.
  pose proof Hc3 as [E1 E2 E3 E4 E5 E6 E7].
  pose proof (cells_set _ _ _ _ _ _ 15%Z Hc3 E1) as Hc5.
  pose proof Hc5 as [F1 F2 F3 F4 F5 F6 F7].
  destruct (release_last _ _ _ _ _ Hc5)
    as (σ6 & Hd & D1 & D2 & D3 & D4 & D5 & D6); [done|simpl; set_solver|].
  assert (view σ3 a = Some (mkGroup 15%Z a None {[a]})) as Hv3
    by (apply view_cells; eauto).
  assert (set a 15%Z σ3 = Ok tt (upd (m_T h) (OVal 15%Z) σ3)) as Hset.
  { rewrite (set_spec _ _ _ _ _ 15%Z Hc3), decide_True; [done|by left]. }
  exists σ6. split.
  { unfold main. rewrite (bind_Ok _ _ _ _ _ Hf).
    eapply scoped_Ok; [|exact Hd].
    rewrite (bind_Ok _ _ _ _ _ Hcall).
    rewrite (bind_Ok _ _ _ _ _ (is_owner_spec _ _ _ Hv3)).
    simpl owner. rewrite bool_decide_eq_true_2 by done. simpl when.
    rewrite (bind_Ok _ _ _ _ _ Hset).
    by rewrite (bind_Ok _ _ _ _ _ (get_spec _ _ _ _ F1 F2)). }
  assert (∀ q, q ≤ brk σ →
            q ≠ a ∧ q ≠ m_T h ∧ q ≠ m_owner h ∧ q ≠ m_refs h) as Hold.
  { intros q Hq. unfold a, h; simpl. lia. }
  split.
  { intros q o Hq. pose proof (wf_bound _ _ _ Hwf Hq) as Hb.
    destruct (Hold _ Hb) as (?&?&?&?).
    apply D5; try done. rewrite obj_at_upd_ne by done.
    apply P1. by apply from_store_extends. }
  split.
  { intros q o Hq Hq6. pose proof (D6 _ _ Hq6) as Hq5.
    apply obj_at_upd_inv in Hq5 as [[-> _]|[_ Hq3]]; [congruence|].
    destruct (obj_at σ1 q) as [o1|] eqn:Hq1.
    - pose proof (P1 _ _ Hq1) as Hq3'.
      assert (o1 = o) as -> by congruence.
      destruct (from_store_new _ _ _ _ Hq Hq1) as [->|[->|[->|[->|?]]]];
        [unfold a, h in *; congruence..|done].
    - by eapply P2. }
  exists (m_mutex h). split.
  - destruct (obj_at σ (m_mutex h)) as [o|] eqn:E; [|done].
    apply (wf_bound _ _ _ Hwf) in E. unfold h in E; simpl in E. lia.
  - apply D5; try (unfold a, h; simpl; lia).
    rewrite obj_at_upd_ne by (unfold h; simpl; lia). by apply P1.
Qed.

(** * The properties on the scenarios *)

Lemma write_iff_owner_or_mutator_witness :
  view s_mutable 7 = Some g_mutable ∧
  (is_ok (set 7 20%Z s_mutable) ↔ writable g_mutable 7) ∧
  (is_ok (get_mutable 7 s_mutable) ↔ writable g_mutable 7) ∧
  (¬ writable g_mutable 7 →
     set 7 20%Z s_mutable = Throw NotWritable s_mutable ∧
     get_mutable 7 s_mutable = Throw NotWritable s_mutable).
Proof.
  split; [vm_compute; reflexivity|].
  apply write_iff_owner_or_mutator. vm_compute; reflexivity.
Defined.

Lemma borrow_mutable_iff_slot_free_witness :
  wf_store s_from ∧ slot s_from 2 = Some nullptr ∧
  ∃ nw σ',
    borrow_mutable 2 s_from = Ok nw σ' ∧
    obj_at s_from nw = None ∧
    lifetime_at σ' nw = lifetime_at s_from 2 ∧
    view σ' nw = Some (mkGroup 15%Z 2 (Some nw) ({[nw]} ∪ {[2]})) ∧
    view σ' 2 = view σ' nw.
Proof.
  assert (wf_store s_from) as Hwf by compute_done.
  assert (slot s_from 2 = Some nullptr) as Hs by (vm_compute; reflexivity).
  split; [exact Hwf|]. split; [exact Hs|].
  destruct (borrow_mutable_iff_slot_free s_from 2 nullptr Hwf Hs) as (_ & _ & H).
  apply (H g_from); vm_compute; reflexivity.
Defined.

Lemma destroy_raises_iff_owner_with_borrows_witness :
  lifetime_at s_borrow 2 = Some h_from ∧ view s_borrow 2 = Some g_borrow ∧
  ((∃ e σ', destroy 2 s_borrow = Throw e σ') ↔
     owner g_borrow = 2 ∧ members g_borrow ∖ {[2]} ≠ ∅) ∧
  (∃ σ',
    destroy_all ([7] ++ [2]) s_borrow = Ok tt σ' ∧
    obj_at σ' (m_T h_from) = None ∧ obj_at σ' (m_owner h_from) = None ∧
    obj_at σ' (m_refs h_from) = None ∧
    obj_at σ' (m_mutex h_from) = Some OMutex ∧
    obj_at σ' (m_mutator h_from) = Some (OSlot nullptr) ∧
    set_Forall (λ x, obj_at σ' x = None) (members g_borrow)) ∧
  ∃ m σ1 σ2,
    borrow_mutable 2 s_borrow = Ok m σ1 ∧
    view σ1 2 = Some (mkGroup (value g_borrow) 2 (Some m)
                              ({[m]} ∪ members g_borrow)) ∧
    destroy m σ1 = Ok tt σ2 ∧
    destroy_all ((m :: [7]) ++ [2]) σ1 = Undef.
Proof.
  assert (lifetime_at s_borrow 2 = Some h_from) as Hh by (vm_compute; reflexivity).
  assert (view s_borrow 2 = Some g_borrow) as Hv by (vm_compute; reflexivity).
  assert (wf_store s_borrow) as Hwf by compute_done.
  assert (2 ∈ members g_borrow) as Hin by compute_done.
  assert (list_to_set [7] = members g_borrow ∖ {[2]}) as Hl
    by (vm_compute; reflexivity).
  assert (set_Forall (λ x, lifetime_at s_borrow x = Some h_from)
            (members g_borrow)) as Hall by compute_done.
  split; [exact Hh|]. split; [exact Hv|].
  destruct (destroy_raises_iff_owner_with_borrows s_borrow 2 h_from g_borrow Hh Hv)
    as (H1 & _ & H3 & H4).
  split; [exact H1|]. split.
  - apply (H3 [7] eq_refl Hin eq_refl); [compute_done|exact Hl|exact Hall].
  - exact (H4 [7] Hwf eq_refl Hin eq_refl Hl Hall).
Defined.

Lemma clone_is_independent_witness :
  wf_store s_from ∧ view s_from 2 = Some g_from ∧
  ∃ c σ1,
    clone 2 s_from = Ok c σ1 ∧
    view σ1 c = Some (mkGroup 15%Z c None {[c]}) ∧
    view σ1 2 = Some g_from ∧
    get c σ1 = Ok 15%Z σ1.
Proof.
  assert (wf_store s_from) as Hwf by compute_done.
  assert (view s_from 2 = Some g_from) as Hv by (vm_compute; reflexivity).
  split; [exact Hwf|]. split; [exact Hv|].
  destruct (clone_is_independent s_from 2 g_from Hwf Hv)
    as (c & σ1 & H1 & _ & H2 & _ & H3 & H4 & _).
  exists c, σ1. repeat split; assumption.
Defined.

Lemma failed_call_has_no_effect_witness :
  set 7 1%Z s_borrow = Throw NotWritable s_borrow ∧
  get_mutable 7 s_borrow = Throw NotWritable s_borrow ∧
  borrow_mutable 2 s_mutable = Throw AlreadyMutableBorrowed s_mutable ∧
  move 7 s_borrow = Throw NotOwner s_borrow ∧
  move_to 2 7 s_borrow = Throw NotOwner s_borrow ∧
  (s_borrow = s_borrow ∧ ∀ x, view s_borrow x = view s_borrow x).
Proof.
  repeat (split; [vm_compute; reflexivity|]).
  apply (failed_call_has_no_effect s_borrow s_borrow NotWritable 7 0 1%Z).
  left. vm_compute; reflexivity.
Defined.

Lemma mutable_borrow_is_never_released_witness :
  wf_store s_from ∧ view s_from 2 = Some g_from ∧
  owner g_from = 2 ∧ 2 ∈ members g_from ∧ mutator g_from = None ∧
  ∃ m σ1 σ2 cur,
    borrow_mutable 2 s_from = Ok m σ1 ∧
    destroy m σ1 = Ok tt σ2 ∧
    slot σ2 2 = Some cur ∧ cur ≠ nullptr ∧ obj_at σ2 cur = None ∧
    view σ2 2 = None ∧
    borrow_mutable 2 σ2 = Throw AlreadyMutableBorrowed σ2.
Proof.
  assert (wf_store s_from) as Hwf by compute_done.
  assert (view s_from 2 = Some g_from) as Hv by (vm_compute; reflexivity).
  assert (2 ∈ members g_from) as Hin by compute_done.
  split; [exact Hwf|]. split; [exact Hv|]. split; [reflexivity|].
  split; [exact Hin|]. split; [reflexivity|].
  exact (mutable_borrow_is_never_released s_from 2 g_from Hwf Hv
           eq_refl Hin eq_refl).
Defined.

Lemma move_keeps_the_mutator_slot_witness :
  wf_store s_preclaimed ∧ view s_preclaimed 2 = Some g_preclaimed ∧
  owner g_preclaimed = 2 ∧ mutator g_preclaimed = Some 2 ∧
  ∃ nw σ',
    move 2 s_preclaimed = Ok nw σ' ∧
    view σ' 2 = Some (mkGroup 1%Z nw (Some 2) ({[nw]} ∪ {[2]})) ∧
    is_ok (set 2 9%Z σ').
Proof.
  assert (wf_store s_preclaimed) as Hwf by compute_done.
  assert (view s_preclaimed 2 = Some g_preclaimed) as Hv by (vm_compute; reflexivity).
  split; [exact Hwf|]. split; [exact Hv|]. split; [reflexivity|].
  split; [reflexivity|].
  exact (move_keeps_the_mutator_slot s_preclaimed 2 g_preclaimed 9%Z Hwf Hv
           eq_refl eq_refl).
Defined.

Lemma move_to_refuses_the_owner_witness :
  view s_borrow 2 = Some g_borrow ∧ owner g_borrow = 2 ∧
  move_to 2 7 s_borrow = Throw NotOwner s_borrow.
Proof.
  assert (view s_borrow 2 = Some g_borrow) as Hv by (vm_compute; reflexivity).
  split; [exact Hv|]. split; [reflexivity|].
  exact (move_to_refuses_the_owner s_borrow 2 7 g_borrow Hv).
Defined.

Lemma is_mutator_reads_through_null_witness :
  view s_from 2 = Some g_from ∧ mutator g_from = None ∧
  is_mutator 2 s_from = Undef.
Proof.
  assert (view s_from 2 = Some g_from) as Hv by (vm_compute; reflexivity).
  split; [exact Hv|]. split; [reflexivity|].
  exact (is_mutator_reads_through_null s_from 2 g_from Hv eq_refl).
Defined.

(** Once a mutable borrow has ended, the mutator cell refers to a deleted
    record: the handles of the group see no group any more, and the tests of
    lines 66, 118 and 134 read the deleted record. *)
Lemma after_a_released_borrow :
  destroy 7 s_mutable = Ok tt s_released ∧
  view s_released 2 = None ∧
  get 2 s_released = Ok 15%Z s_released ∧
  set 2 20%Z s_released = Undef ∧
  get_mutable 2 s_released = Undef ∧
  destroy 2 s_released = Undef.
Proof. repeat split; vm_compute; reflexivity. Qed.

(** C7 as stated fails: after [a = from(15); b = a.borrow()] the owner [a]
    goes first; its destructor throws, [b] lives on, and the owner of the
    group [b] sees is not one of its members. *)
Lemma owner_dropped_is_no_member :
  run [Cfrom 15%Z; Cborrow 2; Cdestroy 2] empty_store = Some s_dropped ∧
  destroy 2 s_borrow = Throw OwnerDropped s_dropped ∧
  view s_dropped 7 = Some g_dropped ∧
  owner g_dropped ∉ members g_dropped.
Proof.
  split; [vm_compute; reflexivity|]. split; [vm_compute; reflexivity|].
  split; [vm_compute; reflexivity|]. compute_done.
Qed.

Lemma every_run_keeps_members_and_mutator_witness :
  run [Cfrom 15%Z; Cborrow 2; Cdestroy 2] empty_store = Some s_dropped ∧
  is_Some (lifetime_at s_dropped 7) ∧
  ∃ ow s,
    roster s_dropped 7 = Some (ow, s) ∧
    7 ∈ s ∧
    (∀ x, x ∈ s ↔ lifetime_at s_dropped x = lifetime_at s_dropped 7) ∧
    (ow ∈ s ∨ ow ∈ dropped [Cfrom 15%Z; Cborrow 2; Cdestroy 2] empty_store) ∧
    (∀ g, view s_dropped 7 = Some g →
       owner g = ow ∧ members g = s ∧
       (mutator g = None ∨ ∃ m, mutator g = Some m ∧ m ∈ s)) ∧
    (view s_dropped 7 = None →
       ∃ cur, slot s_dropped 7 = Some cur ∧ cur ≠ nullptr ∧
              obj_at s_dropped cur = None).
Proof.
  assert (run [Cfrom 15%Z; Cborrow 2; Cdestroy 2] empty_store = Some s_dropped)
    as Hr by (vm_compute; reflexivity).
  assert (is_Some (lifetime_at s_dropped 7)) as Hl by compute_done.
  split; [exact Hr|]. split; [exact Hl|].
  exact (every_run_keeps_members_and_mutator
           [Cfrom 15%Z; Cborrow 2; Cdestroy 2] s_dropped 7 Hr Hl).
Defined.

(** ** The further properties on the scenarios *)

Lemma written_value_is_read_by_every_member_witness :
  lifetime_at s_borrow 2 = Some h_from ∧ lifetime_at s_borrow 7 = Some h_from ∧
  view s_borrow 2 = Some g_borrow ∧ writable g_borrow 2 ∧
  ∃ σ',
    set 2 20%Z s_borrow = Ok tt σ' ∧
    get 2 σ' = Ok 20%Z σ' ∧ get 7 σ' = Ok 20%Z σ' ∧
    view σ' 7 = Some (mkGroup 20%Z 2 None {[2; 7]}).
Proof.
  assert (lifetime_at s_borrow 2 = Some h_from) as H1 by (vm_compute; reflexivity).
  assert (lifetime_at s_borrow 7 = Some h_from) as H2 by (vm_compute; reflexivity).
  assert (view s_borrow 2 = Some g_borrow) as H3 by (vm_compute; reflexivity).
  assert (writable g_borrow 2) as H4 by (left; reflexivity).
  split; [exact H1|]. split; [exact H2|]. split; [exact H3|]. split; [exact H4|].
  exact (written_value_is_read_by_every_member s_borrow 2 7 h_from g_borrow 20%Z
           H1 H2 H3 H4).
Defined.

Lemma borrow_adds_a_reader_witness :
  wf_store s_from ∧ view s_from 2 = Some g_from ∧
  ∃ b σ',
    borrow 2 s_from = Ok b σ' ∧
    obj_at s_from b = None ∧
    lifetime_at σ' b = lifetime_at s_from 2 ∧
    view σ' b = Some (mkGroup 15%Z 2 None ({[b]} ∪ {[2]})) ∧
    view σ' 2 = view σ' b ∧
    get b σ' = Ok 15%Z σ' ∧
    is_owner b σ' = Ok false σ' ∧
    ∀ v, set b v σ' = Throw NotWritable σ' ∧
         get_mutable b σ' = Throw NotWritable σ'.
Proof.
  assert (wf_store s_from) as Hwf by compute_done.
  assert (view s_from 2 = Some g_from) as Hv by (vm_compute; reflexivity).
  split; [exact Hwf|]. split; [exact Hv|].
  apply (borrow_adds_a_reader s_from 2 g_from Hwf Hv).
  - compute_done.
  - intros m Hm. discriminate Hm.
Defined.

Lemma move_strips_write_from_the_old_owner_witness :
  wf_store s_borrow ∧ view s_borrow 2 = Some g_borrow ∧
  ∃ n σ',
    move 2 s_borrow = Ok n σ' ∧
    is_owner n σ' = Ok true σ' ∧
    is_owner 2 σ' = Ok false σ' ∧
    ∀ v, set 2 v σ' = Throw NotWritable σ' ∧
         ∃ σ'', set n v σ' = Ok tt σ'' ∧ get 2 σ'' = Ok v σ''.
Proof.
  assert (wf_store s_borrow) as Hwf by compute_done.
  assert (view s_borrow 2 = Some g_borrow) as Hv by (vm_compute; reflexivity).
  split; [exact Hwf|]. split; [exact Hv|].
  apply (move_strips_write_from_the_old_owner s_borrow 2 g_borrow Hwf Hv).
  - reflexivity.
  - intros Hm. discriminate Hm.
Defined.

Lemma mutable_borrow_grants_write_witness :
  wf_store s_borrow ∧ view s_borrow 7 = Some g_borrow ∧
  ∃ m σ1,
    borrow_mutable 7 s_borrow = Ok m σ1 ∧
    is_mutator m σ1 = Ok true σ1 ∧
    is_mutator 7 σ1 = Ok false σ1 ∧
    ∀ v, ∃ σ2,
      set m v σ1 = Ok tt σ2 ∧
      get 7 σ2 = Ok v σ2 ∧ get m σ2 = Ok v σ2 ∧
      (owner g_borrow = 7 → ∀ v', is_ok (set 7 v' σ2)).
Proof.
  assert (wf_store s_borrow) as Hwf by compute_done.
  assert (view s_borrow 7 = Some g_borrow) as Hv by (vm_compute; reflexivity).
  split; [exact Hwf|]. split; [exact Hv|].
  exact (mutable_borrow_grants_write s_borrow 7 g_borrow Hwf Hv eq_refl).
Defined.

Lemma release_leaves_mutex_and_mutator_cell_witness :
  lifetime_at s_from 2 = Some h_from ∧ view s_from 2 = Some g_from ∧
  ∃ σ',
    destroy 2 s_from = Ok tt σ' ∧
    obj_at σ' 2 = None ∧ obj_at σ' (m_T h_from) = None ∧
    obj_at σ' (m_owner h_from) = None ∧ obj_at σ' (m_refs h_from) = None ∧
    mutex_at σ' (m_mutex h_from) = Some tt ∧
    is_Some (slot_at σ' (m_mutator h_from)).
Proof.
  assert (lifetime_at s_from 2 = Some h_from) as Hh by (vm_compute; reflexivity).
  assert (view s_from 2 = Some g_from) as Hv by (vm_compute; reflexivity).
  split; [exact Hh|]. split; [exact Hv|].
  apply (release_leaves_mutex_and_mutator_cell s_from 2 h_from g_from Hh Hv).
  vm_compute; reflexivity.
Defined.

Lemma get_mutable_refers_to_the_shared_value_witness :
  view s_borrow 2 = Some g_borrow ∧ writable g_borrow 2 ∧
  ∃ p,
    get_mutable 2 s_borrow = Ok p s_borrow ∧
    val_at s_borrow p = Some 15%Z ∧
    get 7 s_borrow = Ok 15%Z s_borrow ∧
    ∀ v, ∃ σ', assign p (OVal v) s_borrow = Ok tt σ' ∧ get 7 σ' = Ok v σ'.
Proof.
  assert (view s_borrow 2 = Some g_borrow) as Hv by (vm_compute; reflexivity).
  assert (writable g_borrow 2) as Hw by (left; reflexivity).
  split; [exact Hv|]. split; [exact Hw|].
  apply (get_mutable_refers_to_the_shared_value s_borrow 2 7 g_borrow Hv Hw).
  vm_compute; reflexivity.
Defined.

Lemma constructor_can_claim_both_roles_witness :
  wf_store s_value ∧ val_at s_value 1 = Some 1%Z ∧
  ∃ this σ',
    Lifetime_ctor 1 nullptr nullptr nullptr nullptr false true s_value
      = Ok this σ' ∧
    obj_at s_value this = None ∧
    view σ' this = Some (mkGroup 1%Z this (Some this) {[this]}) ∧
    is_owner this σ' = Ok true σ' ∧
    is_mutator this σ' = Ok true σ' ∧
    borrow_mutable this σ' = Throw AlreadyMutableBorrowed σ'.
Proof.
  assert (wf_store s_value) as Hwf by compute_done.
  assert (val_at s_value 1 = Some 1%Z) as Hv by (vm_compute; reflexivity).
  split; [exact Hwf|]. split; [exact Hv|].
  exact (constructor_can_claim_both_roles s_value 1 1%Z Hwf Hv).
Defined.

Lemma members_are_the_live_handles_witness :
  run_quiet quiet_calls empty_store = Some s_quiet ∧
  view s_quiet 7 = Some g_quiet ∧
  (∀ x, x ∈ members g_quiet ↔ lifetime_at s_quiet x = lifetime_at s_quiet 7) ∧
  (∀ x, x ∈ members g_quiet → view s_quiet x = Some g_quiet) ∧
  mutator g_quiet ≠ Some (owner g_quiet) ∧
  (∀ x gx, view s_quiet x = Some gx → x ∉ members g_quiet →
     members gx ## members g_quiet).
Proof.
  assert (run_quiet quiet_calls empty_store = Some s_quiet) as Hr
    by (vm_compute; reflexivity).
  assert (view s_quiet 7 = Some g_quiet) as Hv by (vm_compute; reflexivity).
  split; [exact Hr|]. split; [exact Hv|].
  exact (members_are_the_live_handles quiet_calls s_quiet 7 g_quiet Hr Hv).
Defined.

Lemma calls_leave_other_groups_alone_witness :
  run_quiet two_groups empty_store = Some s_two ∧
  after (Cset 2 20%Z) s_two = Some s_two_set ∧
  lifetime_at s_two_set 8 = lifetime_at s_two 8 ∧
  view s_two_set 8 = view s_two 8.
Proof.
  assert (run_quiet two_groups empty_store = Some s_two) as Hr
    by (vm_compute; reflexivity).
  assert (after (Cset 2 20%Z) s_two = Some s_two_set) as Ha
    by (vm_compute; reflexivity).
  split; [exact Hr|]. split; [exact Ha|].
  apply (calls_leave_other_groups_alone two_groups s_two (Cset 2 20%Z)
           s_two_set 8 Hr eq_refl Ha).
  - compute_done.
  - intros this [= <-]. vm_compute. discriminate.
Defined.

Lemma released_mutable_borrow_blocks_the_group_witness :
  wf_store s_from ∧ view s_from 2 = Some g_from ∧
  ∃ m σ1 σ2 σ3,
    borrow_mutable 2 s_from = Ok m σ1 ∧
    set m 20%Z σ1 = Ok tt σ2 ∧
    destroy m σ2 = Ok tt σ3 ∧
    get 2 σ3 = Ok 20%Z σ3 ∧
    is_owner 2 σ3 = Ok (bool_decide (2 = owner g_from)) σ3 ∧
    (∀ v', set 2 v' σ3 = Undef) ∧ get_mutable 2 σ3 = Undef ∧
    is_mutator 2 σ3 = Undef ∧ destroy 2 σ3 = Undef.
Proof.
  assert (wf_store s_from) as Hwf by compute_done.
  assert (view s_from 2 = Some g_from) as Hv by (vm_compute; reflexivity).
  split; [exact Hwf|]. split; [exact Hv|].
  apply (released_mutable_borrow_blocks_the_group s_from 2 g_from 20%Z Hwf Hv).
  - reflexivity.
  - compute_done.
  - compute_done.
Defined.

Lemma add_on_a_clone_leaves_the_original_witness :
  wf_store s_from ∧ view s_from 2 = Some g_from ∧
  ∃ σ',
    call_add (clone 2) s_from = Ok [(15 + 5)%Z] σ' ∧
    view σ' 2 = Some g_from ∧ get 2 σ' = Ok 15%Z σ' ∧
    (∀ q o, obj_at s_from q = Some o → obj_at σ' q = Some o) ∧
    (∀ q o, obj_at s_from q = None → obj_at σ' q = Some o →
       o = OMutex ∨ o = OSlot nullptr).
Proof.
  assert (wf_store s_from) as Hwf by compute_done.
  assert (view s_from 2 = Some g_from) as Hv by (vm_compute; reflexivity).
  split; [exact Hwf|]. split; [exact Hv|].
  apply (add_on_a_clone_leaves_the_original s_from 2 g_from Hwf Hv).
  unfold INT_MIN, INT_MAX. simpl. lia.
Defined.

Lemma add_on_a_moved_owner_throws_witness :
  run_quiet [Cfrom 15%Z] empty_store = Some s_from ∧
  view s_from 2 = Some g_from ∧
  ∃ n σ',
    call_add (move 2) s_from = Throw OwnerDropped σ' ∧
    obj_at σ' n = None ∧
    view σ' 2 = Some (mkGroup (15 + 5)%Z n None {[2]}) ∧
    get 2 σ' = Ok (15 + 5)%Z σ' ∧
    ∀ v, set 2 v σ' = Throw NotWritable σ'.
Proof.
  assert (run_quiet [Cfrom 15%Z] empty_store = Some s_from) as Hr
    by (vm_compute; reflexivity).
  assert (view s_from 2 = Some g_from) as Hv by (vm_compute; reflexivity).
  split; [exact Hr|]. split; [exact Hv|].
  apply (add_on_a_moved_owner_throws [Cfrom 15%Z] s_from 2 g_from Hr Hv eq_refl).
  unfold INT_MIN, INT_MAX. simpl. lia.
Defined.

Lemma main_returns_0_witness :
  ∃ σ',
    main empty_store = Ok ([20; 15]%Z, 0%Z) σ' ∧
    (∀ q o, obj_at (@empty_store Z) q = Some o → obj_at σ' q = Some o) ∧
    (∀ q o, obj_at (@empty_store Z) q = None → obj_at σ' q = Some o →
       o = OMutex ∨ o = OSlot nullptr) ∧
    (∃ q, obj_at (@empty_store Z) q = None ∧ obj_at σ' q = Some OMutex).
Proof.
  apply (main_returns_0 empty_store). apply map_Forall_empty.
Defined.
